(** * Duplicate detection for scraped job listings

    A shallow embedding of [analytics/scripts/duplicate_detector.py]
    (class [DuplicateDetector]) together with the parts of the Python
    standard library it calls ([str] methods, [re.sub] on the patterns the
    detector uses, [difflib.SequenceMatcher.ratio]), and of the step
    [AnalyticsWorkflow._handle_duplicates] of
    [analytics/scripts/analytics_workflow.py] that runs the detector and
    the resolver in turn.

    Conventions.
    - A Python [str] holding text is a [list ascii]; the 256 characters
      are the code points U+0000..U+00FF, classified as Python classifies
      them ([str.isspace], the [\w] class of [re], [str.lower]).
    - Identifiers, dictionary keys and digests are [string]s.
    - A Python [float] is the rational number it denotes; the detector
      never produces NaN or an infinity.
    - An exception is a value of [exn], carried by [result]. *)

From Stdlib Require Import Ascii String DecimalString.
From Stdlib Require Import List Bool Arith PeanoNat Lia QArith Qminmax Permutation.
Import ListNotations.
Close Scope Q_scope.

(** ** Python strings *)

Module PyStr.

Definition str := list ascii.

Definition txt (s : string) : str := list_ascii_of_string s.

Definition code (c : ascii) : nat := nat_of_ascii c.

Definition between (lo hi n : nat) : bool := (lo <=? n) && (n <=? hi).

(** [str.isspace] and the regex class [\s]. *)
Definition is_space (c : ascii) : bool :=
  let n := code c in
  between 9 13 n || between 28 32 n || (n =? 133) || (n =? 160).

(** The regex class [\w]: alphanumerics and the underscore. *)
Definition is_word (c : ascii) : bool :=
  let n := code c in
  between 48 57 n || between 65 90 n || (n =? 95) || between 97 122 n
  || (n =? 170) || between 178 179 n || (n =? 181) || between 185 186 n
  || between 188 190 n || between 192 214 n || between 216 246 n
  || between 248 255 n.

Definition lower_char (c : ascii) : ascii :=
  let n := code c in
  if between 65 90 n || between 192 214 n || between 216 222 n
  then ascii_of_nat (n + 32) else c.

(** [s.lower()] *)
Definition lower (s : str) : str := map lower_char s.

Definition str_eqb (a b : str) : bool :=
  if list_eq_dec ascii_dec a b then true else false.

Definition is_empty (s : str) : bool :=
  match s with [] => true | _ => false end.

(** [s.lstrip()], [s.rstrip()], [s.strip()] *)
Fixpoint lstrip (s : str) : str :=
  match s with
  | [] => []
  | c :: r => if is_space c then lstrip r else s
  end.

Fixpoint rstrip (s : str) : str :=
  match s with
  | [] => []
  | c :: r =>
      let r' := rstrip r in
      if is_space c && is_empty r' then [] else c :: r'
  end.

Definition strip (s : str) : str := rstrip (lstrip s).

(** [s.split()]: the maximal runs of non-whitespace characters. *)
Definition push_word (w : str) (ws : list str) : list str :=
  if is_empty w then ws else w :: ws.

Fixpoint split_aux (s : str) : str * list str :=
  match s with
  | [] => ([], [])
  | c :: r =>
      let (w, ws) := split_aux r in
      if is_space c then ([], push_word w ws) else (c :: w, ws)
  end.

Definition split (s : str) : list str :=
  let (w, ws) := split_aux s in push_word w ws.

(** [sep.join(ws)] *)
Fixpoint join (sep : str) (ws : list str) : str :=
  match ws with
  | [] => []
  | [w] => w
  | w :: rest => w ++ sep ++ join sep rest
  end.

(** [re.sub(r'\s+', ' ', s)]: every maximal whitespace run becomes one
    space.  [in_run] tells that the previous character was whitespace. *)
Fixpoint collapse_ws_go (in_run : bool) (s : str) : str :=
  match s with
  | [] => []
  | c :: r =>
      if is_space c
      then if in_run then collapse_ws_go true r
           else " "%char :: collapse_ws_go true r
      else c :: collapse_ws_go false r
  end.

Definition collapse_ws (s : str) : str := collapse_ws_go false s.

(** [re.sub(r'[^\w\s-]', ' ', s)] *)
Definition keep_char (c : ascii) : bool :=
  is_word c || is_space c || Ascii.eqb c "-"%char.

Definition blank_special (s : str) : str :=
  map (fun c => if keep_char c then c else " "%char) s.

(** *** [re.sub(rf'\b{p}\b', '', s)] for a literal, non-empty text [p] *)

Definition is_word_opt (o : option ascii) : bool :=
  match o with Some c => is_word c | None => false end.

(** [\b] holds between two positions when exactly one side is a word
    character; the ends of the string count as non-word. *)
Definition boundary (prev next : option ascii) : bool :=
  xorb (is_word_opt prev) (is_word_opt next).

Fixpoint starts_with (p s : str) : bool :=
  match p, s with
  | [], _ => true
  | _ :: _, [] => false
  | a :: p', b :: s' => Ascii.eqb a b && starts_with p' s'
  end.

Definition last_opt (prev : option ascii) (l : str) : option ascii :=
  fold_left (fun _ c => Some c) l prev.

(** The pattern [\b p \b] matches at the head of [s], the character before
    [s] being [prev]. *)
Definition match_here (p : str) (prev : option ascii) (s : str) : bool :=
  starts_with p s
  && boundary prev (hd_error s)
  && boundary (last_opt prev (firstn (length p) s))
              (hd_error (skipn (length p) s)).

(** The scanner of [re.sub]: leftmost matches, not overlapping; [skip]
    counts the characters of the current match still to be dropped. *)
Fixpoint re_sub_go (p : str) (prev : option ascii) (skip : nat) (s : str)
  : str :=
  match s with
  | [] => []
  | c :: r =>
      match skip with
      | S k => re_sub_go p (Some c) k r
      | O =>
          if match_here p prev s
          then re_sub_go p (Some c) (length p - 1) r
          else c :: re_sub_go p (Some c) 0 r
      end
  end.

Definition re_sub_word (p : str) (s : str) : str := re_sub_go p None 0 s.

(** [re.search(rf'\b{p}\b', s) is not None] *)
Fixpoint occurs_go (p : str) (prev : option ascii) (s : str) : bool :=
  match s with
  | [] => false
  | c :: r => match_here p prev s || occurs_go p (Some c) r
  end.

Definition occurs (p : str) (s : str) : bool := occurs_go p None s.

End PyStr.

Import PyStr.

(** ** Record Normalizer *)

(** [_clean_text] *)
Definition _clean_text (text : str) : str :=
  if is_empty text then []
  else
    let text := lower text in
    let text := strip (collapse_ws text) in
    blank_special text.

Definition noise_words : list str :=
  map txt ["job"; "position"; "role"; "vacancy"; "opportunity"; "career"]%string.

Definition mem_str (w : str) (l : list str) : bool := existsb (str_eqb w) l.

(** [_normalize_text] *)
Definition _normalize_text (text : str) : str :=
  if is_empty text then []
  else
    let words := split text in
    let words := filter (fun w => negb (mem_str w noise_words)) words in
    join (txt " ") words.

Definition suffixes : list str :=
  map txt ["pvt ltd"; "private limited"; "ltd"; "inc"; "corp"; "corporation";
           "company"; "co"; "limited"; "llc"; "plc"]%string.

(** [_normalize_company_name] *)
Definition _normalize_company_name (company : str) : str :=
  if is_empty company then []
  else
    let normalized := lower company in
    let normalized :=
      fold_left (fun n suffix => re_sub_word suffix n) suffixes normalized in
    strip normalized.

(** ** [difflib.SequenceMatcher(None, a, b).ratio()]

    The matcher is built with [isjunk = None] and the default
    [autojunk = True]: no character is junk, and in a second sequence of
    200 characters or more the popular characters are set aside. *)

Module Difflib.

Definition nul : ascii := "000"%char.

(** [a[i]] for an index inside [a]. *)
Definition item (a : str) (i : nat) : ascii := nth i a nul.

(** The positions of [c] in [b], ascending, counted from [i]. *)
Fixpoint indices_from (i : nat) (c : ascii) (b : str) : list nat :=
  match b with
  | [] => []
  | d :: r =>
      if Ascii.eqb d c then i :: indices_from (S i) c r
      else indices_from (S i) c r
  end.

(** [__chain_b]: the popular characters of [b]. *)
Definition is_popular (b : str) (c : ascii) : bool :=
  let n := length b in
  (200 <=? n) && (n / 100 + 1 <? length (indices_from 0 c b)).

(** [b2j.get(c, nothing)] *)
Definition b2j (b : str) (c : ascii) : list nat :=
  if is_popular b c then [] else indices_from 0 c b.

(** [bjunk.__contains__]: the junk set is empty. *)
Definition isbjunk (c : ascii) : bool := false.

Record Match := mkMatch { m_a : nat; m_b : nat; m_size : nat }.

(** The dictionaries [j2len] and [newj2len]. *)
Definition dict := list (nat * nat).

Fixpoint dict_get (d : dict) (j : nat) : nat :=
  match d with
  | [] => 0
  | (j', l) :: d' => if j' =? j then l else dict_get d' j
  end.

(** [j2len.get(j-1, 0)]; for [j = 0] the key [-1] is never present. *)
Definition get_prev (d : dict) (j : nat) : nat :=
  match j with
  | 0 => 0
  | S j' => dict_get d j'
  end.

(** The loop over [b2j.get(a[i], nothing)].  Where Python computes
    [i-k+1] on integers with [k <= i+1], the model writes [i+1-k]. *)
Fixpoint scan_row (blo bhi i : nat) (j2len : dict) (js : list nat)
    (newj2len : dict) (best : Match) : dict * Match :=
  match js with
  | [] => (newj2len, best)
  | j :: js' =>
      if j <? blo then scan_row blo bhi i j2len js' newj2len best
      else if bhi <=? j then (newj2len, best)
      else
        let k := get_prev j2len j + 1 in
        let newj2len := (j, k) :: newj2len in
        let best :=
          if m_size best <? k then mkMatch (i + 1 - k) (j + 1 - k) k else best in
        scan_row blo bhi i j2len js' newj2len best
  end.

(** The loop [for i in range(alo, ahi)]. *)
Fixpoint scan_rows (a b : str) (blo bhi : nat) (rows : list nat)
    (j2len : dict) (best : Match) : Match :=
  match rows with
  | [] => best
  | i :: rows' =>
      let (newj2len, best') :=
        scan_row blo bhi i j2len (b2j b (item a i)) [] best in
      scan_rows a b blo bhi rows' newj2len best'
  end.

(** The two [while] loops extending a match to the left; [junk] selects
    the loop over non-junk ([false]) or junk ([true]) characters.  The
    recursion is on [besti], since the loop stops at [besti = 0]. *)
Fixpoint extend_left (junk : bool) (a b : str) (alo blo : nat)
    (besti bestj bestsize : nat) : Match :=
  match besti with
  | 0 => mkMatch besti bestj bestsize
  | S i' =>
      if (alo <? besti) && (blo <? bestj)
         && Bool.eqb (isbjunk (item b (bestj - 1))) junk
         && Ascii.eqb (item a (besti - 1)) (item b (bestj - 1))
      then extend_left junk a b alo blo i' (bestj - 1) (bestsize + 1)
      else mkMatch besti bestj bestsize
  end.

(** The two [while] loops extending to the right; [gap] is
    [ahi - (besti + bestsize)], so that [besti + bestsize < ahi] reads
    [0 < gap]. *)
Fixpoint extend_right (junk : bool) (a b : str) (bhi : nat)
    (besti bestj : nat) (gap : nat) (bestsize : nat) : Match :=
  match gap with
  | 0 => mkMatch besti bestj bestsize
  | S g =>
      if (bestj + bestsize <? bhi)
         && Bool.eqb (isbjunk (item b (bestj + bestsize))) junk
         && Ascii.eqb (item a (besti + bestsize)) (item b (bestj + bestsize))
      then extend_right junk a b bhi besti bestj g (bestsize + 1)
      else mkMatch besti bestj bestsize
  end.

Definition extend (junk : bool) (a b : str) (alo ahi blo bhi : nat)
    (m : Match) : Match :=
  let m := extend_left junk a b alo blo (m_a m) (m_b m) (m_size m) in
  extend_right junk a b bhi (m_a m) (m_b m)
    (ahi - (m_a m + m_size m)) (m_size m).

(** [find_longest_match(alo, ahi, blo, bhi)] *)
Definition find_longest_match (a b : str) (alo ahi blo bhi : nat) : Match :=
  let best :=
    scan_rows a b blo bhi (seq alo (ahi - alo)) [] (mkMatch alo blo 0) in
  let best := extend false a b alo ahi blo bhi best in
  extend true a b alo ahi blo bhi best.

Definition range := (nat * nat * nat * nat)%type.

(** The [while queue] loop of [get_matching_blocks]; the head of the list
    is the top of the stack.  [None] when the fuel runs out. *)
Fixpoint blocks_loop (a b : str) (fuel : nat) (queue : list range)
    (matching_blocks : list Match) : option (list Match) :=
  match queue with
  | [] => Some matching_blocks
  | (alo, ahi, blo, bhi) :: queue =>
      match fuel with
      | 0 => None
      | S fuel =>
          let x := find_longest_match a b alo ahi blo bhi in
          let i := m_a x in
          let j := m_b x in
          let k := m_size x in
          if k =? 0 then blocks_loop a b fuel queue matching_blocks
          else
            let matching_blocks := matching_blocks ++ [x] in
            let queue :=
              if (alo <? i) && (blo <? j)
              then (alo, i, blo, j) :: queue else queue in
            let queue :=
              if (i + k <? ahi) && (j + k <? bhi)
              then (i + k, ahi, j + k, bhi) :: queue else queue in
            blocks_loop a b fuel queue matching_blocks
      end
  end.

(** Tuples compare lexicographically. *)
Definition match_ltb (x y : Match) : bool :=
  (m_a x <? m_a y)
  || ((m_a x =? m_a y)
      && ((m_b x <? m_b y)
          || ((m_b x =? m_b y) && (m_size x <? m_size y)))).

Fixpoint insert_match (x : Match) (l : list Match) : list Match :=
  match l with
  | [] => [x]
  | y :: l' => if match_ltb x y then x :: l else y :: insert_match x l'
  end.

(** [matching_blocks.sort()] *)
Definition sort_matches (l : list Match) : list Match :=
  fold_left (fun acc x => insert_match x acc) l [].

(** The loop that merges adjacent blocks: the pending block and the list
    [non_adjacent]. *)
Definition merge_step (st : Match * list Match) (x : Match)
  : Match * list Match :=
  let (cur, non_adjacent) := st in
  if (m_a cur + m_size cur =? m_a x) && (m_b cur + m_size cur =? m_b x)
  then (mkMatch (m_a cur) (m_b cur) (m_size cur + m_size x), non_adjacent)
  else
    (x, if m_size cur =? 0 then non_adjacent else non_adjacent ++ [cur]).

Definition merge_adjacent (la lb : nat) (blocks : list Match) : list Match :=
  let (cur, non_adjacent) := fold_left merge_step blocks (mkMatch 0 0 0, []) in
  let non_adjacent :=
    if m_size cur =? 0 then non_adjacent else non_adjacent ++ [cur] in
  non_adjacent ++ [mkMatch la lb 0].

(** Fuel that the queue loop never exhausts. *)
Definition blocks_fuel (a : str) : nat := 2 * length a + 1.

(** [get_matching_blocks()] *)
Definition get_matching_blocks (a b : str) : list Match :=
  let la := length a in
  let lb := length b in
  match blocks_loop a b (blocks_fuel a) [(0, la, 0, lb)] [] with
  | Some matching_blocks => merge_adjacent la lb (sort_matches matching_blocks)
  | None => []
  end.

Definition Q_of_nat (n : nat) : Q := inject_Z (Z.of_nat n).

(** [_calculate_ratio(matches, length)] *)
Definition _calculate_ratio (matches length : nat) : Q :=
  if length =? 0 then 1%Q
  else (2 * Q_of_nat matches / Q_of_nat length)%Q.

(** [ratio()] *)
Definition ratio (a b : str) : Q :=
  let matches := list_sum (map m_size (get_matching_blocks a b)) in
  _calculate_ratio matches (length a + length b).

End Difflib.

(** ** Data model of the detector *)

Import Difflib.

(** [x < y] on floats. *)
Definition Qltb (x y : Q) : bool := negb (Qle_bool y x).

(** [min(x, y)] of Python: [y] when [y < x], else [x]. *)
Definition py_min (x y : Q) : Q := if Qltb y x then y else x.

Inductive exn :=
| KeyError (key : string)
| StopIteration
| IndexError.

Inductive result (A : Type) :=
| Ok (a : A)
| Raise (e : exn).
Arguments Ok {A} a.
Arguments Raise {A} e.

Definition bind {A B} (r : result A) (f : A -> result B) : result B :=
  match r with
  | Ok a => f a
  | Raise e => Raise e
  end.

Notation "x <- r ;; k" := (bind r (fun x => k))
  (at level 61, r at next level, right associativity).

(** [@dataclass DuplicateMatch] *)
Record DuplicateMatch := mkDuplicateMatch {
  job1_id : string;
  job2_id : string;
  similarity_score : Q;
  match_type : string;
  reasons : list string;
  confidence : Q
}.

(** [self.config], with the nested dictionaries flattened. *)
Record Config := mkConfig {
  exact_match : Q;
  high_similarity : Q;
  medium_similarity : Q;
  low_similarity : Q;
  weight_title : Q;
  weight_company : Q;
  weight_location : Q;
  weight_description : Q;
  weight_salary : Q;
  fuzzy_threshold : Q;
  min_confidence : Q;
  enable_advanced_matching : bool
}.

(** [_default_config] *)
Definition _default_config : Config := {|
  exact_match := 1.0;
  high_similarity := 0.9;
  medium_similarity := 0.7;
  low_similarity := 0.5;
  weight_title := 0.4;
  weight_company := 0.3;
  weight_location := 0.15;
  weight_description := 0.1;
  weight_salary := 0.05;
  fuzzy_threshold := 0.8;
  min_confidence := 0.6;
  enable_advanced_matching := true
|}.

(** A value of a job dictionary: the key is missing, holds [None], or
    holds a value. *)
Inductive field (A : Type) :=
| Missing
| Null
| Val (a : A).
Arguments Missing {A}.
Arguments Null {A}.
Arguments Val {A} a.

(** One element of [jobs_data].  Every dictionary carries its ['id'], as
    the workflow guarantees before it calls the detector. *)
Record Job := mkJob {
  raw_id : string;
  raw_title : field str;
  raw_company : field str;
  raw_location : field str;
  raw_description : field str;
  raw_salary : field str;
  raw_source : field string
}.

(** A row of the preprocessed frame, as handed to the scorers
    ([df.iloc[i]]).  A text column is [None] when the frame lacks it, so
    that ['title_clean' in job] reads [title_clean job <> None].  The
    [source] and [salary] cells are as pandas stores the raw values: NaN
    for a missing key ([Missing]), [None], or the value.  The column
    [title_words], which nothing reads, is left out. *)
Record Row := mkRow {
  job_id : string;
  title_clean : option str;
  title_normalized : option str;
  company_clean : option str;
  company_normalized : option str;
  location_clean : option str;
  location_normalized : option str;
  description_clean : option str;
  description_normalized : option str;
  salary : field str;
  source : field string;
  fingerprint : string
}.

(** The preprocessed [DataFrame]: whether it has a ['source'] column, and
    its rows. *)
Record DataFrame := mkDataFrame {
  source_column : bool;
  rows : list Row
}.

(** ** Preprocessing *)

(** The dictionary has the key. *)
Definition present {A} (f : field A) : bool :=
  match f with Missing => false | _ => true end.

(** [c in df.columns] for the frame [pd.DataFrame(jobs_data)]. *)
Definition has_column {A} (get : Job -> field A) (jobs_data : list Job) : bool :=
  existsb (fun j => present (get j)) jobs_data.

(** ['id' in df.columns]: every dictionary has the key, so the column is
    missing from the frame of an empty list only. *)
Definition has_id_column (jobs_data : list Job) : bool :=
  match jobs_data with [] => false | _ => true end.

(** [df[c].fillna('')] at one row. *)
Definition fillna (f : field str) : str :=
  match f with Val s => s | _ => [] end.

(** The value of a cell that holds one. *)
Definition cell {A} (f : field A) : option A :=
  match f with Val a => Some a | _ => None end.

(** [row.get(c, '')] *)
Definition get_or_empty (o : option str) : str :=
  match o with Some s => s | None => [] end.

(** [str(n)] *)
Definition string_of_nat (n : nat) : string :=
  NilZero.string_of_uint (Nat.to_uint n).

Section Externals.

(** [hashlib.md5(s.encode()).hexdigest()] *)
Variable md5 : str -> string.

(** [cosine_similarity(self.vectorizer.fit_transform(texts))]: the square
    matrix of pairwise similarities, or [None] when scikit-learn raises. *)
Variable tfidf_cosine : list str -> option (list (list Q)).

(** [_generate_fingerprint] *)
Definition _generate_fingerprint
    (title_normalized company_normalized location_clean : option str) : string :=
  let fields := [get_or_empty title_normalized;
                 get_or_empty company_normalized;
                 get_or_empty location_clean] in
  md5 (PyStr.join (txt "|") fields).

(** The text columns of one row: [None] when the raw column is absent. *)
Definition clean_column (get : Job -> field str) (jobs_data : list Job)
    (j : Job) : option str :=
  if has_column get jobs_data then Some (_clean_text (fillna (get j))) else None.

(** [_preprocess_data], applied to [pd.DataFrame(jobs_data)]. *)
Definition _preprocess_data (jobs_data : list Job) : result DataFrame :=
  let ids :=
    if negb (has_id_column jobs_data)
    then map string_of_nat (seq 0 (length jobs_data))
    else map raw_id jobs_data in
  if negb (has_column raw_title jobs_data) then Raise (KeyError "title_clean")
  else if negb (has_column raw_company jobs_data)
  then Raise (KeyError "company_clean")
  else
    let row (ij : string * Job) : Row :=
      let (i, j) := ij in
      let title_clean := clean_column raw_title jobs_data j in
      let company_clean := clean_column raw_company jobs_data j in
      let location_clean := clean_column raw_location jobs_data j in
      let description_clean := clean_column raw_description jobs_data j in
      let title_normalized := option_map _normalize_text title_clean in
      let company_normalized := option_map _normalize_company_name company_clean in
      {| job_id := i;
         title_clean := title_clean;
         title_normalized := title_normalized;
         company_clean := company_clean;
         company_normalized := company_normalized;
         location_clean := location_clean;
         location_normalized := option_map _normalize_text location_clean;
         description_clean := description_clean;
         description_normalized := option_map _normalize_text description_clean;
         salary := raw_salary j;
         source := raw_source j;
         fingerprint :=
           _generate_fingerprint title_normalized company_normalized location_clean
      |} in
    Ok {| source_column := has_column raw_source jobs_data;
          rows := map row (combine ids jobs_data) |}.

(** ** The four strategies *)

(** All pairs [(l[i], l[j])] with [i < j], in the order of the nested
    loops. *)
Fixpoint pairs {A} (l : list A) : list (A * A) :=
  match l with
  | [] => []
  | x :: r => map (pair x) r ++ pairs r
  end.

Fixpoint insert_uniq (s : string) (l : list string) : list string :=
  match l with
  | [] => [s]
  | t :: l' =>
      if String.eqb s t then l
      else if String.ltb s t then s :: l
      else t :: insert_uniq s l'
  end.

(** The group keys of [df.groupby('fingerprint')], sorted. *)
Definition group_keys (df : DataFrame) : list string :=
  fold_left (fun acc r => insert_uniq (fingerprint r) acc) (rows df) [].

(** [_find_exact_duplicates] *)
Definition _find_exact_duplicates (df : DataFrame) : list DuplicateMatch :=
  flat_map
    (fun fp =>
       let group := filter (fun r => String.eqb (fingerprint r) fp) (rows df) in
       if 1 <? length group then
         let job_ids := map job_id group in
         map (fun ij => {| job1_id := fst ij;
                           job2_id := snd ij;
                           similarity_score := 1.0;
                           match_type := "exact";
                           reasons := ["identical_fingerprint"%string];
                           confidence := 1.0 |})
             (pairs job_ids)
       else [])
    (group_keys df).

(** One [if 'c' in job1 and 'c' in job2] block of a scorer: the running
    [(total_similarity, total_weight)]. *)
Definition add_field (w : Q) (x y : option str) (acc : Q * Q) : Q * Q :=
  match x, y with
  | Some s1, Some s2 => ((fst acc + ratio s1 s2 * w)%Q, (snd acc + w)%Q)
  | _, _ => acc
  end.

Definition weighted (acc : Q * Q) : Q :=
  if Qltb 0 (snd acc) then (fst acc / snd acc)%Q else 0%Q.

(** [_calculate_fuzzy_similarity] *)
Definition _calculate_fuzzy_similarity (config : Config) (job1 job2 : Row) : Q :=
  let acc := (0%Q, 0%Q) in
  let acc := add_field (weight_title config)
               (title_clean job1) (title_clean job2) acc in
  let acc := add_field (weight_company config)
               (company_normalized job1) (company_normalized job2) acc in
  let acc := add_field (weight_location config)
               (location_clean job1) (location_clean job2) acc in
  let acc := add_field (weight_description config)
               (description_clean job1) (description_clean job2) acc in
  weighted acc.

(** [_calculate_cross_source_similarity] *)
Definition _calculate_cross_source_similarity (job1 job2 : Row) : Q :=
  let acc := (0%Q, 0%Q) in
  let acc := add_field 0.6 (title_clean job1) (title_clean job2) acc in
  let acc := add_field 0.4
               (company_normalized job1) (company_normalized job2) acc in
  weighted acc.

Definition field_ratio (x y : option str) : option Q :=
  match x, y with
  | Some s1, Some s2 => Some (ratio s1 s2)
  | _, _ => None
  end.

(** [_get_similarity_reasons] *)
Definition _get_similarity_reasons (job1 job2 : Row) : list string :=
  let reasons := [] in
  let reasons :=
    match field_ratio (title_clean job1) (title_clean job2) with
    | Some title_sim =>
        if Qltb 0.9 title_sim then reasons ++ ["very_similar_titles"%string]
        else if Qltb 0.7 title_sim then reasons ++ ["similar_titles"%string]
        else reasons
    | None => reasons
    end in
  let reasons :=
    match field_ratio (company_normalized job1) (company_normalized job2) with
    | Some company_sim =>
        if Qltb 0.9 company_sim then reasons ++ ["same_company"%string]
        else if Qltb 0.7 company_sim then reasons ++ ["similar_company"%string]
        else reasons
    | None => reasons
    end in
  match field_ratio (location_clean job1) (location_clean job2) with
  | Some location_sim =>
      if Qltb 0.9 location_sim then reasons ++ ["same_location"%string]
      else reasons
  | None => reasons
  end.

(** [_find_fuzzy_duplicates] *)
Definition _find_fuzzy_duplicates (config : Config) (df : DataFrame)
  : list DuplicateMatch :=
  let threshold := fuzzy_threshold config in
  flat_map
    (fun p : Row * Row =>
       let (job1, job2) := p in
       let similarity := _calculate_fuzzy_similarity config job1 job2 in
       if Qle_bool threshold similarity then
         [{| job1_id := job_id job1;
             job2_id := job_id job2;
             similarity_score := similarity;
             match_type := "fuzzy";
             reasons := _get_similarity_reasons job1 job2;
             confidence := py_min similarity 0.95 |}]
       else [])
    (pairs (rows df)).

(** [similarities[i][j]] *)
Definition entry (m : list (list Q)) (i j : nat) : Q := nth j (nth i m []) 0%Q.

(** [_find_semantic_duplicates].  Every combined text holds the blank
    between title and description, so [any(texts)] fails on an empty frame
    only. *)
Definition _find_semantic_duplicates (config : Config) (df : DataFrame)
  : list DuplicateMatch :=
  if negb (enable_advanced_matching config) then []
  else
    let texts :=
      map (fun row => get_or_empty (title_clean row) ++ txt " "
                      ++ get_or_empty (description_clean row)) (rows df) in
    if negb (existsb (fun t => negb (is_empty t)) texts) then []
    else
      match tfidf_cosine texts with
      | None => []
      | Some similarities =>
          let threshold := medium_similarity config in
          flat_map
            (fun p : (nat * Row) * (nat * Row) =>
               let '((i, job1), (j, job2)) := p in
               let s := entry similarities i j in
               if Qle_bool threshold s then
                 [{| job1_id := job_id job1;
                     job2_id := job_id job2;
                     similarity_score := s;
                     match_type := "semantic";
                     reasons := ["semantic_similarity"%string];
                     confidence := (s * 0.8)%Q |}]
               else [])
            (pairs (combine (seq 0 (length (rows df))) (rows df)))
      end.

(** Two cells are the same entry of [unique()]. *)
Definition cell_eqb (x y : field string) : bool :=
  match x, y with
  | Val s, Val t => String.eqb s t
  | Null, Null => true
  | Missing, Missing => true
  | _, _ => false
  end.

(** [df['source'].unique()]: the distinct cells in order of appearance. *)
Definition unique_sources (df : DataFrame) : list (field string) :=
  fold_left
    (fun acc r => if existsb (cell_eqb (source r)) acc then acc
                  else acc ++ [source r])
    (rows df) [].

(** [df[df['source'] == s]]: only a name selects rows; NaN and [None]
    select none. *)
Definition rows_of_source (df : DataFrame) (s : field string) : list Row :=
  match s with
  | Val name =>
      filter (fun r => match source r with
                       | Val t => String.eqb t name
                       | _ => false
                       end) (rows df)
  | _ => []
  end.

(** [f'{s}'] *)
Definition source_name (s : field string) : string :=
  match s with
  | Val name => name
  | Null => "None"
  | Missing => "nan"
  end.

(** [_find_cross_source_duplicates] *)
Definition _find_cross_source_duplicates (config : Config) (df : DataFrame)
  : list DuplicateMatch :=
  if negb (source_column df) then []
  else
    flat_map
      (fun ss : field string * field string =>
         let (source1, source2) := ss in
         flat_map
           (fun job1 =>
              flat_map
                (fun job2 =>
                   let similarity :=
                     _calculate_cross_source_similarity job1 job2 in
                   if Qle_bool (high_similarity config) similarity then
                     [{| job1_id := job_id job1;
                         job2_id := job_id job2;
                         similarity_score := similarity;
                         match_type := "cross_source";
                         reasons :=
                           [("cross_source_" ++ source_name source1 ++ "_"
                             ++ source_name source2)%string];
                         confidence := (similarity * 0.9)%Q |}]
                   else [])
                (rows_of_source df source2))
           (rows_of_source df source1))
      (pairs (unique_sources df)).

(** ** Consolidation *)

(** The dictionary [results] before its summary is filled in; its keys in
    insertion order. *)
Record Results := mkResults {
  exact_duplicates : list DuplicateMatch;
  fuzzy_duplicates : list DuplicateMatch;
  semantic_duplicates : list DuplicateMatch;
  cross_source_duplicates : list DuplicateMatch
}.

Definition key := (string * string)%type.

(** [tuple(sorted([d.job1_id, d.job2_id]))] *)
Definition pair_key (d : DuplicateMatch) : key :=
  if String.ltb (job2_id d) (job1_id d)
  then (job2_id d, job1_id d)
  else (job1_id d, job2_id d).

Definition key_eqb (k1 k2 : key) : bool :=
  String.eqb (fst k1) (fst k2) && String.eqb (snd k1) (snd k2).

(** [next(i for i, d in enumerate(all_duplicates) if key(d) == pair_key)] *)
Fixpoint find_index (k : key) (l : list DuplicateMatch) (i : nat) : option nat :=
  match l with
  | [] => None
  | d :: l' => if key_eqb (pair_key d) k then Some i else find_index k l' (S i)
  end.

(** [l[i] = x] *)
Fixpoint list_set {A} (l : list A) (i : nat) (x : A) : list A :=
  match l, i with
  | [], _ => []
  | _ :: l', 0 => x :: l'
  | y :: l', S i' => y :: list_set l' i' x
  end.

(** The body of the inner loop: [all_duplicates] and [seen_pairs]. *)
Definition consolidate_step (st : list DuplicateMatch * list key)
    (duplicate : DuplicateMatch) : result (list DuplicateMatch * list key) :=
  let (all_duplicates, seen_pairs) := st in
  let k := pair_key duplicate in
  if negb (existsb (key_eqb k) seen_pairs)
  then Ok (all_duplicates ++ [duplicate], k :: seen_pairs)
  else
    match find_index k all_duplicates 0 with
    | None => Raise StopIteration
    | Some existing_idx =>
        match nth_error all_duplicates existing_idx with
        | None => Raise IndexError
        | Some existing =>
            if Qltb (confidence existing) (confidence duplicate)
            then Ok (list_set all_duplicates existing_idx duplicate, seen_pairs)
            else Ok (all_duplicates, seen_pairs)
        end
    end.

Fixpoint consolidate_loop (duplicates : list DuplicateMatch)
    (st : list DuplicateMatch * list key)
  : result (list DuplicateMatch * list key) :=
  match duplicates with
  | [] => Ok st
  | d :: rest => st' <- consolidate_step st d ;; consolidate_loop rest st'
  end.

(** Insertion into a list sorted by descending confidence, ahead of the
    entries that are not more confident. *)
Fixpoint insert_by_confidence (d : DuplicateMatch) (l : list DuplicateMatch)
  : list DuplicateMatch :=
  match l with
  | [] => [d]
  | e :: l' =>
      if Qle_bool (confidence e) (confidence d) then d :: l
      else e :: insert_by_confidence d l'
  end.

(** [l.sort(key=lambda x: x.confidence, reverse=True)]: the stable sort. *)
Definition sort_by_confidence (l : list DuplicateMatch) : list DuplicateMatch :=
  fold_right insert_by_confidence [] l.

(** The match lists in the order [results.items()] yields them. *)
Definition methods (results : Results) : list (list DuplicateMatch) :=
  [exact_duplicates results; fuzzy_duplicates results;
   semantic_duplicates results; cross_source_duplicates results].

(** [_consolidate_duplicates] *)
Definition _consolidate_duplicates (results : Results)
  : result (list DuplicateMatch) :=
  st <- fold_left (fun acc duplicates =>
                     st <- acc ;; consolidate_loop duplicates st)
                  (methods results) (Ok ([], [])) ;;
  Ok (sort_by_confidence (fst st)).

(** ** Summary and the main entry point *)

Fixpoint dedup (l : list string) : list string :=
  match l with
  | [] => []
  | x :: r => if existsb (String.eqb x) r then dedup r else x :: dedup r
  end.

(** [_get_confidence_distribution]: high, medium, low. *)
Definition _get_confidence_distribution (duplicates : list DuplicateMatch)
  : nat * nat * nat :=
  fold_left
    (fun acc dup =>
       let '(high, medium, low) := acc in
       if Qle_bool 0.8 (confidence dup) then (S high, medium, low)
       else if Qle_bool 0.6 (confidence dup) then (high, S medium, low)
       else (high, medium, S low))
    duplicates (0, 0, 0).

(** [_get_match_type_distribution] *)
Definition _get_match_type_distribution (duplicates : list DuplicateMatch)
  : list (string * nat) :=
  fold_left
    (fun acc dup =>
       if existsb (fun e => String.eqb (fst e) (match_type dup)) acc
       then map (fun e => if String.eqb (fst e) (match_type dup)
                          then (fst e, S (snd e)) else e) acc
       else acc ++ [(match_type dup, 1)])
    duplicates [].

(** [df[df['id'] == i]['source'].iloc[0]] *)
Definition source_of (df : DataFrame) (i : string) : result (field string) :=
  match find (fun r => String.eqb (job_id r) i) (rows df) with
  | Some r => Ok (source r)
  | None => Raise IndexError
  end.

(** [x == y] on two cells taken out of the frame: NaN equals nothing. *)
Definition scalar_eqb (x y : field string) : bool :=
  match x, y with
  | Val s, Val t => String.eqb s t
  | Null, Null => true
  | _, _ => false
  end.

(** The list comprehension [source_duplicates]; [or] does not look up the
    second job when the first one is of the source. *)
Fixpoint source_duplicates (df : DataFrame) (s : field string)
    (duplicates : list DuplicateMatch) : result (list DuplicateMatch) :=
  match duplicates with
  | [] => Ok []
  | d :: rest =>
      s1 <- source_of df (job1_id d) ;;
      hit <- (if scalar_eqb s1 s then Ok true
              else s2 <- source_of df (job2_id d) ;; Ok (scalar_eqb s2 s)) ;;
      tail <- source_duplicates df s rest ;;
      Ok (if hit then d :: tail else tail)
  end.

(** One value of [source_stats]. *)
Record SourceStats := mkSourceStats {
  source_total_jobs : nat;
  source_duplicate_pairs : nat;
  source_unique_jobs_affected : nat
}.

(** The loop that fills [source_stats]. *)
Fixpoint source_statistics_loop (df : DataFrame) (sources : list (field string))
    (duplicates : list DuplicateMatch)
  : result (list (field string * SourceStats)) :=
  match sources with
  | [] => Ok []
  | s :: rest =>
      ds <- source_duplicates df s duplicates ;;
      tail <- source_statistics_loop df rest duplicates ;;
      Ok ((s, {| source_total_jobs := length (rows_of_source df s);
                 source_duplicate_pairs := length ds;
                 source_unique_jobs_affected :=
                   length (dedup (map job1_id ds ++ map job2_id ds)) |})
          :: tail)
  end.

(** The dictionary [_generate_summary] returns. *)
Record Summary := mkSummary {
  total_jobs : nat;
  duplicate_pairs : nat;
  unique_jobs_affected : nat;
  duplicate_rate : Q;
  estimated_unique_jobs : nat;
  source_statistics : list (field string * SourceStats);
  confidence_distribution : nat * nat * nat;
  match_type_distribution : list (string * nat)
}.

(** [_generate_summary] *)
Definition _generate_summary (df : DataFrame) (duplicates : list DuplicateMatch)
  : result Summary :=
  let total_jobs := length (rows df) in
  let unique_jobs_in_duplicates :=
    dedup (flat_map (fun dup => [job1_id dup; job2_id dup]) duplicates) in
  source_stats <-
    (if source_column df
     then source_statistics_loop df (unique_sources df) duplicates
     else Ok []) ;;
  Ok {| total_jobs := total_jobs;
        duplicate_pairs := length duplicates;
        unique_jobs_affected := length unique_jobs_in_duplicates;
        duplicate_rate :=
          if 0 <? total_jobs
          then (Q_of_nat (length unique_jobs_in_duplicates)
                / Q_of_nat total_jobs)%Q
          else 0%Q;
        estimated_unique_jobs :=
          total_jobs - length unique_jobs_in_duplicates + length duplicates;
        source_statistics := source_stats;
        confidence_distribution := _get_confidence_distribution duplicates;
        match_type_distribution := _get_match_type_distribution duplicates |}.

(** The dictionary [detect_duplicates] returns. *)
Record Analysis := mkAnalysis {
  per_method : Results;
  summary : Summary;
  consolidated_duplicates : list DuplicateMatch
}.

(** [detect_duplicates] *)
Definition detect_duplicates (config : Config) (jobs_data : list Job)
  : result Analysis :=
  df <- _preprocess_data jobs_data ;;
  let results := {|
    exact_duplicates := _find_exact_duplicates df;
    fuzzy_duplicates := _find_fuzzy_duplicates config df;
    semantic_duplicates := _find_semantic_duplicates config df;
    cross_source_duplicates := _find_cross_source_duplicates config df |} in
  all_duplicates <- _consolidate_duplicates results ;;
  summary <- _generate_summary df all_duplicates ;;
  Ok {| per_method := results;
        summary := summary;
        consolidated_duplicates := all_duplicates |}.

End Externals.

(** ** Resolution *)

(** [next(job for job in jobs_data if str(job.get('id', '')) == i)] *)
Definition find_job (jobs_data : list Job) (i : string) : result Job :=
  match find (fun job => String.eqb (raw_id job) i) jobs_data with
  | Some job => Ok job
  | None => Raise StopIteration
  end.

(** [source_priority.get(job.get('source', ''), 999)] *)
Definition source_priority (job : Job) : nat :=
  match raw_source job with
  | Val s =>
      if String.eqb s "merojob" then 1
      else if String.eqb s "jobaxle" then 2
      else if String.eqb s "froxjob" then 3
      else if String.eqb s "hamrojobs" then 4
      else 999
  | _ => 999
  end.

(** The body of the loop over [duplicates]: the set [jobs_to_remove]. *)
Definition removal_step (config : Config) (jobs_data : list Job)
    (strategy : string) (jobs_to_remove : list string) (dup : DuplicateMatch)
  : result (list string) :=
  if Qle_bool (min_confidence config) (confidence dup) then
    if String.eqb strategy "keep_first" then Ok (job2_id dup :: jobs_to_remove)
    else if String.eqb strategy "keep_best_source" then
      job1 <- find_job jobs_data (job1_id dup) ;;
      job2 <- find_job jobs_data (job2_id dup) ;;
      if source_priority job1 <=? source_priority job2
      then Ok (job2_id dup :: jobs_to_remove)
      else Ok (job1_id dup :: jobs_to_remove)
    else Ok jobs_to_remove
  else Ok jobs_to_remove.

Fixpoint removal_loop (config : Config) (jobs_data : list Job)
    (strategy : string) (duplicates : list DuplicateMatch)
    (jobs_to_remove : list string) : result (list string) :=
  match duplicates with
  | [] => Ok jobs_to_remove
  | dup :: rest =>
      s <- removal_step config jobs_data strategy jobs_to_remove dup ;;
      removal_loop config jobs_data strategy rest s
  end.

(** [remove_duplicates] *)
Definition remove_duplicates (config : Config) (jobs_data : list Job)
    (duplicates : list DuplicateMatch) (strategy : string)
  : result (list Job) :=
  jobs_to_remove <- removal_loop config jobs_data strategy duplicates [] ;;
  Ok (filter (fun job => negb (existsb (String.eqb (raw_id job)) jobs_to_remove))
             jobs_data).

(** ** The workflow's use of the detector *)

(** [AnalyticsWorkflow._handle_duplicates]: the workflow builds its
    detector with the default configuration and hands it
    [self.config.duplicate_strategy]. *)
Definition _handle_duplicates (md5 : str -> string)
    (tfidf_cosine : list str -> option (list (list Q)))
    (duplicate_strategy : string) (jobs_data : list Job)
  : result (list Job * Analysis) :=
  duplicate_analysis <-
    detect_duplicates md5 tfidf_cosine _default_config jobs_data ;;
  cleaned_jobs <-
    remove_duplicates _default_config jobs_data
      (consolidated_duplicates duplicate_analysis) duplicate_strategy ;;
  Ok (cleaned_jobs, duplicate_analysis).

(** * Vocabulary of the proofs

    Predicates and measures that the lemmas are stated with, and the
    sample data of the witnesses. *)

(** A pattern is tight when it begins and ends with a word character and
    never holds two non-word characters side by side, as every
    legal-entity suffix of the detector does.  [tight_from x u] checks the
    text [u] read after the character [x]. *)
Fixpoint tight_from (x : ascii) (u : str) : bool :=
  match u with
  | [] => true
  | y :: u' => (is_word x || is_word y) && tight_from y u'
  end.

Definition tight (p : str) : bool :=
  match p with
  | [] => false
  | x :: u => is_word x && tight_from x u && is_word_opt (last_opt None p)
  end.

(** The scanner's context: the character before the rest of the input
    ([pi]) and the character before the rest of the output ([po]) agree,
    or a match has just been dropped. *)
Definition ctx_ok (pi po : option ascii) (s : str) : Prop :=
  pi = po
  \/ (is_word_opt pi = true /\ is_word_opt po = false
      /\ is_word_opt (hd_error s) = false).

(** The text does not begin with whitespace. *)
Definition starts_clean (t : str) : Prop :=
  match t with [] => True | c :: _ => is_space c = false end.

(** The loop [for suffix in suffixes] of [_normalize_company_name]. *)
Definition sub_all (l : list str) (s : str) : str :=
  fold_left (fun n suffix => re_sub_word suffix n) l s.

Definition nonspace (c : ascii) : Prop := is_space c = false.

(** What [split] returns: non-empty texts free of whitespace. *)
Definition wordy (w : str) : Prop := w <> [] /\ Forall nonspace w.

(** The block [m] lies in [a[alo:ahi]] and in [b[blo:bhi]]. *)
Definition in_range (alo ahi blo bhi : nat) (m : Match) : Prop :=
  alo <= m_a m /\ m_a m + m_size m <= ahi
  /\ blo <= m_b m /\ m_b m + m_size m <= bhi.

(** The lengths a row of [j2len] may hold: a match ending at [j] cannot
    start before [blo], nor be longer than the rows read so far. *)
Definition dict_ok (blo bhi bound : nat) (d : dict) : Prop :=
  forall j l, In (j, l) d -> blo <= j < bhi /\ l <= bound /\ l <= j + 1 - blo.

(** The queue of [get_matching_blocks]: its ranges, their widths, and the
    number of iterations they can still cost. *)
Definition wf_range (r : range) : Prop :=
  let '(alo, ahi, blo, bhi) := r in alo <= ahi /\ blo <= bhi.

Definition width_a (r : range) : nat := let '(alo, ahi, _, _) := r in ahi - alo.
Definition width_b (r : range) : nat := let '(_, _, blo, bhi) := r in bhi - blo.

Definition weight (queue : list range) : nat :=
  list_sum (map (fun r => 2 * width_a r + 1) queue).

(** [sum(triple[-1] for triple in l)] *)
Definition total (l : list Match) : nat := list_sum (map m_size l).

Definition sum_a (queue : list range) : nat := list_sum (map width_a queue).
Definition sum_b (queue : list range) : nat := list_sum (map width_b queue).

(** Two matches name the same unordered pair of jobs. *)
Definition same_pair (d e : DuplicateMatch) : Prop :=
  (job1_id d = job1_id e /\ job2_id d = job2_id e)
  \/ (job1_id d = job2_id e /\ job2_id d = job1_id e).

(** The pair keys of a list of matches. *)
Definition keys (l : list DuplicateMatch) : list key := map pair_key l.

(** [e] is the first entry of the highest confidence among the entries
    of [l] for its pair. *)
Definition first_best (e : DuplicateMatch) (l : list DuplicateMatch) : Prop :=
  exists l1 l2,
    l = l1 ++ e :: l2
    /\ (forall d, In d l1 -> same_pair d e -> (confidence d < confidence e)%Q)
    /\ (forall d, In d l2 -> same_pair d e -> (confidence d <= confidence e)%Q).

(** The invariant of the loop, [seen] being the matches read so far. *)
Record Inv (seen : list DuplicateMatch)
    (st : list DuplicateMatch * list key) : Prop := {
  inv_nodup : NoDup (keys (fst st));
  inv_seen : forall k, In k (snd st) <-> In k (keys (fst st));
  inv_all : forall d, In d seen -> In (pair_key d) (keys (fst st));
  inv_best : forall e, In e (fst st) -> first_best e seen
}.

(** The result is sorted by descending confidence. *)
Inductive descending : list DuplicateMatch -> Prop :=
| desc_nil : descending []
| desc_one d : descending [d]
| desc_cons d e l :
    (confidence e <= confidence d)%Q -> descending (e :: l) ->
    descending (d :: e :: l).

(** [w not in noise_words] *)
Definition keep_word (w : str) : bool := negb (mem_str w noise_words).

(** Characters of a cleaned text: already lowercase, and of a kind that
    the cleaner keeps. *)
Definition good (c : ascii) : Prop := lower_char c = c /\ keep_char c = true.

(** The running totals of a scorer: the similarity never exceeds the
    weight. *)
Definition totals_ok (acc : Q * Q) : Prop := (0 <= fst acc <= snd acc)%Q.

(** Rational equality of running totals. *)
Definition totals_eq (acc acc' : Q * Q) : Prop :=
  (fst acc == fst acc')%Q /\ (snd acc == snd acc')%Q.

(** The library ratio agrees in both orders on this pair of cells. *)
Definition ratio_sym (x y : option str) : Prop :=
  match x, y with
  | Some s, Some t => (ratio s t == ratio t s)%Q
  | _, _ => True
  end.

(** Sample rows and frames. *)
Definition sample_row (i : string) (title company : string) (src : string)
  : Row :=
  {| job_id := i;
     title_clean := Some (txt title);
     title_normalized := Some (txt title);
     company_clean := Some (txt company);
     company_normalized := Some (txt company);
     location_clean := Some (txt "ktm");
     location_normalized := Some (txt "ktm");
     description_clean := None;
     description_normalized := None;
     salary := Missing;
     source := Val src;
     fingerprint := (title ++ "|" ++ company ++ "|ktm")%string |}.

Definition sample_frame : DataFrame :=
  {| source_column := true;
     rows := [sample_row "1" "developer" "techcorp" "merojob";
              sample_row "2" "developer" "techcorp" "jobaxle";
              sample_row "3" "marketing manager" "plus" "merojob"] |}.

(** The confidence each non-exact strategy attaches to a score. *)
Definition strategy_confidence (m : DuplicateMatch) : Q :=
  if String.eqb (match_type m) "fuzzy" then py_min (similarity_score m) 0.95
  else if String.eqb (match_type m) "semantic"
       then (similarity_score m * 0.8)%Q
       else (similarity_score m * 0.9)%Q.

(** Cosine similarities of TF-IDF vectors lie between 0 and 1. *)
Definition cosine_range (tfidf_cosine : list str -> option (list (list Q)))
  : Prop :=
  forall texts m i j,
    tfidf_cosine texts = Some m -> (0 <= entry m i j <= 1)%Q.

(** A stand-in for scikit-learn on two texts. *)
Definition sample_cosine (texts : list str) : option (list (list Q)) :=
  Some [[1; 0.75]; [0.75; 1]]%Q.

Definition sample_pair : DataFrame :=
  {| source_column := true;
     rows := [sample_row "1" "developer" "techcorp" "merojob";
              sample_row "2" "developer" "techcorp" "jobaxle"] |}.

Definition blank_row (i : string) : Row :=
  {| job_id := i;
     title_clean := Some [];
     title_normalized := Some [];
     company_clean := Some [];
     company_normalized := Some [];
     location_clean := Some [];
     location_normalized := Some [];
     description_clean := Some [];
     description_normalized := Some [];
     salary := Missing;
     source := Missing;
     fingerprint := "d41d8cd9" |}.


(** The score as the specification words it: the four text fields and,
    with weight 0.05, the salary, each counted when both records hold
    it. *)
Definition specified_similarity (config : Config) (job1 job2 : Row) : Q :=
  let acc := (0%Q, 0%Q) in
  let acc := add_field (weight_title config)
               (title_clean job1) (title_clean job2) acc in
  let acc := add_field (weight_company config)
               (company_normalized job1) (company_normalized job2) acc in
  let acc := add_field (weight_location config)
               (location_clean job1) (location_clean job2) acc in
  let acc := add_field (weight_description config)
               (description_clean job1) (description_clean job2) acc in
  let acc := add_field (weight_salary config)
               (cell (salary job1)) (cell (salary job2)) acc in
  weighted acc.

(** The row [job] with another salary cell. *)
Definition with_salary (job : Row) (s : field str) : Row :=
  {| job_id := job_id job;
     title_clean := title_clean job;
     title_normalized := title_normalized job;
     company_clean := company_clean job;
     company_normalized := company_normalized job;
     location_clean := location_clean job;
     location_normalized := location_normalized job;
     description_clean := description_clean job;
     description_normalized := description_normalized job;
     salary := s;
     source := source job;
     fingerprint := fingerprint job |}.

Definition salaried (i : string) (s : string) : Row :=
  {| job_id := i;
     title_clean := Some (txt "developer");
     title_normalized := Some (txt "developer");
     company_clean := Some (txt "techcorp");
     company_normalized := Some (txt "techcorp");
     location_clean := Some (txt "ktm");
     location_normalized := Some (txt "ktm");
     description_clean := Some (txt "build web apps");
     description_normalized := Some (txt "build web apps");
     salary := Val (txt s);
     source := Val "merojob"%string;
     fingerprint := "developer|techcorp|ktm" |}.

Definition tide : Row := sample_row "1" "tide" "techcorp" "merojob".
Definition diet : Row := sample_row "2" "diet" "techcorp" "jobaxle".

Definition engineer : Row :=
  sample_row "1" "software engineer" "tech" "merojob".
Definition developer : Row :=
  sample_row "2" "software developer" "tech corp" "jobaxle".

(** The row [job] with another location. *)
Definition located (job : Row) (place : string) : Row :=
  {| job_id := job_id job;
     title_clean := title_clean job;
     title_normalized := title_normalized job;
     company_clean := company_clean job;
     company_normalized := company_normalized job;
     location_clean := Some (txt place);
     location_normalized := Some (txt place);
     description_clean := description_clean job;
     description_normalized := description_normalized job;
     salary := salary job;
     source := source job;
     fingerprint := fingerprint job |}.

Definition engineer_tide : Row := located engineer "tide".
Definition developer_diet : Row := located developer "diet".

(** Every match of the four strategies, in the order the consolidator
    reads them. *)
Definition all_matches (results : Results) : list DuplicateMatch :=
  concat (methods results).

Definition sample_jobs : list Job :=
  [ {| raw_id := "1"; raw_title := Val (txt "Developer");
       raw_company := Val (txt "TechCorp"); raw_location := Val (txt "KTM");
       raw_description := Missing; raw_salary := Missing;
       raw_source := Val "merojob"%string |};
    {| raw_id := "2"; raw_title := Val (txt "Developer");
       raw_company := Val (txt "TechCorp"); raw_location := Val (txt "KTM");
       raw_description := Missing; raw_salary := Missing;
       raw_source := Val "jobaxle"%string |} ].

Definition sample_duplicates : list DuplicateMatch :=
  [ {| job1_id := "1"; job2_id := "2"; similarity_score := 1.0;
       match_type := "exact"; reasons := ["identical_fingerprint"%string];
       confidence := 1.0 |} ].

(** The ids of the rows of a frame. *)
Definition row_ids (df : DataFrame) : list string := map job_id (rows df).

(** Both ids of the match are ids of rows of the frame. *)
Definition ids_known (df : DataFrame) (m : DuplicateMatch) : Prop :=
  In (job1_id m) (row_ids df) /\ In (job2_id m) (row_ids df).

(** The matches of the four strategies on a frame. *)
Definition strategy_results
    (tfidf_cosine : list str -> option (list (list Q)))
    (config : Config) (df : DataFrame) : Results :=
  {| exact_duplicates := _find_exact_duplicates df;
     fuzzy_duplicates := _find_fuzzy_duplicates config df;
     semantic_duplicates := _find_semantic_duplicates tfidf_cosine config df;
     cross_source_duplicates := _find_cross_source_duplicates config df |}.

(** A stand-in for the digest: the text itself. *)
Definition sample_md5 (s : str) : string := string_of_list_ascii s.

(** Records without a company. *)
Definition titles_only : list Job :=
  [ {| raw_id := "1"; raw_title := Val (txt "Developer");
       raw_company := Missing; raw_location := Val (txt "KTM");
       raw_description := Missing; raw_salary := Missing;
       raw_source := Val "merojob"%string |} ].

(** Matching a text against itself: the characters of [s] that are not
    popular, and the length [run s i] of the run of such characters that
    ends at position [i]. *)
Definition live (s : str) (c : ascii) : bool := negb (is_popular s c).

Fixpoint run (s : str) (i : nat) : nat :=
  match i with
  | 0 => if live s (item s 0) then 1 else 0
  | S i' => if live s (item s (S i')) then run s i' + 1 else 0
  end.

Definition run_prev (s : str) (i : nat) : nat :=
  match i with
  | 0 => 0
  | S i' => run s i'
  end.

(** The list is strictly ascending and starts at [lo] or above. *)
Fixpoint asc (lo : nat) (l : list nat) : Prop :=
  match l with
  | [] => True
  | j :: r => lo <= j /\ asc (S j) r
  end.

(** The state of the inner loop of [find_longest_match] on row [i] of a
    text matched against itself, [js] being the columns still to read. *)
Definition row_state (s : str) (i : nat) (js : list nat) (newj2len : dict)
    (best : Match) : Prop :=
  (forall j l, In (j, l) newj2len -> l <= run s j /\ l <= run s i)
  /\ m_a best = m_b best
  /\ (forall j, j < i -> run s j <= m_size best)
  /\ (~ In i js -> run s i <= m_size best /\ dict_get newj2len i = run s i).

(** The match the exact strategy builds for two rows. *)
Definition exact_match_of (job1 job2 : Row) : DuplicateMatch :=
  {| job1_id := job_id job1;
     job2_id := job_id job2;
     similarity_score := 1.0;
     match_type := "exact";
     reasons := ["identical_fingerprint"%string];
     confidence := 1.0 |}.

(** The rows [job1] and [job2] stand at positions [i < j] of the frame. *)
Definition in_order (df : DataFrame) (job1 job2 : Row) : Prop :=
  exists i j,
    i < j /\ nth_error (rows df) i = Some job1
    /\ nth_error (rows df) j = Some job2.

(** The match pairs a row of the frame with a row other than its first
    one, in this order. *)
Definition pairs_later_row (df : DataFrame) (m : DuplicateMatch) : Prop :=
  exists job1 job2,
    In job1 (rows df) /\ In job2 (tl (rows df))
    /\ job1_id m = job_id job1 /\ job2_id m = job_id job2
    /\ (NoDup (row_ids df) -> job_id job1 <> job_id job2).

(** The test [dup.confidence >= self.config['min_confidence']]. *)
Definition confident (config : Config) (dup : DuplicateMatch) : bool :=
  Qle_bool (min_confidence config) (confidence dup).

(** The ids of the records. *)
Definition job_ids (jobs_data : list Job) : list string := map raw_id jobs_data.

(** Both records of the match are among [jobs_data]. *)
Definition records_known (jobs_data : list Job) (dup : DuplicateMatch) : Prop :=
  In (job1_id dup) (job_ids jobs_data) /\ In (job2_id dup) (job_ids jobs_data).

(** The id [keep_best_source] discards for two records found. *)
Definition lower_priority (job1 job2 : Job) (dup : DuplicateMatch) : string :=
  if source_priority job1 <=? source_priority job2
  then job2_id dup else job1_id dup.

(** The list comprehension that ends [remove_duplicates]. *)
Definition keep_jobs (jobs_to_remove : list string) (jobs_data : list Job)
  : list Job :=
  filter (fun job => negb (existsb (String.eqb (raw_id job)) jobs_to_remove))
         jobs_data.

(** A match that names a record the list does not hold. *)
Definition stale_match : DuplicateMatch :=
  {| job1_id := "1"; job2_id := "9"; similarity_score := 1.0;
     match_type := "exact"; reasons := ["identical_fingerprint"%string];
     confidence := 1.0 |}.

Definition stale_duplicates : list DuplicateMatch := [stale_match].

(** A match below the default confidence bar. *)
Definition weak_duplicates : list DuplicateMatch :=
  [ {| job1_id := "1"; job2_id := "2"; similarity_score := 0.7;
       match_type := "semantic"; reasons := ["semantic_similarity"%string];
       confidence := (0.7 * 0.8)%Q |} ].

(** The first of the sample records. *)
Definition hd_job (jobs_data : list Job) : Job :=
  hd {| raw_id := ""; raw_title := Missing; raw_company := Missing;
        raw_location := Missing; raw_description := Missing;
        raw_salary := Missing; raw_source := Missing |} jobs_data.

(** The running totals of a scorer on two rows with the same cells: every
    ratio is 1, so the similarity is the weight, which is positive. *)
Definition full_totals (acc : Q * Q) : Prop :=
  (fst acc == snd acc)%Q /\ (0 < snd acc)%Q.

(** The weights of the fuzzy scorer are non-negative. *)
Definition weights_nonneg (config : Config) : Prop :=
  (0 <= weight_title config)%Q /\ (0 <= weight_company config)%Q
  /\ (0 <= weight_location config)%Q /\ (0 <= weight_description config)%Q.

(** The sum of the three buckets of a confidence distribution. *)
Definition buckets (d : nat * nat * nat) : nat :=
  let '(high, medium, low) := d in high + medium + low.

(** The sum of the counts of a match-type distribution. *)
Definition counted (d : list (string * nat)) : nat := list_sum (map snd d).

(** Characters of a cleaned text, by kind. *)
Definition clean_char (c : ascii) : Prop :=
  lower_char c = c
  /\ (c = " "%char \/ c = "-"%char \/ is_word c = true).

(** The reasons that two rows with the same title, company and location
    cells are given. *)
Definition identical_reasons (job : Row) : list string :=
  ["very_similar_titles"%string]
  ++ (match company_normalized job with
      | Some _ => ["same_company"%string]
      | None => []
      end)
  ++ (match location_clean job with
      | Some _ => ["same_location"%string]
      | None => []
      end).

(** A cell that is absent or holds the empty text, and a cell that is
    absent or holds a text that is not empty. *)
Definition blank_cell (x : option str) : Prop := x = None \/ x = Some [].

Definition filled_cell (x : option str) : Prop :=
  forall s, x = Some s -> s <> [].

Definition blank_texts (job : Row) : Prop :=
  blank_cell (title_clean job) /\ blank_cell (company_normalized job)
  /\ blank_cell (location_clean job) /\ blank_cell (description_clean job).

Definition filled_texts (job : Row) : Prop :=
  filled_cell (title_clean job) /\ filled_cell (company_normalized job)
  /\ filled_cell (location_clean job) /\ filled_cell (description_clean job).

(** No strategy has reported anything. *)
Definition no_matches : Results :=
  {| exact_duplicates := []; fuzzy_duplicates := [];
     semantic_duplicates := []; cross_source_duplicates := [] |}.

(** * Lemmas *)

(** ** Facts about the string primitives *)

Module PyStrFacts.

#[local] Arguments last_opt : simpl never.
#[local] Arguments match_here : simpl never.

Ltac each_char c := destruct c as [[] [] [] [] [] [] [] []]; vm_compute; congruence.

Lemma space_not_word c : is_space c = true -> is_word c = false.
Proof. each_char c. Qed.

Lemma lower_char_idem c : lower_char (lower_char c) = lower_char c.
Proof. each_char c. Qed.

Lemma lower_char_space c : is_space (lower_char c) = is_space c.
Proof. each_char c. Qed.

Lemma is_empty_true (s : str) : is_empty s = true -> s = [].
Proof. destruct s; simpl; congruence. Qed.

Lemma str_eqb_eq a b : str_eqb a b = true <-> a = b.
Proof.
  unfold str_eqb. destruct (list_eq_dec ascii_dec a b); split; congruence.
Qed.

(** *** Prefixes *)

Lemma starts_with_app p s : starts_with p s = true -> s = p ++ skipn (length p) s.
Proof.
  revert s. induction p as [|a p IH]; intros [|b s]; simpl; try congruence.
  rewrite andb_true_iff, Ascii.eqb_eq. intros [-> H]. f_equal. auto.
Qed.

Lemma starts_with_firstn p s : starts_with p s = true -> firstn (length p) s = p.
Proof.
  revert s. induction p as [|a p IH]; intros [|b s]; simpl; try congruence.
  rewrite andb_true_iff, Ascii.eqb_eq. intros [-> H]. f_equal. auto.
Qed.

Lemma starts_with_self p r : starts_with p (p ++ r) = true.
Proof.
  induction p as [|a p IH]; simpl; auto. now rewrite Ascii.eqb_refl.
Qed.

Lemma last_opt_cons prev c l : last_opt prev (c :: l) = last_opt (Some c) l.
Proof. reflexivity. Qed.

Lemma last_opt_nonempty prev prev' c l :
  last_opt prev (c :: l) = last_opt prev' (c :: l).
Proof. reflexivity. Qed.

(** *** Tight patterns *)

Lemma suffixes_tight : forallb tight suffixes = true.
Proof. vm_compute. reflexivity. Qed.

Lemma match_here_tight p prev s :
  tight p = true ->
  match_here p prev s =
    starts_with p s && negb (is_word_opt prev)
    && negb (is_word_opt (hd_error (skipn (length p) s))).
Proof.
  intros T. unfold match_here.
  destruct (starts_with p s) eqn:E; simpl; auto.
  rewrite (starts_with_firstn _ _ E).
  destruct p as [|x u]; [discriminate|].
  simpl in T. rewrite !andb_true_iff in T. destruct T as [[Hx _] Hl].
  change (last_opt prev (x :: u)) with (last_opt None (x :: u)).
  unfold boundary. rewrite Hl.
  destruct s as [|c r]; [discriminate|].
  simpl in E. rewrite andb_true_iff, Ascii.eqb_eq in E. destruct E as [<- _].
  simpl hd_error. simpl (is_word_opt (Some x)). rewrite Hx.
  now destruct (is_word_opt prev), (is_word_opt (hd_error (skipn (length u) r))).
Qed.

Lemma match_here_word_context p prev prev' s :
  is_word_opt prev = is_word_opt prev' ->
  tight p = true -> match_here p prev s = match_here p prev' s.
Proof. intros E T. rewrite !match_here_tight by assumption. now rewrite E. Qed.

Lemma occurs_go_word_context p prev prev' s :
  is_word_opt prev = is_word_opt prev' ->
  tight p = true -> occurs_go p prev s = occurs_go p prev' s.
Proof.
  intros E T. destruct s as [|c r]; simpl; auto.
  now rewrite (match_here_word_context _ _ _ _ E T).
Qed.

(** *** The scanner *)

Lemma re_sub_go_skip p k : forall s prev,
  re_sub_go p prev k s = re_sub_go p (last_opt prev (firstn k s)) 0 (skipn k s).
Proof.
  induction k as [|k IH]; intros s prev.
  - reflexivity.
  - destruct s as [|c r]; [reflexivity|].
    simpl firstn. simpl skipn. rewrite last_opt_cons. rewrite <- IH. reflexivity.
Qed.

Lemma re_sub_go_match p prev s :
  p <> [] -> match_here p prev s = true ->
  re_sub_go p prev 0 s =
  re_sub_go p (last_opt prev (firstn (length p) s)) 0 (skipn (length p) s).
Proof.
  intros Hp M. destruct s as [|c r].
  - now rewrite skipn_nil.
  - simpl re_sub_go. rewrite M. rewrite re_sub_go_skip.
    destruct p as [|x u]; [congruence|].
    cbn [length]. rewrite Nat.sub_succ, Nat.sub_0_r. reflexivity.
Qed.

Lemma re_sub_go_nomatch p prev c r :
  match_here p prev (c :: r) = false ->
  re_sub_go p prev 0 (c :: r) = c :: re_sub_go p (Some c) 0 r.
Proof. intros M. simpl. now rewrite M. Qed.

(** A text without a whole-word occurrence of [p] is left as it is. *)
Lemma re_sub_go_absent p : forall s prev,
  occurs_go p prev s = false -> re_sub_go p prev 0 s = s.
Proof.
  induction s as [|c r IH]; intros prev H; [reflexivity|].
  simpl in H. apply orb_false_iff in H. destruct H as [H1 H2].
  rewrite re_sub_go_nomatch by assumption. f_equal. auto.
Qed.

(** Consequences of a match of a tight pattern. *)
Lemma match_here_tight_inv q prev s :
  tight q = true -> match_here q prev s = true ->
  is_word_opt prev = false
  /\ is_word_opt (hd_error s) = true
  /\ is_word_opt (last_opt prev (firstn (length q) s)) = true
  /\ is_word_opt (hd_error (skipn (length q) s)) = false
  /\ s = q ++ skipn (length q) s
  /\ firstn (length q) s = q.
Proof.
  intros T M. pose proof M as M'. rewrite match_here_tight in M' by assumption.
  rewrite !andb_true_iff, !negb_true_iff in M'. destruct M' as [[E P] N].
  rewrite (starts_with_firstn _ _ E).
  destruct q as [|x u]; [discriminate|].
  simpl in T. rewrite !andb_true_iff in T. destruct T as [[Hx _] Hl].
  repeat split; auto using starts_with_app, starts_with_firstn.
  destruct s as [|c r]; [discriminate|]. simpl in E.
  rewrite andb_true_iff, Ascii.eqb_eq in E. destruct E as [<- _]. exact Hx.
Qed.

Lemma hd_after_word q x r :
  tight q = true -> is_word x = true ->
  hd_error (re_sub_go q (Some x) 0 r) = hd_error r.
Proof.
  intros T Hx. destruct r as [|c r]; [reflexivity|].
  destruct (match_here q (Some x) (c :: r)) eqn:M.
  - apply (match_here_tight_inv _ _ _ T) in M. simpl in M.
    destruct M as [M _]. congruence.
  - now rewrite re_sub_go_nomatch.
Qed.

(** A tight text read at the head of the scanner's output was read at the
    head of its input, and is followed by the same kind of character. *)
Lemma prefix_through_sub q : tight q = true ->
  forall u x r,
  tight_from x u = true ->
  starts_with u (re_sub_go q (Some x) 0 r) = true ->
  starts_with u r = true
  /\ (is_word_opt (last_opt (Some x) u) = true ->
      is_word_opt (hd_error (skipn (length u) (re_sub_go q (Some x) 0 r)))
      = is_word_opt (hd_error (skipn (length u) r))).
Proof.
  intros T. induction u as [|y u IH]; intros x r TF S.
  - split; [reflexivity|]. simpl. intros Hx. now rewrite hd_after_word.
  - simpl in TF. apply andb_true_iff in TF. destruct TF as [Hxy TF].
    destruct r as [|c r]; [simpl in S; discriminate|].
    destruct (match_here q (Some x) (c :: r)) eqn:M.
    + exfalso.
      assert (Hq : q <> []) by (destruct q; [discriminate|congruence]).
      rewrite (re_sub_go_match _ _ _ Hq M) in S.
      destruct (match_here_tight_inv _ _ _ T M) as (Hp & _ & Hl & Hn & _).
      simpl in Hp. rewrite Hp in Hxy. simpl in Hxy.
      remember (last_opt (Some x) (firstn (length q) (c :: r))) as lq.
      destruct lq as [z|]; [|discriminate]. simpl in Hl.
      pose proof (hd_after_word q z (skipn (length q) (c :: r)) T Hl) as Hh.
      destruct (re_sub_go q (Some z) 0 (skipn (length q) (c :: r))) as [|d o];
        [discriminate|].
      simpl in S. rewrite andb_true_iff, Ascii.eqb_eq in S. destruct S as [<- _].
      simpl in Hh. rewrite <- Hh in Hn. simpl in Hn. congruence.
    + rewrite re_sub_go_nomatch in S by assumption. simpl in S.
      rewrite andb_true_iff, Ascii.eqb_eq in S. destruct S as [<- S].
      destruct (IH y r TF S) as [S1 S2]. split.
      * simpl. now rewrite Ascii.eqb_refl.
      * intros Hl. rewrite re_sub_go_nomatch by assumption. simpl. auto.
Qed.

Lemma ctx_ok_after_match q pi po s :
  tight q = true -> ctx_ok pi po s -> match_here q pi s = true ->
  ctx_ok (last_opt pi (firstn (length q) s)) po (skipn (length q) s).
Proof.
  intros T C M. destruct (match_here_tight_inv _ _ _ T M) as (Hp & Hh & Hl & Hn & _).
  right. repeat split; auto.
  destruct C as [<-|(Hw & _)]; congruence.
Qed.

Lemma match_transfer p q pi po c r :
  tight p = true -> tight q = true -> ctx_ok pi po (c :: r) ->
  match_here p po (c :: re_sub_go q (Some c) 0 r) = true ->
  match_here p pi (c :: r) = true.
Proof.
  intros Tp Tq C M.
  rewrite match_here_tight in * by assumption.
  rewrite !andb_true_iff, !negb_true_iff in *. destruct M as [[S P] N].
  destruct p as [|x u]; [discriminate|].
  pose proof Tp as Tp'. simpl in Tp'. rewrite !andb_true_iff in Tp'.
  destruct Tp' as [[Hx TF] Hl].
  simpl in S. rewrite andb_true_iff, Ascii.eqb_eq in S. destruct S as [-> S].
  destruct (prefix_through_sub q Tq u c r TF S) as [S1 S2].
  repeat split.
  - simpl. now rewrite Ascii.eqb_refl.
  - destruct C as [->|(_ & _ & Hc)]; [assumption|]. simpl in Hc. congruence.
  - simpl length in *. simpl skipn in *. rewrite <- S2; auto.
Qed.

Lemma occurs_go_skip p t : forall q pi,
  occurs_go p (last_opt pi q) t = true -> occurs_go p pi (q ++ t) = true.
Proof.
  induction q as [|a q IH]; intros pi O; [exact O|].
  simpl. apply orb_true_iff. right. apply IH. exact O.
Qed.

(** Removing the whole-word occurrences of [q] creates no occurrence of
    [p]. *)
Lemma occurs_go_through_sub p q : tight p = true -> tight q = true ->
  forall n s pi po, length s <= n -> ctx_ok pi po s ->
  occurs_go p po (re_sub_go q pi 0 s) = true -> occurs_go p pi s = true.
Proof.
  intros Tp Tq. induction n as [|n IH]; intros s pi po L C O.
  - destruct s; [simpl in O; discriminate | simpl in L; lia].
  - destruct s as [|c r]; [simpl in O; discriminate|].
    destruct (match_here q pi (c :: r)) eqn:M.
    + assert (Hq : q <> []) by (destruct q; [discriminate|congruence]).
      rewrite (re_sub_go_match _ _ _ Hq M) in O.
      pose proof (ctx_ok_after_match _ _ _ _ Tq C M) as C'.
      destruct (match_here_tight_inv _ _ _ Tq M) as (_ & _ & _ & _ & E & F).
      apply IH in O; auto.
      * rewrite F in O. apply occurs_go_skip in O. now rewrite <- E in O.
      * destruct q as [|a q]; [congruence|]. simpl in L |- *.
        rewrite length_skipn. lia.
    + rewrite re_sub_go_nomatch in O by assumption.
      simpl in O. apply orb_true_iff in O. simpl. apply orb_true_iff.
      destruct O as [O|O].
      * left. eapply match_transfer; eauto.
      * right. apply IH in O; auto; [simpl in L; lia | now left].
Qed.

(** After the scanner has removed [p], no whole-word occurrence of [p]
    is left. *)
Lemma occurs_go_after_sub p : tight p = true ->
  forall n s pi po, length s <= n -> ctx_ok pi po s ->
  occurs_go p po (re_sub_go p pi 0 s) = false.
Proof.
  intros Tp. induction n as [|n IH]; intros s pi po L C.
  - destruct s; [reflexivity | simpl in L; lia].
  - destruct s as [|c r]; [reflexivity|].
    destruct (match_here p pi (c :: r)) eqn:M.
    + assert (Hp : p <> []) by (destruct p; [discriminate|congruence]).
      rewrite (re_sub_go_match _ _ _ Hp M).
      apply IH; [|now apply ctx_ok_after_match].
      destruct p as [|a p]; [congruence|]. simpl in L |- *.
      rewrite length_skipn. lia.
    + rewrite re_sub_go_nomatch by assumption. simpl.
      apply orb_false_iff. split.
      * destruct (match_here p po (c :: re_sub_go p (Some c) 0 r)) eqn:M'; auto.
        apply (match_transfer p p pi) in M'; auto. congruence.
      * apply IH; [simpl in L; lia | now left].
Qed.

(** *** Stripping *)

Lemma rstrip_prefix : forall u r,
  starts_with u (rstrip r) = true ->
  starts_with u r = true
  /\ is_word_opt (hd_error (skipn (length u) (rstrip r)))
     = is_word_opt (hd_error (skipn (length u) r)).
Proof.
  induction u as [|y u IH]; intros r S.
  - split; [reflexivity|]. destruct r as [|c r]; [reflexivity|]. simpl.
    destruct (is_space c) eqn:Hc; simpl; [|reflexivity].
    destruct (is_empty (rstrip r)); simpl; [|reflexivity].
    now rewrite space_not_word.
  - destruct r as [|c r]; [simpl in S; discriminate|]. simpl in S.
    destruct (is_space c && is_empty (rstrip r)) eqn:Hc.
    + discriminate.
    + simpl in S. rewrite andb_true_iff in S. destruct S as [E S].
      destruct (IH r S) as [S1 S2]. split.
      * simpl. now rewrite E.
      * simpl. rewrite Hc. simpl. exact S2.
Qed.

Lemma occurs_go_rstrip p : tight p = true ->
  forall s prev, occurs_go p prev (rstrip s) = true -> occurs_go p prev s = true.
Proof.
  intros T. induction s as [|c r IH]; intros prev O; [exact O|].
  simpl in O. destruct (is_space c && is_empty (rstrip r)); [discriminate|].
  simpl in O |- *. apply orb_true_iff in O. apply orb_true_iff.
  destruct O as [M|O]; [left | right; auto].
  rewrite match_here_tight in * by assumption.
  destruct p as [|x u]; [discriminate|].
  simpl in M |- *. rewrite !andb_true_iff in *. destruct M as [[[E S] P] N].
  destruct (rstrip_prefix u r S) as [S1 S2]. rewrite <- S2. auto.
Qed.

Lemma occurs_go_lstrip p : tight p = true ->
  forall s prev, is_word_opt prev = false ->
  occurs_go p None (lstrip s) = true -> occurs_go p prev s = true.
Proof.
  intros T. induction s as [|c r IH]; intros prev W O; [exact O|].
  simpl in O. destruct (is_space c) eqn:Hc.
  - simpl. apply orb_true_iff. right. apply IH; auto.
    simpl. now apply space_not_word.
  - rewrite (occurs_go_word_context p prev None); auto.
Qed.

Lemma occurs_strip p s :
  tight p = true -> occurs p s = false -> occurs p (strip s) = false.
Proof.
  intros T H. unfold occurs, strip in *.
  destruct (occurs_go p None (rstrip (lstrip s))) eqn:O; auto.
  apply occurs_go_rstrip in O; auto.
  apply (occurs_go_lstrip p T s None) in O; auto. congruence.
Qed.

Lemma lstrip_starts_clean s : starts_clean (lstrip s).
Proof.
  induction s as [|c r IH]; simpl; auto.
  destruct (is_space c) eqn:Hc; simpl; auto.
Qed.

Lemma rstrip_starts_clean s : starts_clean s -> starts_clean (rstrip s).
Proof.
  destruct s as [|c r]; simpl; auto. intros Hc. rewrite Hc. simpl. exact Hc.
Qed.

Lemma lstrip_fix t : starts_clean t -> lstrip t = t.
Proof. destruct t as [|c r]; simpl; auto. now intros ->. Qed.

Lemma rstrip_idem : forall t, rstrip (rstrip t) = rstrip t.
Proof.
  induction t as [|c r IH]; [reflexivity|]. simpl.
  destruct (is_space c && is_empty (rstrip r)) eqn:Hc; [reflexivity|].
  simpl. rewrite IH, Hc. reflexivity.
Qed.

Lemma strip_idem s : strip (strip s) = strip s.
Proof.
  unfold strip. rewrite (lstrip_fix (rstrip (lstrip s))).
  - apply rstrip_idem.
  - apply rstrip_starts_clean, lstrip_starts_clean.
Qed.

(** *** Characters are only ever dropped *)

Lemma re_sub_go_Forall (P : ascii -> Prop) p : forall s prev k,
  Forall P s -> Forall P (re_sub_go p prev k s).
Proof.
  induction s as [|c r IH]; intros prev k F; [constructor|].
  inversion F; subst. simpl. destruct k; auto.
  destruct (match_here p prev (c :: r)); auto.
Qed.

Lemma lstrip_Forall (P : ascii -> Prop) : forall s, Forall P s -> Forall P (lstrip s).
Proof.
  induction s as [|c r IH]; intros F; [constructor|].
  simpl. destruct (is_space c); auto. inversion F; auto.
Qed.

Lemma rstrip_Forall (P : ascii -> Prop) : forall s, Forall P s -> Forall P (rstrip s).
Proof.
  induction s as [|c r IH]; intros F; [constructor|].
  inversion F; subst. simpl.
  destruct (is_space c && is_empty (rstrip r)); auto.
Qed.

Lemma strip_Forall (P : ascii -> Prop) s : Forall P s -> Forall P (strip s).
Proof. intros F. now apply rstrip_Forall, lstrip_Forall. Qed.

Lemma lower_fixed s : Forall (fun c => lower_char c = c) s -> lower s = s.
Proof.
  induction 1 as [|c r Hc _ IH]; [reflexivity|]. simpl. now rewrite Hc, IH.
Qed.

Lemma lower_Forall_fixed s : Forall (fun c => lower_char c = c) (lower s).
Proof.
  induction s as [|c r IH]; constructor; auto. apply lower_char_idem.
Qed.

(** *** Removing a list of patterns in turn *)

Lemma occurs_after_sub p s : tight p = true -> occurs p (re_sub_word p s) = false.
Proof.
  intros T. apply (occurs_go_after_sub p T (length s)); [lia | now left].
Qed.

Lemma occurs_through_sub p q s :
  tight p = true -> tight q = true ->
  occurs p s = false -> occurs p (re_sub_word q s) = false.
Proof.
  intros Tp Tq H. destruct (occurs p (re_sub_word q s)) eqn:O; auto.
  apply (occurs_go_through_sub p q Tp Tq (length s)) in O;
    [unfold occurs in H; congruence | lia | now left].
Qed.

Lemma occurs_through_sub_all p : tight p = true ->
  forall l s, forallb tight l = true ->
  occurs p s = false -> occurs p (sub_all l s) = false.
Proof.
  intros Tp. induction l as [|q l IH]; intros s Tl H; [exact H|].
  simpl in Tl. apply andb_true_iff in Tl. destruct Tl as [Tq Tl].
  simpl. apply IH; auto. now apply occurs_through_sub.
Qed.

Lemma occurs_after_sub_all : forall l s p,
  forallb tight l = true -> In p l -> occurs p (sub_all l s) = false.
Proof.
  induction l as [|q l IH]; intros s p Tl I; [contradiction|].
  simpl in Tl. apply andb_true_iff in Tl. destruct Tl as [Tq Tl].
  simpl. destruct I as [->|I].
  - apply occurs_through_sub_all; auto. now apply occurs_after_sub.
  - now apply IH.
Qed.

Lemma sub_all_absent : forall l s,
  (forall p, In p l -> occurs p s = false) -> sub_all l s = s.
Proof.
  induction l as [|q l IH]; intros s H; [reflexivity|]. simpl.
  assert (E : re_sub_word q s = s).
  { apply re_sub_go_absent. apply H. now left. }
  rewrite E. apply IH. intros p I. apply H. now right.
Qed.

(** *** Splitting and joining *)

Lemma push_word_Forall (P : str -> Prop) w ws :
  (w <> [] -> P w) -> Forall P ws -> Forall P (push_word w ws).
Proof.
  unfold push_word. destruct w; simpl; auto. intros H F. constructor; auto.
  apply H. discriminate.
Qed.

Lemma split_aux_words (P : ascii -> Prop) : forall s, Forall P s ->
  Forall (fun c => nonspace c /\ P c) (fst (split_aux s))
  /\ Forall (fun w => wordy w /\ Forall P w) (snd (split_aux s)).
Proof.
  induction s as [|c r IH]; intros F; [split; constructor|].
  inversion F; subst. simpl. destruct (IH H2) as [Hw Hws].
  destruct (split_aux r) as [w ws]. simpl in *.
  destruct (is_space c) eqn:Hc; simpl; split; auto.
  apply push_word_Forall; auto. intros Hne. repeat split; auto.
  - eapply Forall_impl; [|exact Hw]. now intros a [Ha _].
  - eapply Forall_impl; [|exact Hw]. now intros a [_ Ha].
Qed.

Lemma split_words (P : ascii -> Prop) s : Forall P s ->
  Forall (fun w => wordy w /\ Forall P w) (split s).
Proof.
  intros F. unfold split. destruct (split_aux_words P s F) as [Hw Hws].
  destruct (split_aux s) as [w ws]. simpl in *.
  apply push_word_Forall; auto. intros Hne. repeat split; auto.
  - eapply Forall_impl; [|exact Hw]. now intros a [Ha _].
  - eapply Forall_impl; [|exact Hw]. now intros a [_ Ha].
Qed.

Lemma split_aux_word : forall w t, Forall nonspace w ->
  split_aux (w ++ t) = (w ++ fst (split_aux t), snd (split_aux t)).
Proof.
  induction w as [|c w IH]; intros t F.
  - simpl. now destruct (split_aux t).
  - inversion F; subst. simpl. rewrite IH by assumption. now rewrite H1.
Qed.

Lemma split_word_sep w t : wordy w ->
  split (w ++ " "%char :: t) = w :: split t.
Proof.
  intros [Hne F]. unfold split. rewrite split_aux_word by assumption.
  simpl. destruct (split_aux t) as [w' ws']. simpl. rewrite app_nil_r.
  unfold push_word at 1. destruct w; [congruence|reflexivity].
Qed.

Lemma split_word w : wordy w -> split w = [w].
Proof.
  intros [Hne F]. unfold split. rewrite <- (app_nil_r w) at 1.
  rewrite split_aux_word by assumption. simpl. rewrite app_nil_r.
  unfold push_word. destruct w; [congruence|reflexivity].
Qed.

Lemma split_join : forall ws, Forall wordy ws -> split (join (txt " ") ws) = ws.
Proof.
  induction ws as [|w ws IH]; intros F; [reflexivity|].
  inversion F; subst. destruct ws as [|w2 ws].
  - simpl. now apply split_word.
  - change (join (txt " ") (w :: w2 :: ws))
      with (w ++ " "%char :: join (txt " ") (w2 :: ws)).
    rewrite split_word_sep by assumption. f_equal. auto.
Qed.

Lemma filter_idem {A} (f : A -> bool) l : filter f (filter f l) = filter f l.
Proof.
  induction l as [|a l IH]; [reflexivity|]. simpl.
  destruct (f a) eqn:E; simpl; rewrite ?E, IH; reflexivity.
Qed.

(** *** A space-separated line of words is already clean *)

Lemma collapse_word : forall w b r, w <> [] -> Forall nonspace w ->
  collapse_ws_go b (w ++ r) = w ++ collapse_ws_go false r.
Proof.
  induction w as [|c w IH]; intros b r Hne F; [congruence|].
  inversion F; subst. simpl. rewrite H1. f_equal.
  destruct w as [|d w]; [reflexivity|]. apply IH; [discriminate|assumption].
Qed.

Lemma collapse_join : forall ws b, Forall wordy ws ->
  collapse_ws_go b (join (txt " ") ws) = join (txt " ") ws.
Proof.
  induction ws as [|w ws IH]; intros b F; [reflexivity|].
  inversion F as [|? ? [Hne Hw] F']; subst. destruct ws as [|w2 ws].
  - simpl. rewrite <- (app_nil_r w) at 1. rewrite collapse_word by assumption.
    simpl. now rewrite app_nil_r.
  - change (join (txt " ") (w :: w2 :: ws))
      with (w ++ " "%char :: join (txt " ") (w2 :: ws)).
    rewrite collapse_word by assumption. f_equal.
    change (collapse_ws_go false (" "%char :: join (txt " ") (w2 :: ws)))
      with (" "%char :: collapse_ws_go true (join (txt " ") (w2 :: ws))).
    f_equal. auto.
Qed.

Lemma join_nonempty w ws : wordy w -> join (txt " ") (w :: ws) <> [].
Proof.
  intros [Hne _]. destruct ws; simpl; destruct w; simpl; congruence.
Qed.

Lemma join_starts_clean ws : Forall wordy ws -> starts_clean (join (txt " ") ws).
Proof.
  destruct 1 as [|w ws [Hne F] _]; simpl; auto.
  destruct w as [|c w]; [congruence|]. inversion F; subst.
  destruct ws; simpl; assumption.
Qed.

Lemma rstrip_word w : Forall nonspace w -> rstrip w = w.
Proof.
  induction 1 as [|c w Hc _ IH]; [reflexivity|]. simpl. now rewrite Hc, IH.
Qed.

Lemma rstrip_app : forall l r, r <> [] -> rstrip r = r -> rstrip (l ++ r) = l ++ r.
Proof.
  induction l as [|c l IH]; intros r Hne E; [exact E|].
  simpl. rewrite IH by assumption.
  destruct (l ++ r) eqn:El.
  - destruct l; [simpl in El; congruence | discriminate].
  - simpl. now rewrite andb_false_r.
Qed.

Lemma rstrip_join : forall ws, Forall wordy ws ->
  rstrip (join (txt " ") ws) = join (txt " ") ws.
Proof.
  induction ws as [|w ws IH]; intros F; [reflexivity|].
  inversion F as [|? ? [Hne Hw] F']; subst. destruct ws as [|w2 ws].
  - simpl. now apply rstrip_word.
  - change (join (txt " ") (w :: w2 :: ws))
      with (w ++ " "%char :: join (txt " ") (w2 :: ws)).
    apply rstrip_app; [discriminate|].
    pose proof (IH F') as E.
    inversion F' as [|? ? Hw2 _]; subst.
    pose proof (join_nonempty w2 ws Hw2) as Hj.
    remember (join (txt " ") (w2 :: ws)) as j.
    simpl. rewrite E. destruct j; [congruence|]. reflexivity.
Qed.

Lemma join_Forall (P : ascii -> Prop) : forall ws,
  P " "%char -> Forall (Forall P) ws -> Forall P (join (txt " ") ws).
Proof.
  induction ws as [|w ws IH]; intros Hs F; [constructor|].
  inversion F; subst. destruct ws as [|w2 ws]; [assumption|].
  change (join (txt " ") (w :: w2 :: ws))
    with (w ++ " "%char :: join (txt " ") (w2 :: ws)).
  apply Forall_app. split; auto.
Qed.

End PyStrFacts.

(** ** Facts about the matcher *)

Module DifflibFacts.
Import Difflib.

Lemma dict_get_cases d j : dict_get d j = 0 \/ In (j, dict_get d j) d.
Proof.
  induction d as [|[j' l] d IH]; simpl; auto.
  destruct (Nat.eqb_spec j' j) as [->|N]; [right; now left|].
  destruct IH; auto.
Qed.

Lemma get_prev_bound blo bhi bound d j :
  dict_ok blo bhi bound d -> blo <= j ->
  get_prev d j <= bound /\ get_prev d j <= j - blo.
Proof.
  intros D Hj. destruct j as [|j']; cbn [get_prev]; [lia|].
  destruct (dict_get_cases d j') as [->|I]; [lia|].
  apply D in I. lia.
Qed.

Section Ranges.
Variables (a b : str) (alo ahi blo bhi : nat).

Lemma scan_row_ok i d : alo <= i -> i < ahi -> dict_ok blo bhi (i - alo) d ->
  forall js newd best,
  dict_ok blo bhi (i + 1 - alo) newd -> in_range alo ahi blo bhi best ->
  dict_ok blo bhi (i + 1 - alo) (fst (scan_row blo bhi i d js newd best))
  /\ in_range alo ahi blo bhi (snd (scan_row blo bhi i d js newd best)).
Proof.
  intros Hi Hi' D. induction js as [|j js IH]; intros newd best N B; simpl; auto.
  destruct (Nat.ltb_spec j blo); auto.
  destruct (Nat.leb_spec bhi j); auto.
  destruct (get_prev_bound blo bhi (i - alo) d j D) as [G1 G2]; [lia|].
  apply IH.
  - intros j0 l0 [E|I]; [|now apply N]. inversion E; subst. lia.
  - destruct (Nat.ltb_spec (m_size best) (get_prev d j + 1)); auto.
    unfold in_range. simpl. lia.
Qed.

Lemma scan_rows_ok : forall n i d best,
  i + n <= ahi -> alo <= i -> dict_ok blo bhi (i - alo) d ->
  in_range alo ahi blo bhi best ->
  in_range alo ahi blo bhi (scan_rows a b blo bhi (seq i n) d best).
Proof.
  induction n as [|n IH]; intros i d best H1 H2 D B; simpl; auto.
  destruct (scan_row_ok i d H2 ltac:(lia) D (b2j b (item a i)) [] best) as [D' B'];
    auto.
  { intros j l []. }
  destruct (scan_row blo bhi i d (b2j b (item a i)) [] best) as [nd bst].
  simpl in *. apply IH; auto; try lia.
  replace (S i - alo) with (i + 1 - alo) by lia. exact D'.
Qed.

Lemma extend_left_ok junk : forall besti bestj bestsize,
  in_range alo ahi blo bhi (mkMatch besti bestj bestsize) ->
  in_range alo ahi blo bhi (extend_left junk a b alo blo besti bestj bestsize).
Proof.
  induction besti as [|i' IH]; intros bestj bestsize R; simpl; auto.
  match goal with |- context [if ?c then _ else _] => destruct c eqn:C end; auto.
  rewrite !andb_true_iff in C. destruct C as [[[C1 C2] _] _].
  apply Nat.ltb_lt in C1, C2. apply IH. unfold in_range in *. simpl in *. lia.
Qed.

Lemma extend_right_ok junk besti bestj : forall gap bestsize,
  besti + bestsize + gap <= ahi ->
  in_range alo ahi blo bhi (mkMatch besti bestj bestsize) ->
  in_range alo ahi blo bhi (extend_right junk a b bhi besti bestj gap bestsize).
Proof.
  induction gap as [|g IH]; intros bestsize G R; simpl; auto.
  match goal with |- context [if ?c then _ else _] => destruct c eqn:C end; auto.
  rewrite !andb_true_iff in C. destruct C as [[C1 _] _].
  apply Nat.ltb_lt in C1. apply IH; [lia|]. unfold in_range in *. simpl in *. lia.
Qed.

Lemma extend_ok junk m :
  in_range alo ahi blo bhi m ->
  in_range alo ahi blo bhi (extend junk a b alo ahi blo bhi m).
Proof.
  intros R. unfold extend.
  assert (L : in_range alo ahi blo bhi
                (extend_left junk a b alo blo (m_a m) (m_b m) (m_size m))).
  { apply extend_left_ok. destruct m. exact R. }
  set (m' := extend_left junk a b alo blo (m_a m) (m_b m) (m_size m)) in *.
  apply extend_right_ok; [|destruct m'; exact L].
  unfold in_range in L. lia.
Qed.

Lemma find_longest_match_range :
  alo <= ahi -> blo <= bhi ->
  in_range alo ahi blo bhi (find_longest_match a b alo ahi blo bhi).
Proof.
  intros Ha Hb. unfold find_longest_match. do 2 apply extend_ok.
  apply scan_rows_ok; try lia.
  - intros j l [].
  - unfold in_range. simpl. lia.
Qed.

End Ranges.

(** *** The queue loop ends within its fuel *)

Lemma total_app l1 l2 : total (l1 ++ l2) = total l1 + total l2.
Proof. unfold total. now rewrite map_app, list_sum_app. Qed.

Lemma weight_cons alo ahi blo bhi q :
  weight ((alo, ahi, blo, bhi) :: q) = 2 * (ahi - alo) + 1 + weight q.
Proof. reflexivity. Qed.

Lemma sum_a_cons alo ahi blo bhi q :
  sum_a ((alo, ahi, blo, bhi) :: q) = ahi - alo + sum_a q.
Proof. reflexivity. Qed.

Lemma sum_b_cons alo ahi blo bhi q :
  sum_b ((alo, ahi, blo, bhi) :: q) = bhi - blo + sum_b q.
Proof. reflexivity. Qed.

Lemma total_snoc l x : total (l ++ [x]) = total l + m_size x.
Proof. rewrite total_app. unfold total. simpl. lia. Qed.

Lemma blocks_loop_total a b : forall fuel queue acc,
  Forall wf_range queue -> weight queue <= fuel ->
  exists res,
    blocks_loop a b fuel queue acc = Some res
    /\ total res <= total acc + sum_a queue
    /\ total res <= total acc + sum_b queue.
Proof.
  induction fuel as [|fuel IH]; intros queue acc W F.
  - destruct queue as [|[[[alo ahi] blo] bhi] queue].
    + exists acc. simpl. repeat split; lia.
    + rewrite weight_cons in F. lia.
  - destruct queue as [|[[[alo ahi] blo] bhi] queue].
    + exists acc. simpl. repeat split; lia.
    + inversion W as [|? ? Hr W']; subst. destruct Hr as [Ha Hb].
      pose proof (find_longest_match_range a b alo ahi blo bhi Ha Hb) as R.
      rewrite weight_cons in F. rewrite sum_a_cons, sum_b_cons.
      cbn [blocks_loop].
      set (x := find_longest_match a b alo ahi blo bhi) in *.
      unfold in_range in R. destruct R as (R1 & R2 & R3 & R4).
      destruct (Nat.eqb_spec (m_size x) 0) as [Z|NZ].
      * destruct (IH queue acc W') as (res & E & S1 & S2); [lia|].
        exists res. repeat split; auto; lia.
      * destruct (Nat.ltb_spec alo (m_a x)), (Nat.ltb_spec blo (m_b x)),
          (Nat.ltb_spec (m_a x + m_size x) ahi),
          (Nat.ltb_spec (m_b x + m_size x) bhi); cbn [andb];
        match goal with
        | |- exists res, blocks_loop a b fuel ?q ?acc' = _ /\ _ =>
            destruct (IH q acc') as (res & E & S1 & S2);
            [ repeat (constructor; [split; lia|]); exact W'
            | rewrite ?weight_cons; lia
            | exists res; rewrite total_snoc in S1, S2;
              rewrite ?sum_a_cons in S1; rewrite ?sum_b_cons in S2;
              repeat split; auto; lia ]
        end.
Qed.

Lemma total_insert x l : total (insert_match x l) = m_size x + total l.
Proof.
  induction l as [|y l IH]; simpl; auto.
  destruct (match_ltb x y); auto.
  change (total (y :: insert_match x l)) with (m_size y + total (insert_match x l)).
  rewrite IH. unfold total. simpl. lia.
Qed.

Lemma total_sort l : total (sort_matches l) = total l.
Proof.
  unfold sort_matches.
  assert (G : forall acc, total (fold_left (fun acc x => insert_match x acc) l acc)
                          = total l + total acc).
  { induction l as [|x l IH]; intros acc; simpl; auto.
    rewrite IH, total_insert. unfold total. simpl. lia. }
  rewrite G. unfold total. simpl. lia.
Qed.

Lemma total_merge la lb l : total (merge_adjacent la lb l) = total l.
Proof.
  unfold merge_adjacent.
  assert (G : forall st,
             m_size (fst (fold_left merge_step l st))
             + total (snd (fold_left merge_step l st))
             = total l + m_size (fst st) + total (snd st)).
  { induction l as [|x l IH]; intros [cur out]; simpl fold_left; [simpl; lia|].
    rewrite IH. unfold merge_step.
    destruct ((m_a cur + m_size cur =? m_a x) && (m_b cur + m_size cur =? m_b x));
      simpl.
    - unfold total. simpl. lia.
    - destruct (Nat.eqb_spec (m_size cur) 0); rewrite ?total_app;
        unfold total; simpl; lia. }
  specialize (G (mkMatch 0 0 0, [])).
  destruct (fold_left merge_step l (mkMatch 0 0 0, [])) as [cur out].
  simpl in G. rewrite total_app.
  destruct (Nat.eqb_spec (m_size cur) 0); rewrite ?total_app;
    unfold total in *; simpl in *; lia.
Qed.

(** The loop always ends, and the matched characters fit in both texts. *)
Lemma matching_blocks_total a b :
  exists res,
    blocks_loop a b (blocks_fuel a) [(0, length a, 0, length b)] [] = Some res
    /\ total (get_matching_blocks a b) = total res
    /\ total res <= length a /\ total res <= length b.
Proof.
  destruct (blocks_loop_total a b (blocks_fuel a) [(0, length a, 0, length b)] [])
    as (res & E & S1 & S2).
  - repeat constructor; lia.
  - rewrite weight_cons. unfold blocks_fuel, weight. simpl list_sum. lia.
  - exists res. unfold get_matching_blocks. rewrite E.
    rewrite total_merge, total_sort.
    rewrite sum_a_cons in S1. rewrite sum_b_cons in S2.
    unfold sum_a, sum_b, total in *. simpl in S1, S2. repeat split; auto; lia.
Qed.

Lemma matches_le a b :
  2 * total (get_matching_blocks a b) <= length a + length b.
Proof.
  destruct (matching_blocks_total a b) as (res & _ & -> & H1 & H2). lia.
Qed.

Lemma Q_of_nat_nonneg n : (0 <= Q_of_nat n)%Q.
Proof.
  unfold Q_of_nat. change 0%Q with (inject_Z 0). rewrite <- Zle_Qle. lia.
Qed.

Lemma calculate_ratio_bounds m n :
  2 * m <= n -> (0 <= _calculate_ratio m n <= 1)%Q.
Proof.
  intros H. unfold _calculate_ratio.
  destruct (Nat.eqb_spec n 0) as [->|N]; [split; discriminate|].
  assert (P : (0 < Q_of_nat n)%Q).
  { unfold Q_of_nat. change 0%Q with (inject_Z 0). rewrite <- Zlt_Qlt. lia. }
  split.
  - apply Qle_shift_div_l; auto. rewrite Qmult_0_l.
    apply Qmult_le_0_compat; [discriminate | apply Q_of_nat_nonneg].
  - apply Qle_shift_div_r; auto. rewrite Qmult_1_l.
    unfold Q_of_nat. change 2%Q with (inject_Z 2).
    rewrite <- inject_Z_mult, <- Zle_Qle. lia.
Qed.

Lemma ratio_bounds a b : (0 <= ratio a b <= 1)%Q.
Proof. apply calculate_ratio_bounds, matches_le. Qed.

Lemma ratio_empty : ratio [] [] = 1%Q.
Proof. reflexivity. Qed.

End DifflibFacts.

(** ** Facts about consolidation *)

Module ConsolidateFacts.

Lemma Qltb_lt x y : Qltb x y = true <-> (x < y)%Q.
Proof.
  unfold Qltb. rewrite negb_true_iff. split; intros H.
  - apply Qnot_le_lt. intros L. apply Qle_bool_iff in L. congruence.
  - destruct (Qle_bool y x) eqn:E; auto.
    apply Qle_bool_iff in E. exfalso. now apply (Qlt_not_le x y).
Qed.

Lemma Qltb_ge x y : Qltb x y = false <-> (y <= x)%Q.
Proof.
  unfold Qltb. rewrite negb_false_iff. apply Qle_bool_iff.
Qed.

Lemma ltb_asym s t : String.ltb s t = true -> String.ltb t s = false.
Proof.
  unfold String.ltb. rewrite (String.compare_antisym s t).
  destruct (String.compare t s); simpl; congruence.
Qed.

Lemma ltb_connected s t :
  String.ltb s t = false -> String.ltb t s = false -> s = t.
Proof.
  unfold String.ltb. rewrite (String.compare_antisym s t).
  destruct (String.compare t s) eqn:E; simpl; try congruence.
  intros _ _. symmetry. now apply String.compare_eq_iff.
Qed.

Lemma pair_key_same d e : pair_key d = pair_key e <-> same_pair d e.
Proof.
  unfold pair_key, same_pair.
  destruct d as [a b ? ? ? ?], e as [c d' ? ? ? ?]. simpl. split.
  - destruct (String.ltb b a), (String.ltb d' c); intros E; inversion E; auto.
  - intros [[-> ->]|[-> ->]]; auto.
    destruct (String.ltb c d') eqn:E1, (String.ltb d' c) eqn:E2; auto.
    + apply ltb_asym in E1. congruence.
    + now rewrite (ltb_connected _ _ E1 E2).
Qed.

Lemma key_eqb_eq k1 k2 : key_eqb k1 k2 = true <-> k1 = k2.
Proof.
  destruct k1, k2. unfold key_eqb. simpl.
  rewrite andb_true_iff, !String.eqb_eq. split.
  - now intros [-> ->].
  - intros E. inversion E. auto.
Qed.

Lemma seen_spec k seen : existsb (key_eqb k) seen = true <-> In k seen.
Proof.
  rewrite existsb_exists. split.
  - intros (x & I & E). apply key_eqb_eq in E. now subst.
  - intros I. exists k. split; auto. now apply key_eqb_eq.
Qed.

Lemma find_index_split k : forall l i,
  In k (keys l) ->
  exists a1 e a2,
    l = a1 ++ e :: a2 /\ pair_key e = k /\ ~ In k (keys a1)
    /\ find_index k l i = Some (i + length a1).
Proof.
  induction l as [|d l IH]; intros i I; [contradiction|].
  simpl. destruct (key_eqb (pair_key d) k) eqn:E.
  - apply key_eqb_eq in E. exists [], d, l. simpl. repeat split; auto.
  - assert (N : pair_key d <> k).
    { intros H. apply key_eqb_eq in H. congruence. }
    destruct I as [I|I]; [congruence|].
    destruct (IH (S i) I) as (a1 & e & a2 & -> & K & NI & F).
    exists (d :: a1), e, a2. simpl. repeat split; auto.
    + intros [H|H]; auto.
    + rewrite F. f_equal. lia.
Qed.

Lemma nth_error_middle {A} (a1 : list A) e a2 :
  nth_error (a1 ++ e :: a2) (length a1) = Some e.
Proof. induction a1; simpl; auto. Qed.

Lemma list_set_middle {A} (a1 : list A) e a2 x :
  list_set (a1 ++ e :: a2) (length a1) x = a1 ++ x :: a2.
Proof. induction a1; simpl; congruence. Qed.

Lemma first_best_snoc e l d :
  first_best e l ->
  (same_pair d e -> (confidence d <= confidence e)%Q) ->
  first_best e (l ++ [d]).
Proof.
  intros (l1 & l2 & -> & B & A) H. exists l1, (l2 ++ [d]). split.
  - now rewrite <- app_assoc.
  - split; auto. intros d' I S. apply in_app_iff in I.
    destruct I as [I|[<-|[]]]; auto.
Qed.

Lemma first_best_new d l :
  (forall d', In d' l -> same_pair d' d -> (confidence d' < confidence d)%Q) ->
  first_best d (l ++ [d]).
Proof.
  intros H. exists l, []. repeat split; auto. intros d' [].
Qed.

Lemma Inv_init : Inv [] ([], []).
Proof. constructor; simpl; try tauto. constructor. Qed.

Lemma consolidate_step_inv seen st d :
  Inv seen st ->
  exists st', consolidate_step st d = Ok st' /\ Inv (seen ++ [d]) st'.
Proof.
  destruct st as [all sp]. intros [ND SE AL BE]. simpl in *.
  unfold consolidate_step.
  destruct (existsb (key_eqb (pair_key d)) sp) eqn:M; simpl.
  - apply seen_spec, SE in M.
    destruct (find_index_split (pair_key d) all 0 M)
      as (a1 & e & a2 & -> & K & NI & F).
    rewrite F. simpl. rewrite nth_error_middle.
    assert (KE : keys (a1 ++ d :: a2) = keys (a1 ++ e :: a2)).
    { unfold keys. rewrite !map_app. simpl. now rewrite K. }
    assert (NI2 : ~ In (pair_key d) (keys a2)).
    { unfold keys in ND. rewrite map_app in ND. simpl in ND.
      apply NoDup_remove_2 in ND. rewrite K in ND.
      intros H. apply ND. apply in_app_iff. now right. }
    assert (other : forall e', In e' a1 \/ In e' a2 -> ~ same_pair d e').
    { intros e' I S. apply pair_key_same in S.
      destruct I as [I|I]; [apply NI | apply NI2]; rewrite S;
        now apply in_map. }
    destruct (Qltb (confidence e) (confidence d)) eqn:C.
    + eexists. split; [reflexivity|]. rewrite list_set_middle.
      apply Qltb_lt in C.
      constructor; simpl; rewrite ?KE; auto.
      * intros d' I. apply in_app_iff in I. destruct I as [I|[<-|[]]]; auto.
      * intros e' I. apply in_app_iff in I. destruct I as [I|[<-|I]].
        -- apply first_best_snoc; [apply BE; apply in_app_iff; auto|].
           intros S. exfalso. apply (other e'); auto.
        -- apply first_best_new. intros d' I S.
           destruct (BE e) as (l1 & l2 & -> & B & A);
             [apply in_app_iff; right; now left|].
           assert (S' : same_pair d' e).
           { apply pair_key_same. apply pair_key_same in S. congruence. }
           apply in_app_iff in I. destruct I as [I|[<-|I]]; auto.
           ++ eapply Qlt_trans; [apply B|]; eauto.
           ++ eapply Qle_lt_trans; [apply A|]; eauto.
        -- apply first_best_snoc;
             [apply BE; apply in_app_iff; right; now right|].
           intros S. exfalso. apply (other e'); auto.
    + eexists. split; [reflexivity|]. apply Qltb_ge in C.
      constructor; simpl; auto.
      * intros d' I. apply in_app_iff in I. destruct I as [I|[<-|[]]]; auto.
      * intros e' I. apply first_best_snoc; auto. intros S.
        apply in_app_iff in I. destruct I as [I|[<-|I]]; auto;
          exfalso; apply (other e'); auto.
  - assert (NM : ~ In (pair_key d) (keys all)).
    { intros H. apply SE, seen_spec in H. congruence. }
    eexists. split; [reflexivity|].
    constructor; simpl.
    + unfold keys. rewrite map_app. simpl.
      apply NoDup_app; auto.
      * constructor; [intros []|constructor].
      * intros k I [<-|[]]. now apply NM.
    + intros k. unfold keys. rewrite map_app, in_app_iff. simpl.
      rewrite SE. unfold keys. intuition.
    + intros d' I. unfold keys. rewrite map_app, in_app_iff.
      apply in_app_iff in I. destruct I as [I|[<-|[]]]; simpl; auto.
    + intros e' I. apply in_app_iff in I. destruct I as [I|[<-|[]]].
      * apply first_best_snoc; auto. intros S. exfalso. apply NM.
        apply pair_key_same in S. rewrite S. now apply in_map.
      * apply first_best_new. intros d' I S. exfalso. apply NM.
        apply pair_key_same in S. rewrite <- S. now apply AL.
Qed.

Lemma consolidate_loop_inv : forall ds seen st,
  Inv seen st ->
  exists st', consolidate_loop ds st = Ok st' /\ Inv (seen ++ ds) st'.
Proof.
  induction ds as [|d ds IH]; intros seen st I.
  - exists st. rewrite app_nil_r. now split.
  - destruct (consolidate_step_inv seen st d I) as (st1 & E & I1).
    destruct (IH _ _ I1) as (st2 & E2 & I2).
    exists st2. simpl. rewrite E. simpl. rewrite <- app_assoc in I2. now split.
Qed.

Lemma consolidate_methods_inv : forall ls seen st,
  Inv seen st ->
  exists st',
    fold_left (fun acc duplicates => st <- acc ;; consolidate_loop duplicates st)
      ls (Ok st) = Ok st'
    /\ Inv (seen ++ concat ls) st'.
Proof.
  induction ls as [|ds ls IH]; intros seen st I.
  - exists st. simpl. rewrite app_nil_r. now split.
  - destruct (consolidate_loop_inv ds seen st I) as (st1 & E & I1).
    destruct (IH _ _ I1) as (st2 & E2 & I2).
    exists st2. simpl. rewrite E. rewrite <- app_assoc in I2. now split.
Qed.

Lemma insert_by_confidence_perm d l :
  Permutation (insert_by_confidence d l) (d :: l).
Proof.
  induction l as [|e l IH]; simpl; auto.
  destruct (Qle_bool (confidence e) (confidence d)); auto.
  rewrite IH. apply perm_swap.
Qed.

Lemma sort_by_confidence_perm l : Permutation (sort_by_confidence l) l.
Proof.
  induction l as [|d l IH]; simpl; auto.
  rewrite insert_by_confidence_perm. now constructor.
Qed.

Lemma insert_by_confidence_desc d l :
  descending l -> descending (insert_by_confidence d l).
Proof.
  induction 1 as [|e|e f l H D IH]; simpl.
  - constructor.
  - destruct (Qle_bool (confidence e) (confidence d)) eqn:E.
    + constructor; [now apply Qle_bool_iff | constructor].
    + constructor; [|constructor].
      apply Qlt_le_weak, Qnot_le_lt. intros L. apply Qle_bool_iff in L. congruence.
  - destruct (Qle_bool (confidence e) (confidence d)) eqn:E.
    + constructor; [now apply Qle_bool_iff | now constructor].
    + simpl in IH. destruct (Qle_bool (confidence f) (confidence d)) eqn:F.
      * constructor; auto.
        apply Qlt_le_weak, Qnot_le_lt. intros L. apply Qle_bool_iff in L.
        congruence.
      * constructor; auto.
Qed.

Lemma sort_by_confidence_desc l : descending (sort_by_confidence l).
Proof.
  induction l as [|d l IH]; simpl; [constructor|].
  now apply insert_by_confidence_desc.
Qed.

End ConsolidateFacts.

(** ** Facts about the normalizer *)

Module NormalizerFacts.
Import PyStrFacts.

Lemma normalize_text_eq s :
  _normalize_text s = join (txt " ") (filter keep_word (split s)).
Proof. destruct s; reflexivity. Qed.

Lemma Forall_filter {A} (P : A -> Prop) f l :
  Forall P l -> Forall P (filter f l).
Proof.
  induction 1 as [|a l Ha _ IH]; simpl; auto. destruct (f a); auto.
Qed.

Lemma normalize_text_idem s : _normalize_text (_normalize_text s) = _normalize_text s.
Proof.
  rewrite !normalize_text_eq. rewrite split_join.
  - now rewrite filter_idem.
  - apply Forall_filter.
    eapply Forall_impl; [|apply (split_words (fun _ => True))].
    + now intros w [H _].
    + now apply Forall_forall.
Qed.

Lemma sub_all_Forall (P : ascii -> Prop) : forall l s,
  Forall P s -> Forall P (sub_all l s).
Proof.
  induction l as [|q l IH]; intros s F; simpl; auto.
  apply IH. now apply re_sub_go_Forall.
Qed.

Lemma normalize_company_name_eq company :
  _normalize_company_name company = strip (sub_all suffixes (lower company)).
Proof. destruct company; reflexivity. Qed.

Lemma normalize_company_name_absent company suffix :
  In suffix suffixes -> occurs suffix (_normalize_company_name company) = false.
Proof.
  intros I. rewrite normalize_company_name_eq.
  pose proof suffixes_tight as T.
  apply occurs_strip.
  - rewrite forallb_forall in T. now apply T.
  - now apply occurs_after_sub_all.
Qed.

Lemma normalize_company_name_idem company :
  _normalize_company_name (_normalize_company_name company)
  = _normalize_company_name company.
Proof.
  rewrite (normalize_company_name_eq (_normalize_company_name company)).
  rewrite lower_fixed.
  - rewrite sub_all_absent.
    + rewrite normalize_company_name_eq. apply strip_idem.
    + intros p I. now apply normalize_company_name_absent.
  - rewrite normalize_company_name_eq.
    apply strip_Forall, sub_all_Forall, lower_Forall_fixed.
Qed.

Lemma good_space : good " "%char.
Proof. split; reflexivity. Qed.

Lemma collapse_ws_go_Forall (P : ascii -> Prop) : P " "%char ->
  forall s b, Forall P s -> Forall P (collapse_ws_go b s).
Proof.
  intros Hs. induction s as [|c r IH]; intros b F; [constructor|].
  inversion F; subst. simpl.
  destruct (is_space c); [destruct b|]; auto.
Qed.

Lemma blank_special_good s :
  Forall (fun c => lower_char c = c) s -> Forall good (blank_special s).
Proof.
  induction 1 as [|c r Hc _ IH]; simpl; constructor; auto.
  destruct (keep_char c) eqn:K; [now split | apply good_space].
Qed.

Lemma clean_text_good s : Forall good (_clean_text s).
Proof.
  destruct s as [|c r]; [constructor|].
  unfold _clean_text. cbn [is_empty].
  apply blank_special_good, strip_Forall.
  apply collapse_ws_go_Forall; [reflexivity|]. apply lower_Forall_fixed.
Qed.

Lemma blank_special_fixed s :
  Forall (fun c => keep_char c = true) s -> blank_special s = s.
Proof.
  induction 1 as [|c r Hc _ IH]; [reflexivity|].
  unfold blank_special in *. simpl. now rewrite Hc, IH.
Qed.

(** A line of words of good characters is a fixed point of the cleaner. *)
Lemma clean_text_join ws :
  Forall (fun w => wordy w /\ Forall good w) ws ->
  _clean_text (join (txt " ") ws) = join (txt " ") ws.
Proof.
  intros F.
  assert (W : Forall wordy ws).
  { eapply Forall_impl; [|exact F]. now intros w [H _]. }
  assert (G : Forall good (join (txt " ") ws)).
  { apply join_Forall; [apply good_space|].
    eapply Forall_impl; [|exact F]. now intros w [_ H]. }
  unfold _clean_text.
  destruct (is_empty (join (txt " ") ws)) eqn:E; [now apply is_empty_true in E|].
  rewrite lower_fixed.
  2:{ eapply Forall_impl; [|exact G]. now intros c [H _]. }
  unfold collapse_ws. rewrite collapse_join by assumption.
  unfold strip. rewrite lstrip_fix by now apply join_starts_clean.
  rewrite rstrip_join by assumption.
  apply blank_special_fixed.
  eapply Forall_impl; [|exact G]. now intros c [_ H].
Qed.

Lemma clean_text_normalized s :
  _clean_text (_normalize_text (_clean_text s)) = _normalize_text (_clean_text s).
Proof.
  rewrite normalize_text_eq. apply clean_text_join.
  apply Forall_filter, split_words, clean_text_good.
Qed.

End NormalizerFacts.

(** ** Facts about the scorers *)

Module ScorerFacts.
Import ConsolidateFacts DifflibFacts.

Lemma py_min_le_l x y : (py_min x y <= x)%Q.
Proof.
  unfold py_min. destruct (Qltb y x) eqn:E.
  - apply Qltb_lt in E. now apply Qlt_le_weak.
  - apply Qle_refl.
Qed.

Lemma py_min_le_r x y : (py_min x y <= y)%Q.
Proof.
  unfold py_min. destruct (Qltb y x) eqn:E.
  - apply Qle_refl.
  - now apply Qltb_ge in E.
Qed.

Lemma add_field_ok w x y acc :
  (0 <= w)%Q -> totals_ok acc -> totals_ok (add_field w x y acc).
Proof.
  intros Hw [H0 H1]. unfold add_field.
  destruct x as [s1|]; [|now split]. destruct y as [s2|]; [|now split].
  destruct (ratio_bounds s1 s2) as [R0 R1]. unfold totals_ok. simpl. split.
  - rewrite <- (Qplus_0_r 0). apply Qplus_le_compat; auto.
    now apply Qmult_le_0_compat.
  - apply Qplus_le_compat; auto.
    rewrite <- (Qmult_1_l w) at 2. apply Qmult_le_compat_r; auto.
Qed.

Lemma weighted_bounds acc : totals_ok acc -> (0 <= weighted acc <= 1)%Q.
Proof.
  intros [H0 H1]. unfold weighted. destruct (Qltb 0 (snd acc)) eqn:E.
  - apply Qltb_lt in E. split.
    + apply Qle_shift_div_l; auto. now rewrite Qmult_0_l.
    + apply Qle_shift_div_r; auto. now rewrite Qmult_1_l.
  - split; discriminate.
Qed.

Lemma cross_source_similarity_bounds job1 job2 :
  (0 <= _calculate_cross_source_similarity job1 job2 <= 1)%Q.
Proof.
  unfold _calculate_cross_source_similarity. apply weighted_bounds.
  repeat apply add_field_ok; try discriminate.
  split; simpl; apply Qle_refl.
Qed.

Lemma discount_lt_1 s c : (0 <= s <= 1)%Q -> (0 <= c)%Q -> (c < 1)%Q ->
  (s * c < 1)%Q /\ (s * c <= s)%Q.
Proof.
  intros [H0 H1] C0 C1. split.
  - apply Qle_lt_trans with (1 * c)%Q.
    + now apply Qmult_le_compat_r.
    + now rewrite Qmult_1_l.
  - rewrite <- (Qmult_1_r s) at 2. rewrite !(Qmult_comm s).
    apply Qmult_le_compat_r; auto. now apply Qlt_le_weak.
Qed.

Lemma add_field_sym w x y acc acc' :
  ratio_sym x y -> totals_eq acc acc' ->
  totals_eq (add_field w x y acc) (add_field w y x acc').
Proof.
  intros R [E1 E2]. unfold add_field, ratio_sym in *.
  destruct x as [s|], y as [t|]; try now split.
  split; simpl; [now rewrite R, E1 | now rewrite E2].
Qed.

Lemma Qltb_compat x y y' : (y == y')%Q -> Qltb x y = Qltb x y'.
Proof.
  intros E. destruct (Qltb x y) eqn:A, (Qltb x y') eqn:B; auto.
  - apply Qltb_lt in A. apply Qltb_ge in B. rewrite E in A.
    exfalso. now apply (Qlt_not_le x y').
  - apply Qltb_lt in B. apply Qltb_ge in A. rewrite E in A.
    exfalso. now apply (Qlt_not_le x y').
Qed.

Lemma weighted_compat acc acc' :
  totals_eq acc acc' -> (weighted acc == weighted acc')%Q.
Proof.
  intros [E1 E2]. unfold weighted. rewrite (Qltb_compat 0 _ _ E2).
  destruct (Qltb 0 (snd acc')); [now rewrite E1, E2 | reflexivity].
Qed.

End ScorerFacts.

(** ** Facts about the strategies *)

Module StrategyFacts.

(** The type that a match carries tells the strategy that produced it. *)
Lemma non_exact_match_type
    (tfidf_cosine : list str -> option (list (list Q)))
    (config : Config) (df : DataFrame) (m : DuplicateMatch) :
  In m (_find_fuzzy_duplicates config df
        ++ _find_semantic_duplicates tfidf_cosine config df
        ++ _find_cross_source_duplicates config df) ->
  match_type m <> "exact"%string.
Proof.
  intros I. rewrite !in_app_iff in I. destruct I as [I|[I|I]].
  - unfold _find_fuzzy_duplicates in I. apply in_flat_map in I.
    destruct I as ([job1 job2] & _ & I).
    destruct (Qle_bool _ _); [|contradiction].
    destruct I as [<-|[]]. discriminate.
  - unfold _find_semantic_duplicates in I.
    destruct (negb (enable_advanced_matching config)); [contradiction|].
    destruct (negb (existsb _ _)); [contradiction|].
    destruct (tfidf_cosine _) as [sims|]; [|contradiction].
    apply in_flat_map in I. destruct I as ([[i job1] [j job2]] & _ & I).
    destruct (Qle_bool _ _); [|contradiction].
    destruct I as [<-|[]]. discriminate.
  - unfold _find_cross_source_duplicates in I.
    destruct (negb (source_column df)); [contradiction|].
    apply in_flat_map in I. destruct I as ([source1 source2] & _ & I).
    apply in_flat_map in I. destruct I as (job1 & _ & I).
    apply in_flat_map in I. destruct I as (job2 & _ & I).
    destruct (Qle_bool _ _); [|contradiction].
    destruct I as [<-|[]]. discriminate.
Qed.

End StrategyFacts.

(** ** Facts about resolution *)

Module ResolverFacts.

Lemma removal_loop_unknown config jobs_data strategy :
  strategy <> "keep_first"%string -> strategy <> "keep_best_source"%string ->
  forall duplicates jobs_to_remove,
  removal_loop config jobs_data strategy duplicates jobs_to_remove
  = Ok jobs_to_remove.
Proof.
  intros N1 N2. apply String.eqb_neq in N1, N2.
  induction duplicates as [|dup rest IH]; intros s; [reflexivity|].
  simpl. unfold removal_step. rewrite N1, N2.
  destruct (Qle_bool _ _); simpl; apply IH.
Qed.

End ResolverFacts.

(** ** Facts about lists of pairs *)

Module PairFacts.

Lemma pairs_spec {A} (x y : A) : forall l,
  In (x, y) (pairs l) <->
  exists i j, i < j /\ nth_error l i = Some x /\ nth_error l j = Some y.
Proof.
  induction l as [|a r IH]; simpl.
  - split; [intros [] | intros (i & j & _ & H & _); destruct i; discriminate].
  - rewrite in_app_iff, in_map_iff, IH. split.
    + intros [(z & E & I)|(i & j & L & H1 & H2)].
      * inversion E; subst. apply In_nth_error in I. destruct I as [j Hj].
        exists 0, (S j). repeat split; auto. lia.
      * exists (S i), (S j). repeat split; auto. lia.
    + intros (i & j & L & H1 & H2). destruct j as [|j]; [lia|].
      destruct i as [|i]; simpl in H1, H2.
      * left. inversion H1; subst. exists y. split; auto.
        eapply nth_error_In; eauto.
      * right. exists i, j. repeat split; auto. lia.
Qed.

Lemma pairs_In {A} (x y : A) l : In (x, y) (pairs l) -> In x l /\ In y l.
Proof.
  rewrite pairs_spec. intros (i & j & _ & H1 & H2).
  split; eapply nth_error_In; eauto.
Qed.

Lemma pairs_map {A B} (g : A -> B) : forall l,
  pairs (map g l) = map (fun p => (g (fst p), g (snd p))) (pairs l).
Proof.
  induction l as [|a r IH]; [reflexivity|]. simpl.
  rewrite map_app, !map_map, IH. reflexivity.
Qed.

Lemma pairs_filter {A} (f : A -> bool) (x y : A) : forall l,
  In (x, y) (pairs (filter f l)) <->
  In (x, y) (pairs l) /\ f x = true /\ f y = true.
Proof.
  induction l as [|a r IH]; simpl; [tauto|].
  destruct (f a) eqn:Fa; simpl.
  - rewrite !in_app_iff, !in_map_iff, IH. split.
    + intros [(z & E & I)|(I & Fx & Fy)].
      * inversion E; subst. apply filter_In in I. destruct I as [I Fy].
        repeat split; auto. left. exists y. auto.
      * repeat split; auto.
    + intros ([(z & E & I)|I] & Fx & Fy).
      * inversion E; subst. left. exists y. split; auto.
        apply filter_In. auto.
      * right. auto.
  - rewrite IH, in_app_iff, in_map_iff. split.
    + intros (I & Fx & Fy). auto.
    + intros ([(z & E & I)|I] & Fx & Fy); auto.
      inversion E; subst. congruence.
Qed.

Lemma pairs_snoc {A} (x y z : A) : forall l,
  In (x, y) (pairs (l ++ [z])) <-> In (x, y) (pairs l) \/ (In x l /\ y = z).
Proof.
  induction l as [|a r IH]; simpl; [tauto|].
  rewrite !in_app_iff, !in_map_iff, IH. split.
  - intros [(w & E & I)|[I|[I E]]]; auto.
    inversion E; subst. apply in_app_iff in I. destruct I as [I|[<-|[]]].
    + left. left. exists y. auto.
    + right. auto.
  - intros [[(w & E & I)|I]|[[<-|I] ->]]; auto.
    + inversion E; subst. left. exists y. split; auto.
      apply in_app_iff. auto.
    + left. exists z. split; auto. apply in_app_iff. right. now left.
Qed.

(** Where the keys of a list are distinct, so are the keys of the two
    members of a pair. *)
Lemma pairs_distinct {A B} (g : A -> B) (x y : A) : forall l,
  NoDup (map g l) -> In (x, y) (pairs l) -> g x <> g y.
Proof.
  induction l as [|a r IH]; simpl; [tauto|].
  intros ND I. inversion ND as [|? ? NI ND']; subst.
  apply in_app_iff in I. destruct I as [I|I]; auto.
  apply in_map_iff in I. destruct I as (w & E & I). inversion E; subst.
  intros H. apply NI. rewrite H. now apply in_map.
Qed.

(** The second member of a pair is never the head of the list. *)
Lemma pairs_second_in_tail {A} (x y a : A) r :
  In (x, y) (pairs (a :: r)) -> In y r.
Proof.
  simpl. rewrite in_app_iff, in_map_iff.
  intros [(w & E & I)|I]; [now inversion E; subst | now apply pairs_In in I].
Qed.

Lemma map_fst_combine {A B} : forall (l : list A) (l' : list B),
  length l = length l' -> map fst (combine l l') = l.
Proof.
  induction l as [|a l IH]; intros [|b l'] H; simpl in *; try congruence.
  f_equal. auto.
Qed.

Lemma map_snd_combine {A B} : forall (l : list A) (l' : list B),
  length l = length l' -> map snd (combine l l') = l'.
Proof.
  induction l as [|a l IH]; intros [|b l'] H; simpl in *; try congruence.
  f_equal. auto.
Qed.

End PairFacts.

(** ** Facts about the frame and the ids of the matches *)

Module FrameFacts.
Import PairFacts ConsolidateFacts.

Lemma has_column_nonempty {A} (get : Job -> field A) jobs_data :
  has_column get jobs_data = true -> has_id_column jobs_data = true.
Proof. destruct jobs_data; simpl; congruence. Qed.

(** The frame that preprocessing builds. *)
Lemma preprocess_data_ok md5 jobs_data :
  has_column raw_title jobs_data = true ->
  has_column raw_company jobs_data = true ->
  exists df,
    _preprocess_data md5 jobs_data = Ok df
    /\ row_ids df = map raw_id jobs_data
    /\ source_column df = has_column raw_source jobs_data
    /\ map source (rows df) = map raw_source jobs_data.
Proof.
  intros Ht Hc. unfold _preprocess_data.
  rewrite (has_column_nonempty _ _ Ht), Ht, Hc. simpl.
  eexists. split; [reflexivity|]. unfold row_ids. simpl.
  assert (L : length (map raw_id jobs_data) = length jobs_data)
    by apply length_map.
  rewrite !map_map. repeat split.
  - transitivity (map fst (combine (map raw_id jobs_data) jobs_data));
      [apply map_ext; now intros [i j] | now apply map_fst_combine].
  - transitivity (map raw_source
                    (map snd (combine (map raw_id jobs_data) jobs_data)));
      [rewrite map_map; apply map_ext; now intros [i j]
      | now rewrite map_snd_combine].
Qed.

Lemma rows_of_source_In df s r : In r (rows_of_source df s) -> In r (rows df).
Proof.
  destruct s; simpl; try tauto. intros I. now apply filter_In in I.
Qed.

(** Every strategy names rows of the frame. *)
Lemma exact_ids_known df m : In m (_find_exact_duplicates df) -> ids_known df m.
Proof.
  unfold _find_exact_duplicates. intros I.
  apply in_flat_map in I. destruct I as (fp & _ & I).
  destruct (1 <? _); [|contradiction].
  apply in_map_iff in I. destruct I as ([i j] & <- & I). simpl.
  apply pairs_In in I. unfold ids_known, row_ids. simpl.
  split; [destruct I as [I _] | destruct I as [_ I]];
    apply in_map_iff in I; destruct I as (r & <- & I);
    apply filter_In in I; apply in_map; tauto.
Qed.

Lemma fuzzy_ids_known config df m :
  In m (_find_fuzzy_duplicates config df) -> ids_known df m.
Proof.
  unfold _find_fuzzy_duplicates. intros I.
  apply in_flat_map in I. destruct I as ([job1 job2] & P & I).
  destruct (Qle_bool _ _); [|contradiction]. destruct I as [<-|[]].
  apply pairs_In in P. unfold ids_known, row_ids. simpl.
  split; apply in_map; tauto.
Qed.

Lemma semantic_ids_known tfidf_cosine config df m :
  In m (_find_semantic_duplicates tfidf_cosine config df) -> ids_known df m.
Proof.
  unfold _find_semantic_duplicates. intros I.
  destruct (negb (enable_advanced_matching config)); [contradiction|].
  destruct (negb (existsb _ _)); [contradiction|].
  destruct (tfidf_cosine _) as [sims|]; [|contradiction].
  apply in_flat_map in I. destruct I as ([[i job1] [j job2]] & P & I).
  destruct (Qle_bool _ _); [|contradiction]. destruct I as [<-|[]].
  apply pairs_In in P. destruct P as [P1 P2].
  apply in_combine_r in P1, P2. unfold ids_known, row_ids. simpl.
  split; now apply in_map.
Qed.

Lemma cross_source_ids_known config df m :
  In m (_find_cross_source_duplicates config df) -> ids_known df m.
Proof.
  unfold _find_cross_source_duplicates. intros I.
  destruct (negb (source_column df)); [contradiction|].
  apply in_flat_map in I. destruct I as ([source1 source2] & _ & I).
  apply in_flat_map in I. destruct I as (job1 & I1 & I).
  apply in_flat_map in I. destruct I as (job2 & I2 & I).
  destruct (Qle_bool _ _); [|contradiction]. destruct I as [<-|[]].
  apply rows_of_source_In in I1, I2. unfold ids_known, row_ids. simpl.
  split; now apply in_map.
Qed.

Lemma strategy_ids_known tfidf_cosine config df m :
  In m (all_matches (strategy_results tfidf_cosine config df)) ->
  ids_known df m.
Proof.
  unfold all_matches, methods. simpl. rewrite app_nil_r, !in_app_iff.
  intros [I|[I|[I|I]]].
  - now apply exact_ids_known.
  - now apply (fuzzy_ids_known config).
  - now apply (semantic_ids_known tfidf_cosine config).
  - now apply (cross_source_ids_known config).
Qed.

(** What the consolidator returns: the sorted list of the entries it
    kept, which satisfy the invariant of its loop. *)
Lemma consolidate_result results :
  exists all sp,
    _consolidate_duplicates results = Ok (sort_by_confidence all)
    /\ Inv (all_matches results) (all, sp).
Proof.
  destruct (consolidate_methods_inv (methods results) [] ([], []) Inv_init)
    as ([all sp] & E & I).
  exists all, sp. split; [|exact I].
  unfold _consolidate_duplicates. now rewrite E.
Qed.

Lemma consolidate_subset results out e :
  _consolidate_duplicates results = Ok out -> In e out ->
  In e (all_matches results).
Proof.
  destruct (consolidate_result results) as (all & sp & E & [_ _ _ BE]).
  rewrite E. intros H I. inversion H; subst.
  apply (Permutation_in _ (sort_by_confidence_perm all)) in I.
  destruct (BE e I) as (l1 & l2 & -> & _). apply in_app_iff. right. now left.
Qed.

Lemma source_of_ok df i :
  In i (row_ids df) -> exists c, source_of df i = Ok c.
Proof.
  intros I. unfold source_of.
  destruct (find _ (rows df)) as [r|] eqn:F; [eauto|].
  exfalso. unfold row_ids in I. apply in_map_iff in I.
  destruct I as (r & <- & I).
  pose proof (find_none _ _ F r I) as H. simpl in H.
  now rewrite String.eqb_refl in H.
Qed.

Lemma source_duplicates_ok df s : forall duplicates,
  Forall (ids_known df) duplicates ->
  exists l, source_duplicates df s duplicates = Ok l.
Proof.
  induction 1 as [|d rest [K1 K2] _ (tail & IH)]; simpl; [eauto|].
  destruct (source_of_ok df _ K1) as (c1 & ->).
  destruct (source_of_ok df _ K2) as (c2 & ->). simpl.
  destruct (scalar_eqb c1 s); simpl; rewrite IH; simpl; eauto.
Qed.

Lemma source_statistics_loop_ok df duplicates :
  Forall (ids_known df) duplicates ->
  forall sources, exists l, source_statistics_loop df sources duplicates = Ok l.
Proof.
  intros K. induction sources as [|s rest (tail & IH)]; simpl; [eauto|].
  destruct (source_duplicates_ok df s duplicates K) as (ds & ->). simpl.
  rewrite IH. simpl. eauto.
Qed.

Lemma generate_summary_ok df duplicates :
  Forall (ids_known df) duplicates ->
  exists s,
    _generate_summary df duplicates = Ok s
    /\ total_jobs s = length (rows df)
    /\ duplicate_pairs s = length duplicates.
Proof.
  intros K. unfold _generate_summary.
  destruct (source_column df).
  - destruct (source_statistics_loop_ok df duplicates K (unique_sources df))
      as (l & ->). simpl. eexists. repeat split.
  - simpl. eexists. repeat split.
Qed.

(** [detect_duplicates] returns as soon as preprocessing does. *)
Lemma detect_duplicates_ok md5 tfidf_cosine config jobs_data :
  has_column raw_title jobs_data = true ->
  has_column raw_company jobs_data = true ->
  exists df a,
    _preprocess_data md5 jobs_data = Ok df
    /\ detect_duplicates md5 tfidf_cosine config jobs_data = Ok a
    /\ per_method a = strategy_results tfidf_cosine config df
    /\ _consolidate_duplicates (per_method a) = Ok (consolidated_duplicates a)
    /\ total_jobs (summary a) = length jobs_data
    /\ duplicate_pairs (summary a) = length (consolidated_duplicates a).
Proof.
  intros Ht Hc.
  destruct (preprocess_data_ok md5 jobs_data Ht Hc) as (df & P & Ids & _).
  unfold detect_duplicates. rewrite P. simpl.
  fold (strategy_results tfidf_cosine config df).
  destruct (consolidate_result (strategy_results tfidf_cosine config df))
    as (all & sp & E & I).
  rewrite E. simpl.
  assert (K : Forall (ids_known df) (sort_by_confidence all)).
  { apply Forall_forall. intros e He.
    apply (strategy_ids_known tfidf_cosine config).
    eapply consolidate_subset; eauto. }
  destruct (generate_summary_ok df _ K) as (s & -> & T & D). simpl.
  exists df. eexists. repeat split; simpl; auto.
  rewrite T. unfold row_ids in Ids.
  rewrite <- (length_map job_id), Ids. apply length_map.
Qed.

End FrameFacts.

(** ** A text matched against itself *)

Module SelfMatchFacts.
Import DifflibFacts.

Lemma run_eq s i :
  run s i = if live s (item s i) then run_prev s i + 1 else 0.
Proof. destruct i; reflexivity. Qed.

Lemma asc_lower lo l : asc lo l -> forall x, In x l -> lo <= x.
Proof.
  revert lo. induction l as [|j r IH]; intros lo A x I; [contradiction|].
  destruct A as [L A]. destruct I as [<-|I]; auto.
  apply IH with (x := x) in A; auto. lia.
Qed.

Lemma indices_from_asc c : forall b i0, asc i0 (indices_from i0 c b).
Proof.
  induction b as [|d r IH]; intros i0; simpl; auto.
  assert (W : forall l, asc (S i0) l -> asc i0 l).
  { intros [|j l]; simpl; auto. intros [L A]. split; auto. lia. }
  destruct (Ascii.eqb d c); simpl; auto.
Qed.

Lemma indices_from_In c : forall b i0 j,
  In j (indices_from i0 c b) ->
  i0 <= j /\ j < i0 + length b /\ nth (j - i0) b nul = c.
Proof.
  induction b as [|d r IH]; intros i0 j I; simpl in *; [contradiction|].
  assert (T : In j (indices_from (S i0) c r) ->
              i0 <= j /\ j < i0 + S (length r)
              /\ nth (j - i0) (d :: r) nul = c).
  { intros H. apply IH in H. destruct H as (H1 & H2 & H3).
    repeat split; try lia.
    replace (j - i0) with (S (j - S i0)) by lia. exact H3. }
  destruct (Ascii.eqb_spec d c) as [->|N]; auto.
  destruct I as [<-|I]; auto.
  repeat split; try lia. now rewrite Nat.sub_diag.
Qed.

Lemma indices_from_mem c : forall b i0 k,
  k < length b -> nth k b nul = c -> In (i0 + k) (indices_from i0 c b).
Proof.
  induction b as [|d r IH]; intros i0 k L E; simpl in *; [lia|].
  destruct k as [|k].
  - subst. rewrite Ascii.eqb_refl, Nat.add_0_r. now left.
  - replace (i0 + S k) with (S i0 + k) by lia.
    assert (H : In (S i0 + k) (indices_from (S i0) c r))
      by (apply IH; auto; lia).
    destruct (Ascii.eqb d c); [now right | exact H].
Qed.

Lemma get_prev_cases d j :
  get_prev d j = 0 \/ exists j', j = S j' /\ In (j', get_prev d j) d.
Proof.
  destruct j as [|j']; [now left|]. simpl.
  destruct (dict_get_cases d j'); [now left | right; eauto].
Qed.

Section Row.
Variables (s : str) (i : nat) (d : dict).
Hypothesis Hd : forall j l, In (j, l) d -> l <= run s j /\ l <= run_prev s i.
Hypothesis Hdiag : get_prev d i = run_prev s i.

Lemma scan_row_self : forall js newd best lo,
  asc lo js ->
  (forall j, In j js ->
     j < length s /\ item s j = item s i /\ live s (item s i) = true) ->
  row_state s i js newd best ->
  row_state s i []
    (fst (scan_row 0 (length s) i d js newd best))
    (snd (scan_row 0 (length s) i d js newd best)).
Proof.
  induction js as [|j js IH]; intros newd best lo A J R; [exact R|].
  destruct A as [_ A]. destruct (J j (or_introl eq_refl)) as (Jn & Ji & Jl).
  cbn [scan_row]. replace (j <? 0) with false by reflexivity.
  destruct (Nat.leb_spec (length s) j) as [|_]; [lia|].
  destruct R as (Ra & Rb & Rc & Rd).
  assert (Kj : get_prev d j + 1 <= run s j).
  { rewrite (run_eq s j), Ji, Jl.
    destruct (get_prev_cases d j) as [->|(j' & -> & I)]; [lia|].
    apply Hd in I. change (run_prev s (S j')) with (run s j'). lia. }
  assert (Ki : get_prev d j + 1 <= run s i).
  { rewrite (run_eq s i), Jl.
    destruct (get_prev_cases d j) as [->|(j' & _ & I)]; [lia|].
    apply Hd in I. lia. }
  assert (Ra' : forall j0 l, In (j0, l) ((j, get_prev d j + 1) :: newd) ->
                             l <= run s j0 /\ l <= run s i).
  { intros j0 l [E|I]; [inversion E; subst; auto | auto]. }
  assert (Later : forall x, In x js -> j < x).
  { intros x I. apply (asc_lower _ _ A) in I. lia. }
  apply (IH _ _ (S j) A); [intros x I; apply J; now right|].
  destruct (Nat.lt_trichotomy j i) as [L|[E|G]].
  - (* a column before the diagonal *)
    assert (N : (m_size best <? get_prev d j + 1) = false).
    { apply Nat.ltb_ge. specialize (Rc j L). lia. }
    rewrite N. split; [exact Ra'|]. split; [exact Rb|]. split; [exact Rc|].
    intros NI.
    assert (NI' : ~ In i (j :: js)) by (intros [H|H]; [lia | auto]).
    destruct (Rd NI') as [Rd1 Rd2]. split; [exact Rd1|].
    simpl. destruct (Nat.eqb_spec j i); [lia | exact Rd2].
  - (* the diagonal *)
    subst j. rewrite Hdiag in *.
    assert (V : run_prev s i + 1 = run s i) by (rewrite (run_eq s i), Jl; auto).
    split; [exact Ra'|].
    destruct (Nat.ltb_spec (m_size best) (run_prev s i + 1)).
    + split; [reflexivity|]. split.
      * intros j L. specialize (Rc j L). simpl. lia.
      * intros _. simpl. rewrite Nat.eqb_refl. split; lia.
    + split; [exact Rb|]. split; [exact Rc|].
      intros _. simpl. rewrite Nat.eqb_refl. split; lia.
  - (* a column after the diagonal *)
    assert (NI : ~ In i (j :: js)).
    { intros [H|H]; [lia | apply Later in H; lia]. }
    destruct (Rd NI) as [Rd1 Rd2].
    assert (N : (m_size best <? get_prev d j + 1) = false).
    { apply Nat.ltb_ge. lia. }
    rewrite N. split; [exact Ra'|]. split; [exact Rb|]. split; [exact Rc|].
    intros _. split; [exact Rd1|].
    simpl. destruct (Nat.eqb_spec j i); [lia | exact Rd2].
Qed.

End Row.

Lemma b2j_self s i j :
  i < length s -> In j (b2j s (item s i)) ->
  j < length s /\ item s j = item s i /\ live s (item s i) = true.
Proof.
  intros L I. unfold b2j in I. unfold live.
  destruct (is_popular s (item s i)); [contradiction|].
  apply indices_from_In in I. destruct I as (_ & I1 & I2).
  rewrite Nat.sub_0_r in I2. repeat split; auto.
Qed.

Lemma b2j_asc s c : asc 0 (b2j s c).
Proof.
  unfold b2j. destruct (is_popular s c); [exact I | apply indices_from_asc].
Qed.

Lemma b2j_diagonal s i :
  i < length s -> live s (item s i) = true -> In i (b2j s (item s i)).
Proof.
  intros L V. unfold b2j. unfold live in V.
  destruct (is_popular s (item s i)); [discriminate|].
  apply (indices_from_mem (item s i) s 0 i L eq_refl).
Qed.

(** The best match of the scan lies on the diagonal. *)
Lemma scan_rows_self s : forall m i d best,
  i + m = length s ->
  (forall j l, In (j, l) d -> l <= run s j /\ l <= run_prev s i) ->
  get_prev d i = run_prev s i ->
  m_a best = m_b best ->
  (forall j, j < i -> run s j <= m_size best) ->
  m_a (scan_rows s s 0 (length s) (seq i m) d best)
  = m_b (scan_rows s s 0 (length s) (seq i m) d best).
Proof.
  induction m as [|m IH]; intros i d best E Hd Hg Hb Hc; [exact Hb|].
  cbn [seq scan_rows].
  assert (Li : i < length s) by lia.
  assert (R0 : row_state s i (b2j s (item s i)) [] best).
  { split; [intros j l []|]. split; [exact Hb|]. split; [exact Hc|].
    intros NI. destruct (live s (item s i)) eqn:V.
    - apply b2j_diagonal in V; auto. contradiction.
    - rewrite run_eq, V. split; [lia | reflexivity]. }
  pose proof (scan_row_self s i d Hd Hg (b2j s (item s i)) [] best 0
                (b2j_asc s _) (fun j => b2j_self s i j Li) R0) as R.
  destruct (scan_row 0 (length s) i d (b2j s (item s i)) [] best)
    as [newd best'].
  simpl in R. destruct R as (Ra & Rb & Rc & Rd).
  destruct (Rd (fun H => H)) as [Rd1 Rd2].
  apply IH; auto; try lia.
  intros j L. destruct (Nat.eq_dec j i) as [->|N]; auto. apply Rc. lia.
Qed.

Lemma extend_left_self junk s : forall besti bestsize,
  junk = false ->
  extend_left junk s s 0 0 besti besti bestsize = mkMatch 0 0 (bestsize + besti).
Proof.
  intros besti bestsize ->. revert bestsize.
  induction besti as [|i' IH]; intros bestsize; simpl.
  - now rewrite Nat.add_0_r.
  - rewrite Nat.sub_0_r, Ascii.eqb_refl. simpl. rewrite IH. f_equal. lia.
Qed.

Lemma extend_right_self s : forall gap bestsize,
  bestsize + gap = length s ->
  extend_right false s s (length s) 0 0 gap bestsize = mkMatch 0 0 (length s).
Proof.
  induction gap as [|g IH]; intros bestsize E; simpl.
  - f_equal. lia.
  - destruct (Nat.ltb_spec bestsize (length s)); [|lia].
    rewrite Ascii.eqb_refl. simpl. apply IH. lia.
Qed.

Lemma find_longest_match_self s :
  find_longest_match s s 0 (length s) 0 (length s) = mkMatch 0 0 (length s).
Proof.
  unfold find_longest_match. rewrite Nat.sub_0_r.
  pose proof (scan_rows_ok s s 0 (length s) 0 (length s) (length s) 0 []
                (mkMatch 0 0 0)) as R.
  pose proof (scan_rows_self s (length s) 0 [] (mkMatch 0 0 0)) as D.
  set (best := scan_rows s s 0 (length s) (seq 0 (length s)) []
                 (mkMatch 0 0 0)) in *.
  assert (Rg : in_range 0 (length s) 0 (length s) best).
  { apply R; try lia.
    - intros j l [].
    - unfold in_range. simpl. lia. }
  assert (Dg : m_a best = m_b best).
  { apply D; auto; try (intros j l []). intros j L. lia. }
  destruct best as [p q k]. simpl in Dg. subst q.
  destruct Rg as (_ & Rg & _). simpl in Rg.
  unfold extend at 2. simpl m_a. simpl m_b. simpl m_size.
  rewrite extend_left_self by reflexivity. simpl m_a. simpl m_b. simpl m_size.
  rewrite extend_right_self by lia.
  unfold extend. simpl. rewrite Nat.sub_diag. reflexivity.
Qed.

Lemma matching_blocks_self s :
  s <> [] -> total (get_matching_blocks s s) = length s.
Proof.
  intros N.
  destruct (matching_blocks_total s s) as (res & E & -> & _).
  unfold blocks_fuel in E. replace (2 * length s + 1) with (S (2 * length s))
    in E by lia.
  cbn [blocks_loop] in E. rewrite find_longest_match_self in E.
  cbn [m_a m_b m_size] in E.
  destruct (Nat.eqb_spec (length s) 0) as [Z|NZ].
  - destruct s; [congruence | discriminate].
  - replace (0 <? 0) with false in E by reflexivity.
    replace (0 + length s <? length s) with false in E
      by (symmetry; apply Nat.ltb_ge; lia).
    cbn [andb app] in E. destruct (2 * length s); simpl in E;
      inversion E; unfold total; simpl; lia.
Qed.

(** The ratio of a text with itself is 1, popular characters or not. *)
Lemma ratio_self s : (ratio s s == 1)%Q.
Proof.
  destruct s as [|c r]; [reflexivity|].
  unfold ratio. change (list_sum (map m_size (get_matching_blocks (c :: r) (c :: r))))
    with (total (get_matching_blocks (c :: r) (c :: r))).
  rewrite matching_blocks_self by discriminate.
  unfold _calculate_ratio.
  destruct (Nat.eqb_spec (length (c :: r) + length (c :: r)) 0) as [Z|NZ];
    [simpl in Z; lia|].
  unfold Q_of_nat. change 2%Q with (inject_Z 2).
  rewrite <- inject_Z_mult.
  replace (2 * Z.of_nat (length (c :: r)))%Z
    with (Z.of_nat (length (c :: r) + length (c :: r))) by lia.
  apply Qmult_inv_r. change 0%Q with (inject_Z 0). rewrite inject_Z_injective.
  lia.
Qed.

(** Against the empty text a text that is not empty has ratio 0. *)
Lemma ratio_empty_l s : s <> [] -> (ratio [] s == 0)%Q.
Proof.
  intros N. unfold ratio.
  change (list_sum (map m_size (get_matching_blocks [] s)))
    with (total (get_matching_blocks [] s)).
  destruct (matching_blocks_total [] s) as (res & _ & -> & H & _).
  simpl in H. replace (total res) with 0 by lia.
  unfold _calculate_ratio. simpl length.
  destruct (Nat.eqb_spec (0 + length s) 0) as [Z|NZ].
  - destruct s; [congruence | discriminate].
  - unfold Qdiv. now rewrite Qmult_0_r, Qmult_0_l.
Qed.

Lemma ratio_empty_r s : s <> [] -> (ratio s [] == 0)%Q.
Proof.
  intros N. unfold ratio.
  change (list_sum (map m_size (get_matching_blocks s [])))
    with (total (get_matching_blocks s [])).
  destruct (matching_blocks_total s []) as (res & _ & -> & _ & H).
  simpl in H. replace (total res) with 0 by lia.
  unfold _calculate_ratio. simpl length.
  destruct (Nat.eqb_spec (length s + 0) 0) as [Z|NZ].
  - destruct s; [congruence | simpl in Z; discriminate].
  - unfold Qdiv. now rewrite Qmult_0_r, Qmult_0_l.
Qed.

End SelfMatchFacts.

(** ** What the strategies pair *)

Module PairingFacts.
Import PairFacts.

Lemma insert_uniq_In x s : forall l, In x (insert_uniq s l) <-> x = s \/ In x l.
Proof.
  induction l as [|t l IH]; simpl.
  - intuition.
  - destruct (String.eqb_spec s t) as [->|N].
    + simpl. intuition.
    + destruct (String.ltb s t); simpl; [intuition|]. rewrite IH. intuition.
Qed.

Lemma group_keys_In df fp :
  In fp (group_keys df) <-> exists r, In r (rows df) /\ fingerprint r = fp.
Proof.
  unfold group_keys.
  assert (G : forall l acc,
    In fp (fold_left (fun acc r => insert_uniq (fingerprint r) acc) l acc)
    <-> In fp acc \/ exists r, In r l /\ fingerprint r = fp).
  { induction l as [|a l IH]; intros acc; simpl.
    - split; [auto | intros [H|(r & [] & _)]; auto].
    - rewrite IH, insert_uniq_In. split.
      + intros [[->|H]|(r & I & E)]; eauto.
      + intros [H|(r & [<-|I] & E)]; eauto. }
  rewrite G. simpl. split; [intros [[]|H]; auto | auto].
Qed.

Lemma pairs_length {A} (p : A * A) l : In p (pairs l) -> 1 < length l.
Proof.
  destruct l as [|a [|b l]]; simpl; try contradiction. lia.
Qed.

Lemma in_order_pairs df job1 job2 :
  in_order df job1 job2 <-> In (job1, job2) (pairs (rows df)).
Proof. unfold in_order. now rewrite pairs_spec. Qed.

(** The exact strategy reports the pairs of rows of equal fingerprint,
    and nothing else. *)
Lemma exact_duplicates_spec df m :
  In m (_find_exact_duplicates df) <->
  exists job1 job2,
    In (job1, job2) (pairs (rows df))
    /\ fingerprint job1 = fingerprint job2
    /\ m = exact_match_of job1 job2.
Proof.
  unfold _find_exact_duplicates. rewrite in_flat_map. split.
  - intros (fp & _ & I).
    destruct (1 <? _); [|contradiction].
    apply in_map_iff in I. destruct I as ([a b] & <- & I).
    rewrite pairs_map in I. apply in_map_iff in I.
    destruct I as ([job1 job2] & E & I). simpl in E. inversion E; subst.
    apply pairs_filter in I. destruct I as (I & F1 & F2).
    apply String.eqb_eq in F1, F2.
    exists job1, job2. repeat split; auto. congruence.
  - intros (job1 & job2 & I & F & ->).
    exists (fingerprint job1). split.
    + apply group_keys_In. exists job1. split; auto.
      now apply pairs_In in I.
    + assert (G : In (job1, job2)
                    (pairs (filter (fun r => String.eqb (fingerprint r)
                                               (fingerprint job1)) (rows df)))).
      { apply pairs_filter. repeat split; auto.
        - apply String.eqb_refl.
        - rewrite F. apply String.eqb_refl. }
      pose proof (pairs_length _ _ G) as L.
      apply Nat.ltb_lt in L. rewrite L.
      apply in_map_iff. exists (job_id job1, job_id job2). split; auto.
      rewrite pairs_map. apply in_map_iff. exists (job1, job2). auto.
Qed.

Lemma existsb_false {A} (f : A -> bool) l x :
  existsb f l = false -> In x l -> f x = false.
Proof.
  intros E I. destruct (f x) eqn:F; auto.
  assert (T : existsb f l = true) by (apply existsb_exists; eauto).
  congruence.
Qed.

(** The entries of [unique()] are pairwise different cells. *)
Lemma unique_sources_distinct df x y :
  In (x, y) (pairs (unique_sources df)) -> cell_eqb y x = false.
Proof.
  unfold unique_sources. revert x y.
  assert (G : forall l acc,
    (forall x y, In (x, y) (pairs acc) -> cell_eqb y x = false) ->
    forall x y,
      In (x, y)
        (pairs (fold_left
                  (fun acc r => if existsb (cell_eqb (source r)) acc then acc
                                else acc ++ [source r]) l acc)) ->
      cell_eqb y x = false).
  { induction l as [|a l IH]; intros acc H; simpl; auto.
    apply IH. destruct (existsb _ acc) eqn:E; auto.
    intros x y I. apply pairs_snoc in I. destruct I as [I|[I ->]]; auto.
    eapply existsb_false; eauto. }
  apply G. intros x y [].
Qed.

Lemma unique_sources_extend : forall l acc,
  exists ext,
    fold_left (fun acc r => if existsb (cell_eqb (source r)) acc then acc
                            else acc ++ [source r]) l acc
    = acc ++ ext.
Proof.
  induction l as [|a l IH]; intros acc; simpl.
  - exists []. now rewrite app_nil_r.
  - destruct (existsb _ acc); auto.
    destruct (IH (acc ++ [source a])) as [ext E].
    exists ([source a] ++ ext). now rewrite E, <- app_assoc.
Qed.

(** The source of the first row is the first entry of [unique()], so it
    is never the second source of a pair. *)
Lemma unique_sources_second df first rest x y :
  rows df = first :: rest ->
  In (x, y) (pairs (unique_sources df)) -> cell_eqb y (source first) = false.
Proof.
  intros R I. pose proof (unique_sources_distinct df) as D.
  unfold unique_sources in *. rewrite R in *. simpl in *.
  destruct (unique_sources_extend rest [source first]) as [ext E].
  rewrite E in *. simpl in I, D.
  apply in_app_iff in I. destruct I as [I|I].
  - apply in_map_iff in I. destruct I as (w & W & I). inversion W; subst.
    apply D. apply in_app_iff. left. now apply in_map.
  - apply pairs_In in I. destruct I as [_ I].
    apply D. apply in_app_iff. left. now apply in_map.
Qed.

Lemma rows_of_source_spec df s r :
  In r (rows_of_source df s) <->
  exists name, s = Val name /\ In r (rows df) /\ source r = Val name.
Proof.
  unfold rows_of_source. destruct s as [| |name].
  - split; [contradiction | intros (n & E & _); discriminate].
  - split; [contradiction | intros (n & E & _); discriminate].
  - rewrite filter_In. split.
    + intros [I E]. destruct (source r) as [| |t]; try discriminate.
      apply String.eqb_eq in E. subst. eauto.
    + intros (n & E & I & S). inversion E; subst. split; auto.
      rewrite S. apply String.eqb_refl.
Qed.

(** The cross-source strategy pairs rows of two different named
    sources. *)
Lemma cross_source_spec config df m :
  In m (_find_cross_source_duplicates config df) ->
  exists job1 job2 name1 name2,
    In job1 (rows df) /\ In job2 (rows df)
    /\ source job1 = Val name1 /\ source job2 = Val name2
    /\ name1 <> name2
    /\ (forall first rest, rows df = first :: rest ->
                           source first <> Val name2)
    /\ Qle_bool (high_similarity config)
         (_calculate_cross_source_similarity job1 job2) = true
    /\ m = {| job1_id := job_id job1;
              job2_id := job_id job2;
              similarity_score := _calculate_cross_source_similarity job1 job2;
              match_type := "cross_source";
              reasons := [("cross_source_" ++ name1 ++ "_" ++ name2)%string];
              confidence :=
                (_calculate_cross_source_similarity job1 job2 * 0.9)%Q |}.
Proof.
  unfold _find_cross_source_duplicates.
  destruct (negb (source_column df)); [contradiction|].
  intros I. apply in_flat_map in I. destruct I as ([s1 s2] & P & I).
  apply in_flat_map in I. destruct I as (job1 & I1 & I).
  apply in_flat_map in I. destruct I as (job2 & I2 & I).
  destruct (Qle_bool _ _) eqn:Q; [|contradiction].
  destruct I as [<-|[]].
  apply rows_of_source_spec in I1, I2.
  destruct I1 as (name1 & -> & I1 & S1). destruct I2 as (name2 & -> & I2 & S2).
  exists job1, job2, name1, name2. repeat split; auto.
  - apply unique_sources_distinct in P. simpl in P.
    intros ->. now rewrite String.eqb_refl in P.
  - intros first rest R F.
    apply (unique_sources_second df first rest _ _ R) in P.
    rewrite F in P. simpl in P. now rewrite String.eqb_refl in P.
Qed.

Lemma in_tail_distinct df job1 job2 :
  In job1 (rows df) -> In job2 (rows df) ->
  NoDup (row_ids df) -> job1 <> job2 -> job_id job1 <> job_id job2.
Proof.
  unfold row_ids. induction (rows df) as [|a l IH]; simpl; [contradiction|].
  intros I1 I2 ND N. inversion ND as [|? ? NI ND']; subst.
  destruct I1 as [->|I1], I2 as [->|I2]; auto.
  - intros E. apply NI. rewrite E. now apply in_map.
  - intros E. apply NI. rewrite <- E. now apply in_map.
Qed.

Lemma pairs_later df job1 job2 m :
  In (job1, job2) (pairs (rows df)) ->
  job1_id m = job_id job1 -> job2_id m = job_id job2 ->
  pairs_later_row df m.
Proof.
  intros I E1 E2. exists job1, job2. repeat split; auto.
  - now apply pairs_In in I.
  - destruct (rows df) as [|a r]; [contradiction|].
    now apply pairs_second_in_tail in I.
  - intros ND. now apply (pairs_distinct job_id job1 job2 (rows df)).
Qed.

Lemma exact_later df m :
  In m (_find_exact_duplicates df) -> pairs_later_row df m.
Proof.
  intros I. apply exact_duplicates_spec in I.
  destruct I as (job1 & job2 & I & _ & ->).
  now apply (pairs_later df job1 job2).
Qed.

Lemma fuzzy_later config df m :
  In m (_find_fuzzy_duplicates config df) -> pairs_later_row df m.
Proof.
  unfold _find_fuzzy_duplicates. intros I. apply in_flat_map in I.
  destruct I as ([job1 job2] & P & I).
  destruct (Qle_bool _ _); [|contradiction]. destruct I as [<-|[]].
  now apply (pairs_later df job1 job2).
Qed.

Lemma pairs_combine_seq {A} (l : list A) : forall n i j (x y : A),
  In ((i, x), (j, y)) (pairs (combine (seq n (length l)) l)) ->
  In (x, y) (pairs l).
Proof.
  induction l as [|a l IH]; intros n i j x y; simpl; [tauto|].
  rewrite !in_app_iff, !in_map_iff.
  intros [(w & E & I)|I].
  - inversion E; subst. left. exists y. split; auto.
    now apply in_combine_r in I.
  - right. eapply IH; eauto.
Qed.

Lemma semantic_later tfidf_cosine config df m :
  In m (_find_semantic_duplicates tfidf_cosine config df) ->
  pairs_later_row df m.
Proof.
  unfold _find_semantic_duplicates.
  destruct (negb (enable_advanced_matching config)); [contradiction|].
  destruct (negb (existsb _ _)); [contradiction|].
  destruct (tfidf_cosine _) as [sims|]; [|contradiction].
  intros I. apply in_flat_map in I.
  destruct I as ([[i job1] [j job2]] & P & I).
  destruct (Qle_bool _ _); [|contradiction]. destruct I as [<-|[]].
  apply pairs_combine_seq in P. now apply (pairs_later df job1 job2).
Qed.

Lemma cross_source_later config df m :
  In m (_find_cross_source_duplicates config df) -> pairs_later_row df m.
Proof.
  intros I. apply cross_source_spec in I.
  destruct I as (job1 & job2 & n1 & n2 & I1 & I2 & S1 & S2 & N & F & _ & ->).
  exists job1, job2. repeat split; auto.
  - destruct (rows df) as [|first rest] eqn:R; [contradiction|].
    destruct I2 as [<-|I2]; auto.
    exfalso. now apply (F _ _ eq_refl).
  - intros ND. apply in_tail_distinct with (df := df); auto.
    intros ->. congruence.
Qed.

(** No strategy names the first row as the second member of a pair; where
    the ids are distinct, none pairs a row with itself. *)
Lemma strategy_later tfidf_cosine config df m :
  In m (all_matches (strategy_results tfidf_cosine config df)) ->
  pairs_later_row df m.
Proof.
  unfold all_matches, methods, strategy_results. simpl.
  rewrite !in_app_iff. intros [I|[I|[I|[I|[]]]]].
  - now apply exact_later.
  - now apply fuzzy_later in I.
  - now apply semantic_later in I.
  - now apply cross_source_later in I.
Qed.

End PairingFacts.

(** ** The set of removals *)

Module RemovalFacts.
Import ResolverFacts.

Lemma find_job_cases jobs_data i :
  (exists job, find_job jobs_data i = Ok job /\ In job jobs_data
               /\ raw_id job = i)
  \/ (find_job jobs_data i = Raise StopIteration
      /\ ~ In i (job_ids jobs_data)).
Proof.
  unfold find_job, job_ids.
  destruct (find _ jobs_data) as [job|] eqn:F.
  - left. exists job. apply find_some in F. destruct F as [I E].
    apply String.eqb_eq in E. auto.
  - right. split; auto. intros I. apply in_map_iff in I.
    destruct I as (job & E & I).
    apply (find_none _ _ F) in I. rewrite E, String.eqb_refl in I.
    discriminate.
Qed.

Lemma find_job_known jobs_data i :
  In i (job_ids jobs_data) ->
  exists job, find_job jobs_data i = Ok job /\ In job jobs_data
              /\ raw_id job = i.
Proof.
  intros I. destruct (find_job_cases jobs_data i) as [H|[_ N]]; tauto.
Qed.

Lemma find_job_cases_known jobs_data i job :
  find_job jobs_data i = Ok job -> In i (job_ids jobs_data).
Proof.
  intros F. destruct (find_job_cases jobs_data i) as [(j & _ & I & E)|[G _]].
  - subst. unfold job_ids. now apply in_map.
  - congruence.
Qed.

Lemma keep_jobs_In removed jobs_data job :
  In job (keep_jobs removed jobs_data) <->
  In job jobs_data /\ ~ In (raw_id job) removed.
Proof.
  unfold keep_jobs. rewrite filter_In, negb_true_iff. split.
  - intros [I E]. split; auto. intros R.
    assert (T : existsb (String.eqb (raw_id job)) removed = true).
    { apply existsb_exists. exists (raw_id job). split; auto.
      apply String.eqb_refl. }
    congruence.
  - intros [I N]. split; auto.
    destruct (existsb _ removed) eqn:E; auto.
    apply existsb_exists in E. destruct E as (x & R & E).
    apply String.eqb_eq in E. subst. contradiction.
Qed.

Lemma filter_all {A} (f : A -> bool) l :
  (forall x, In x l -> f x = true) -> filter f l = l.
Proof.
  induction l as [|a l IH]; intros H; [reflexivity|]. simpl.
  rewrite (H a) by now left. f_equal. apply IH. intros x I. apply H. now right.
Qed.

Lemma keep_jobs_nil jobs_data : keep_jobs [] jobs_data = jobs_data.
Proof. apply filter_all. reflexivity. Qed.

Lemma remove_duplicates_eq config jobs_data duplicates strategy :
  remove_duplicates config jobs_data duplicates strategy
  = (jobs_to_remove <-
       removal_loop config jobs_data strategy duplicates [] ;;
     Ok (keep_jobs jobs_to_remove jobs_data)).
Proof. reflexivity. Qed.

(** [keep_first] collects the second id of every confident match. *)
Lemma removal_loop_keep_first config jobs_data : forall duplicates acc,
  removal_loop config jobs_data "keep_first" duplicates acc
  = Ok (rev (map job2_id (filter (confident config) duplicates)) ++ acc).
Proof.
  induction duplicates as [|dup rest IH]; intros acc; [reflexivity|].
  simpl. unfold removal_step. fold (confident config dup).
  destruct (confident config dup); simpl; rewrite IH; auto.
  now rewrite <- app_assoc.
Qed.

(** Matches below the confidence bar leave the set as it is, whatever the
    policy. *)
Lemma removal_loop_low config jobs_data strategy : forall duplicates acc,
  (forall dup, In dup duplicates -> confident config dup = false) ->
  removal_loop config jobs_data strategy duplicates acc = Ok acc.
Proof.
  induction duplicates as [|dup rest IH]; intros acc L; [reflexivity|].
  simpl. unfold removal_step. fold (confident config dup).
  rewrite (L dup) by now left. simpl. apply IH. intros d I. apply L. now right.
Qed.

(** [keep_best_source] on matches whose records are all found. *)
Lemma removal_loop_best_source config jobs_data : forall duplicates acc,
  (forall dup, In dup duplicates -> confident config dup = true ->
               records_known jobs_data dup) ->
  exists removed,
    removal_loop config jobs_data "keep_best_source" duplicates acc = Ok removed
    /\ forall i,
         In i removed <->
         In i acc
         \/ exists dup job1 job2,
              In dup duplicates /\ confident config dup = true
              /\ find_job jobs_data (job1_id dup) = Ok job1
              /\ find_job jobs_data (job2_id dup) = Ok job2
              /\ i = lower_priority job1 job2 dup.
Proof.
  induction duplicates as [|dup rest IH]; intros acc K.
  - exists acc. split; [reflexivity|]. intros i. split; auto.
    intros [H|(d & _ & _ & [] & _)]; auto.
  - simpl. unfold removal_step. fold (confident config dup).
    assert (K' : forall d, In d rest -> confident config d = true ->
                           records_known jobs_data d)
      by (intros d I; apply K; now right).
    destruct (confident config dup) eqn:C.
    + destruct (K dup (or_introl eq_refl) C) as [K1 K2].
      destruct (find_job_known _ _ K1) as (job1 & F1 & _).
      destruct (find_job_known _ _ K2) as (job2 & F2 & _).
      change (String.eqb "keep_best_source" "keep_first") with false.
      change (String.eqb "keep_best_source" "keep_best_source") with true.
      cbv iota. rewrite F1, F2. cbn [bind].
      destruct (IH (lower_priority job1 job2 dup :: acc) K')
        as (removed & E & S).
      exists removed. split.
      * unfold lower_priority in E.
        destruct (source_priority job1 <=? source_priority job2); exact E.
      * intros i. rewrite S. simpl. split.
        -- intros [[<-|H]|(d & j1 & j2 & I & Cd & G1 & G2 & ->)]; auto.
           ++ right. exists dup, job1, job2. repeat split; auto.
           ++ right. exists d, j1, j2. repeat split; auto.
        -- intros [H|(d & j1 & j2 & [<-|I] & Cd & G1 & G2 & ->)]; auto.
           ++ left. left. congruence.
           ++ right. exists d, j1, j2. repeat split; auto.
    + simpl. destruct (IH acc K') as (removed & E & S).
      exists removed. split; [exact E|].
      intros i. rewrite S. split.
      * intros [H|(d & j1 & j2 & I & Cd & G1 & G2 & ->)]; auto.
        right. exists d, j1, j2. repeat split; auto.
      * intros [H|(d & j1 & j2 & [<-|I] & Cd & G1 & G2 & ->)]; auto;
          [congruence|].
        right. exists d, j1, j2. repeat split; auto.
Qed.

(** [keep_best_source] stops with [StopIteration] at a confident match
    one of whose records is not found. *)
Lemma removal_loop_best_source_raises config jobs_data :
  forall duplicates acc,
  (exists dup, In dup duplicates /\ confident config dup = true
               /\ ~ records_known jobs_data dup) ->
  removal_loop config jobs_data "keep_best_source" duplicates acc
  = Raise StopIteration.
Proof.
  induction duplicates as [|dup rest IH]; intros acc (d & I & C & N);
    [contradiction|].
  simpl. unfold removal_step. fold (confident config dup).
  change (String.eqb "keep_best_source" "keep_first") with false.
  change (String.eqb "keep_best_source" "keep_best_source") with true.
  cbv iota.
  destruct (confident config dup) eqn:Cd.
  - destruct (find_job_cases jobs_data (job1_id dup))
      as [(job1 & F1 & _ & E1)|[F1 N1]]; rewrite F1; [|reflexivity].
    destruct (find_job_cases jobs_data (job2_id dup))
      as [(job2 & F2 & _ & E2)|[F2 N2]]; rewrite F2; [|reflexivity].
    cbn [bind].
    assert (R : exists d, In d rest /\ confident config d = true
                          /\ ~ records_known jobs_data d).
    { destruct I as [<-|I]; [|eauto]. exfalso. apply N.
      apply find_job_cases_known in F1, F2. now split. }
    destruct (source_priority job1 <=? source_priority job2); now apply IH.
  - simpl. apply IH. destruct I as [<-|I]; [congruence | eauto].
Qed.

Lemma confident_false config dup :
  confident config dup = false <-> (confidence dup < min_confidence config)%Q.
Proof.
  unfold confident. split.
  - intros E. apply Qnot_le_lt. intros L. apply Qle_bool_iff in L. congruence.
  - intros L. destruct (Qle_bool _ _) eqn:E; auto.
    apply Qle_bool_iff in E. exfalso. now apply (Qlt_not_le _ _ L).
Qed.

Lemma keep_first_removed config i duplicates :
  existsb (String.eqb i)
    (rev (map job2_id (filter (confident config) duplicates)) ++ [])
  = existsb (fun dup => confident config dup && String.eqb i (job2_id dup))
      duplicates.
Proof.
  apply Bool.eq_iff_eq_true. rewrite !existsb_exists. split.
  - intros (x & I & E). rewrite app_nil_r in I. apply in_rev in I.
    apply in_map_iff in I. destruct I as (dup & <- & I).
    apply filter_In in I. destruct I as [I C].
    exists dup. split; auto. now rewrite C.
  - intros (dup & I & E). apply andb_true_iff in E. destruct E as [C E].
    exists (job2_id dup). split; auto.
    rewrite app_nil_r. apply -> in_rev. apply in_map.
    apply filter_In. auto.
Qed.

End RemovalFacts.

(** ** From the records to the cleaned list *)

Module WorkflowFacts.
Import PairFacts ConsolidateFacts ScorerFacts FrameFacts PairingFacts
       RemovalFacts.

Lemma nth_error_combine_map {A B} (g : A -> B) : forall (l : list A) i x,
  nth_error l i = Some x ->
  nth_error (combine (map g l) l) i = Some (g x, x).
Proof.
  induction l as [|a l IH]; intros [|i] x H; simpl in *; try discriminate.
  - now inversion H.
  - now apply IH.
Qed.

(** Row [i] of the frame is built from record [i]. *)
Lemma preprocess_rows md5 jobs_data df :
  _preprocess_data md5 jobs_data = Ok df ->
  forall i job, nth_error jobs_data i = Some job ->
  exists row,
    nth_error (rows df) i = Some row
    /\ job_id row = raw_id job
    /\ title_clean row = Some (_clean_text (fillna (raw_title job)))
    /\ company_clean row = Some (_clean_text (fillna (raw_company job)))
    /\ location_clean row = clean_column raw_location jobs_data job
    /\ description_clean row = clean_column raw_description jobs_data job
    /\ title_normalized row = option_map _normalize_text (title_clean row)
    /\ company_normalized row
       = option_map _normalize_company_name (company_clean row)
    /\ source row = raw_source job
    /\ fingerprint row
       = _generate_fingerprint md5 (title_normalized row)
           (company_normalized row) (location_clean row).
Proof.
  unfold _preprocess_data. intros P i job N.
  destruct (has_column raw_title jobs_data) eqn:Ht; [|discriminate].
  destruct (has_column raw_company jobs_data) eqn:Hc; [|discriminate].
  rewrite (has_column_nonempty _ _ Ht) in P. simpl in P.
  inversion P; subst df; clear P. cbn [rows].
  pose proof (nth_error_combine_map raw_id _ _ _ N) as Q.
  match goal with
  | |- exists row, nth_error (map ?f _) _ = _ /\ _ =>
      apply (map_nth_error f) in Q; exists (f (raw_id job, job))
  end.
  split; [exact Q|].
  unfold clean_column. rewrite Ht, Hc. cbn. repeat split; reflexivity.
Qed.

Lemma preprocess_columns md5 jobs_data df :
  _preprocess_data md5 jobs_data = Ok df ->
  has_column raw_title jobs_data = true
  /\ has_column raw_company jobs_data = true.
Proof.
  unfold _preprocess_data.
  destruct (has_column raw_title jobs_data); [|discriminate].
  destruct (has_column raw_company jobs_data); [|discriminate]. auto.
Qed.

(** Only the exact strategy is certain. *)
Lemma non_exact_confidence_lt_1 tfidf_cosine config df m :
  cosine_range tfidf_cosine ->
  In m (_find_fuzzy_duplicates config df
        ++ _find_semantic_duplicates tfidf_cosine config df
        ++ _find_cross_source_duplicates config df) ->
  (confidence m < 1)%Q.
Proof.
  intros C I. rewrite !in_app_iff in I. destruct I as [I|[I|I]].
  - unfold _find_fuzzy_duplicates in I. apply in_flat_map in I.
    destruct I as ([job1 job2] & _ & I).
    destruct (Qle_bool _ _); [|contradiction].
    destruct I as [<-|[]]. simpl.
    apply Qle_lt_trans with 0.95%Q; [apply py_min_le_r | reflexivity].
  - unfold _find_semantic_duplicates in I.
    destruct (negb (enable_advanced_matching config)); [contradiction|].
    destruct (negb (existsb _ _)); [contradiction|].
    destruct (tfidf_cosine _) as [sims|] eqn:E; [|contradiction].
    apply in_flat_map in I. destruct I as ([[i job1] [j job2]] & _ & I).
    destruct (Qle_bool _ _); [|contradiction].
    destruct I as [<-|[]]. simpl.
    apply (discount_lt_1 (entry sims i j) 0.8 (C _ _ i j E));
      [discriminate | reflexivity].
  - apply cross_source_spec in I.
    destruct I as (job1 & job2 & n1 & n2 & _ & _ & _ & _ & _ & _ & _ & ->).
    simpl.
    apply (discount_lt_1 (_calculate_cross_source_similarity job1 job2) 0.9
             (cross_source_similarity_bounds job1 job2));
      [discriminate | reflexivity].
Qed.

(** An exact match keeps its place: the entry that consolidation holds
    for its pair is an exact one. *)
Lemma exact_survives tfidf_cosine config df out d :
  cosine_range tfidf_cosine ->
  _consolidate_duplicates (strategy_results tfidf_cosine config df) = Ok out ->
  In d (_find_exact_duplicates df) ->
  exists e,
    In e out /\ same_pair d e /\ In e (_find_exact_duplicates df).
Proof.
  intros C K D.
  set (results := strategy_results tfidf_cosine config df) in *.
  destruct (consolidate_result results) as (all & sp & E & [ND SE AL BE]).
  simpl in ND, SE, AL, BE.
  assert (out = sort_by_confidence all) by congruence. subst out.
  assert (Dall : In d (all_matches results)).
  { unfold all_matches, methods, results, strategy_results. simpl.
    apply in_app_iff. now left. }
  pose proof (AL d Dall) as I. unfold keys in I. apply in_map_iff in I.
  destruct I as (e & Ke & Ie).
  assert (S : same_pair d e) by (apply pair_key_same; now symmetry).
  exists e. split; [|split; [exact S|]].
  - eapply Permutation_in; [symmetry; apply sort_by_confidence_perm | exact Ie].
  - assert (Cd : (confidence d == 1)%Q).
    { apply exact_duplicates_spec in D.
      destruct D as (j1 & j2 & _ & _ & ->). reflexivity. }
    destruct (BE e Ie) as (l1 & l2 & A & B1 & B2).
    assert (Ee : In e (all_matches results))
      by (rewrite A; apply in_app_iff; right; now left).
    unfold all_matches, methods, results, strategy_results in Ee.
    simpl in Ee. rewrite app_nil_r in Ee.
    apply in_app_iff in Ee. destruct Ee as [Ee|Ee]; [exact Ee|].
    exfalso.
    pose proof (non_exact_confidence_lt_1 _ _ _ _ C Ee) as L.
    rewrite A in Dall. apply in_app_iff in Dall.
    destruct Dall as [Dl|[De|Dl]].
    + specialize (B1 d Dl S). rewrite Cd in B1.
      apply (Qlt_irrefl 1). now apply Qlt_trans with (confidence e).
    + subst e. rewrite Cd in L. now apply (Qlt_irrefl 1).
    + specialize (B2 d Dl S). rewrite Cd in B2.
      apply (Qlt_irrefl 1). now apply Qle_lt_trans with (confidence e).
Qed.

(** Whatever the policy, the loop returns when the records of the
    confident matches are found, and removes ids of such matches only. *)
Lemma removal_loop_total config jobs_data strategy duplicates :
  (forall dup, In dup duplicates -> confident config dup = true ->
               records_known jobs_data dup) ->
  exists removed,
    removal_loop config jobs_data strategy duplicates [] = Ok removed
    /\ forall i, In i removed ->
         exists dup, In dup duplicates /\ confident config dup = true
                     /\ (i = job1_id dup \/ i = job2_id dup).
Proof.
  intros K.
  destruct (String.eqb_spec strategy "keep_first") as [->|N1].
  - eexists. split; [apply removal_loop_keep_first|].
    intros i I. rewrite app_nil_r in I. apply in_rev in I.
    apply in_map_iff in I. destruct I as (dup & <- & I).
    apply filter_In in I. destruct I as [I C]. exists dup. auto.
  - destruct (String.eqb_spec strategy "keep_best_source") as [->|N2].
    + destruct (removal_loop_best_source config jobs_data duplicates [] K)
        as (removed & E & S).
      exists removed. split; [exact E|].
      intros i I. apply S in I.
      destruct I as [[]|(dup & j1 & j2 & I & C & _ & _ & ->)].
      exists dup. repeat split; auto. unfold lower_priority.
      destruct (_ <=? _); auto.
    + exists []. split; [now apply ResolverFacts.removal_loop_unknown | intros i []].
Qed.

(** The two policies that remove anything remove one record of every
    confident match. *)
Lemma removal_hits config jobs_data strategy duplicates e :
  strategy = "keep_first"%string \/ strategy = "keep_best_source"%string ->
  (forall dup, In dup duplicates -> confident config dup = true ->
               records_known jobs_data dup) ->
  In e duplicates -> confident config e = true ->
  exists removed,
    removal_loop config jobs_data strategy duplicates [] = Ok removed
    /\ (In (job1_id e) removed \/ In (job2_id e) removed).
Proof.
  intros [->| ->] K I C.
  - eexists. split; [apply removal_loop_keep_first|].
    right. rewrite app_nil_r. apply -> in_rev. apply in_map.
    apply filter_In. auto.
  - destruct (removal_loop_best_source config jobs_data duplicates [] K)
      as (removed & E & S).
    exists removed. split; [exact E|].
    destruct (K e I C) as [K1 K2].
    destruct (find_job_known _ _ K1) as (job1 & F1 & _).
    destruct (find_job_known _ _ K2) as (job2 & F2 & _).
    assert (H : In (lower_priority job1 job2 e) removed).
    { apply S. right. exists e, job1, job2. repeat split; auto. }
    unfold lower_priority in H. destruct (_ <=? _); auto.
Qed.

(** The workflow step, once detection has returned. *)
Lemma handle_duplicates_ok md5 tfidf_cosine strategy jobs_data :
  has_column raw_title jobs_data = true ->
  has_column raw_company jobs_data = true ->
  exists df a removed,
    _preprocess_data md5 jobs_data = Ok df
    /\ detect_duplicates md5 tfidf_cosine _default_config jobs_data = Ok a
    /\ _consolidate_duplicates (strategy_results tfidf_cosine _default_config df)
       = Ok (consolidated_duplicates a)
    /\ row_ids df = job_ids jobs_data
    /\ (forall dup, In dup (consolidated_duplicates a) ->
                    records_known jobs_data dup)
    /\ removal_loop _default_config jobs_data strategy
         (consolidated_duplicates a) [] = Ok removed
    /\ _handle_duplicates md5 tfidf_cosine strategy jobs_data
       = Ok (keep_jobs removed jobs_data, a)
    /\ forall i, In i removed ->
         exists dup, In dup (consolidated_duplicates a)
                     /\ confident _default_config dup = true
                     /\ (i = job1_id dup \/ i = job2_id dup).
Proof.
  intros T C.
  destruct (detect_duplicates_ok md5 tfidf_cosine _default_config jobs_data T C)
    as (df & a & P & D & M & K & _ & _).
  destruct (preprocess_data_ok md5 jobs_data T C) as (df' & P' & I & _).
  assert (df' = df) by congruence. subst df'.
  assert (Known : forall dup, In dup (consolidated_duplicates a) ->
                              records_known jobs_data dup).
  { intros dup H. apply (consolidate_subset _ _ _ K) in H. rewrite M in H.
    apply strategy_ids_known in H. destruct H as [H1 H2].
    unfold records_known, job_ids. rewrite <- I. now split. }
  destruct (removal_loop_total _default_config jobs_data strategy
              (consolidated_duplicates a) (fun dup H _ => Known dup H))
    as (removed & R & S).
  exists df, a, removed. rewrite <- M. repeat split; auto;
    try (now apply Known).
  unfold _handle_duplicates. rewrite D. cbn [bind].
  rewrite remove_duplicates_eq, R. reflexivity.
Qed.

End WorkflowFacts.

(** ** Rows with the same cells, and the confidence bar *)

Module IdenticalFacts.
Import ConsolidateFacts ScorerFacts SelfMatchFacts.

Lemma add_field_full w x acc :
  (0 <= w)%Q -> full_totals acc -> full_totals (add_field w x x acc).
Proof.
  intros W [E P]. destruct x as [s|]; simpl; [|now split].
  split; simpl.
  - rewrite ratio_self, Qmult_1_l, E. reflexivity.
  - rewrite <- (Qplus_0_r 0). now apply Qplus_lt_le_compat.
Qed.

Lemma weighted_full acc : full_totals acc -> (weighted acc == 1)%Q.
Proof.
  intros [E P]. unfold weighted.
  apply Qltb_lt in P. rewrite P. rewrite E.
  apply Qmult_inv_r. apply Qltb_lt in P. intros Z. rewrite Z in P.
  now apply (Qlt_irrefl 0).
Qed.

(** Two rows with the same compared cells score 1. *)
Lemma fuzzy_similarity_identical config job1 job2 t :
  weights_nonneg config -> (0 < weight_title config)%Q ->
  title_clean job1 = Some t -> title_clean job2 = Some t ->
  company_normalized job1 = company_normalized job2 ->
  location_clean job1 = location_clean job2 ->
  description_clean job1 = description_clean job2 ->
  (_calculate_fuzzy_similarity config job1 job2 == 1)%Q.
Proof.
  intros (_ & Wc & Wl & Wd) Wt T1 T2 C L D.
  unfold _calculate_fuzzy_similarity. rewrite T1, T2, C, L, D.
  apply weighted_full.
  do 3 (apply add_field_full; [assumption|]).
  split; simpl.
  - rewrite ratio_self, Qmult_1_l. reflexivity.
  - now rewrite Qplus_0_l.
Qed.

Lemma py_min_cap s : (s == 1)%Q -> py_min s 0.95 = 0.95%Q.
Proof.
  intros E. unfold py_min. destruct (Qltb 0.95 s) eqn:L; [reflexivity|].
  apply Qltb_ge in L. rewrite E in L. exfalso. now apply L.
Qed.

Lemma fuzzy_similarity_bounds config job1 job2 :
  weights_nonneg config ->
  (0 <= _calculate_fuzzy_similarity config job1 job2 <= 1)%Q.
Proof.
  intros (Wt & Wc & Wl & Wd). unfold _calculate_fuzzy_similarity.
  apply weighted_bounds.
  repeat apply add_field_ok; auto.
  split; simpl; apply Qle_refl.
Qed.

Lemma py_min_ge x y z : (z <= x)%Q -> (z <= y)%Q -> (z <= py_min x y)%Q.
Proof. intros X Y. unfold py_min. now destruct (Qltb y x). Qed.

(** With the default thresholds, a semantic match reaches the confidence
    bar from the score 0.75 on. *)
Lemma semantic_bar s :
  Qle_bool 0.6 (s * 0.8) = true <-> (0.75 <= s)%Q.
Proof.
  rewrite Qle_bool_iff. split.
  - intros H. apply Qnot_lt_le. intros L.
    apply (Qmult_lt_compat_r _ _ 0.8) in L; [|reflexivity].
    apply (Qlt_irrefl 0.6).
    apply Qle_lt_trans with (s * 0.8)%Q; auto.
    apply Qlt_le_trans with (0.75 * 0.8)%Q; [exact L | discriminate].
  - intros H. apply (Qmult_le_compat_r _ _ 0.8) in H; [|discriminate].
    apply Qle_trans with (0.75 * 0.8)%Q; [discriminate | exact H].
Qed.

End IdenticalFacts.

(** ** The summary *)

Module SummaryFacts.
Import FrameFacts.

Lemma confidence_distribution_total duplicates :
  buckets (_get_confidence_distribution duplicates) = length duplicates.
Proof.
  unfold _get_confidence_distribution.
  assert (G : forall l acc,
    buckets (fold_left
               (fun acc dup =>
                  let '(high, medium, low) := acc in
                  if Qle_bool 0.8 (confidence dup) then (S high, medium, low)
                  else if Qle_bool 0.6 (confidence dup)
                       then (high, S medium, low)
                       else (high, medium, S low)) l acc)
    = buckets acc + length l).
  { induction l as [|d l IH]; intros [[h m] lo]; simpl; [lia|].
    rewrite IH. destruct (Qle_bool 0.8 _); [simpl; lia|].
    destruct (Qle_bool 0.6 _); simpl; lia. }
  now rewrite G.
Qed.

Lemma counted_bump t : forall acc,
  existsb (fun e : string * nat => String.eqb (fst e) t) acc = true ->
  NoDup (map fst acc) ->
  counted (map (fun e : string * nat =>
                  if String.eqb (fst e) t then (fst e, S (snd e)) else e) acc)
  = S (counted acc)
  /\ map fst (map (fun e : string * nat =>
                     if String.eqb (fst e) t then (fst e, S (snd e)) else e)
                  acc)
     = map fst acc.
Proof.
  unfold counted.
  induction acc as [|[k n] acc IH]; simpl; [discriminate|].
  intros E ND. inversion ND as [|? ? NI ND']; subst.
  destruct (String.eqb_spec k t) as [->|N]; simpl.
  - assert (F : map (fun e : string * nat =>
                       if String.eqb (fst e) t then (fst e, S (snd e)) else e)
                    acc = acc).
    { clear -NI. induction acc as [|[k n] acc IH]; [reflexivity|]. simpl in *.
      destruct (String.eqb_spec k t) as [->|N]; [tauto|].
      f_equal. apply IH. tauto. }
    rewrite F. auto.
  - destruct (IH E ND') as [I1 I2]. rewrite I1, I2. split; auto; lia.
Qed.

(** Every match is counted once, under its type. *)
Lemma match_type_distribution_total duplicates :
  counted (_get_match_type_distribution duplicates) = length duplicates
  /\ NoDup (map fst (_get_match_type_distribution duplicates)).
Proof.
  unfold _get_match_type_distribution.
  assert (G : forall l acc, NoDup (map fst acc) ->
    counted (fold_left
               (fun acc dup =>
                  if existsb (fun e : string * nat =>
                                String.eqb (fst e) (match_type dup)) acc
                  then map (fun e : string * nat =>
                              if String.eqb (fst e) (match_type dup)
                              then (fst e, S (snd e)) else e) acc
                  else acc ++ [(match_type dup, 1)]) l acc)
    = counted acc + length l
    /\ NoDup (map fst
               (fold_left
                  (fun acc dup =>
                     if existsb (fun e : string * nat =>
                                   String.eqb (fst e) (match_type dup)) acc
                     then map (fun e : string * nat =>
                                 if String.eqb (fst e) (match_type dup)
                                 then (fst e, S (snd e)) else e) acc
                     else acc ++ [(match_type dup, 1)]) l acc))).
  { induction l as [|d l IH]; intros acc ND; simpl; [split; [lia | exact ND]|].
    destruct (existsb _ acc) eqn:E.
    - destruct (counted_bump (match_type d) acc E ND) as [C1 C2].
      destruct (IH _ (eq_ind_r (fun l => NoDup l) ND C2)) as [I1 I2].
      split; [rewrite I1, C1; lia | exact I2].
    - assert (ND' : NoDup (map fst (acc ++ [(match_type d, 1)]))).
      { rewrite map_app. simpl. apply NoDup_app; auto.
        - repeat constructor. intros [].
        - intros x I [<-|[]]. apply in_map_iff in I.
          destruct I as ([k n] & Hk & I). simpl in Hk.
          apply (PairingFacts.existsb_false _ _ _ E) in I. simpl in I.
          now rewrite Hk, String.eqb_refl in I. }
      destruct (IH _ ND') as [I1 I2]. split; [|exact I2].
      rewrite I1. unfold counted. rewrite map_app, list_sum_app. simpl. lia. }
  destruct (G duplicates [] (NoDup_nil _)) as [G1 G2]. split; auto.
Qed.

Lemma dedup_In x : forall l, In x (dedup l) <-> In x l.
Proof.
  induction l as [|a l IH]; simpl; [tauto|].
  destruct (existsb (String.eqb a) l) eqn:E.
  - rewrite IH. split; auto. intros [<-|I]; auto.
    apply existsb_exists in E. destruct E as (y & I & E).
    apply String.eqb_eq in E. now subst.
  - simpl. now rewrite IH.
Qed.

Lemma dedup_NoDup : forall l, NoDup (dedup l).
Proof.
  induction l as [|a l IH]; simpl; [constructor|].
  destruct (existsb (String.eqb a) l) eqn:E; auto.
  constructor; auto. rewrite dedup_In. intros I.
  apply (PairingFacts.existsb_false _ _ _ E) in I.
  now rewrite String.eqb_refl in I.
Qed.

Lemma dedup_length : forall l, length (dedup l) <= length l.
Proof.
  induction l as [|a l IH]; simpl; auto.
  destruct (existsb (String.eqb a) l); simpl; lia.
Qed.

Lemma flat_map_pair_length {A} (f g : A -> string) : forall l,
  length (flat_map (fun x => [f x; g x]) l) = 2 * length l.
Proof. induction l as [|a l IH]; simpl in *; lia. Qed.

(** The fields of a summary that was returned. *)
Lemma generate_summary_fields df duplicates s :
  _generate_summary df duplicates = Ok s ->
  total_jobs s = length (rows df)
  /\ duplicate_pairs s = length duplicates
  /\ unique_jobs_affected s
     = length (dedup (flat_map (fun dup => [job1_id dup; job2_id dup])
                        duplicates))
  /\ confidence_distribution s = _get_confidence_distribution duplicates
  /\ match_type_distribution s = _get_match_type_distribution duplicates
  /\ duplicate_rate s
     = (if 0 <? total_jobs s
        then (Q_of_nat (unique_jobs_affected s) / Q_of_nat (total_jobs s))%Q
        else 0%Q).
Proof.
  unfold _generate_summary. intros E.
  destruct (if source_column df then _ else _) as [stats|e]; simpl in E;
    [|discriminate].
  inversion E; subst s; clear E. simpl. repeat split; reflexivity.
Qed.

Lemma detect_duplicates_summary md5 tfidf_cosine config jobs_data a :
  detect_duplicates md5 tfidf_cosine config jobs_data = Ok a ->
  exists df,
    _preprocess_data md5 jobs_data = Ok df
    /\ _consolidate_duplicates (strategy_results tfidf_cosine config df)
       = Ok (consolidated_duplicates a)
    /\ _generate_summary df (consolidated_duplicates a) = Ok (summary a).
Proof.
  unfold detect_duplicates. intros E.
  destruct (_preprocess_data md5 jobs_data) as [df|e]; [|discriminate].
  cbn [bind] in E. exists df.
  fold (strategy_results tfidf_cosine config df) in E.
  destruct (_consolidate_duplicates _) as [all|e]; [|discriminate].
  cbn [bind] in E.
  destruct (_generate_summary df all) as [s|e] eqn:G; [|discriminate].
  cbn [bind] in E. inversion E; subst a; clear E. simpl. auto.
Qed.

Lemma detect_duplicates_returns_ok md5 tfidf_cosine config jobs_data :
  has_column raw_title jobs_data = true ->
  has_column raw_company jobs_data = true ->
  exists a, detect_duplicates md5 tfidf_cosine config jobs_data = Ok a.
Proof.
  intros T C.
  destruct (detect_duplicates_ok md5 tfidf_cosine config jobs_data T C)
    as (df & a & _ & D & _). eauto.
Qed.

End SummaryFacts.

(** ** The alphabet of a cleaned text *)

Module AlphabetFacts.
Import PyStrFacts NormalizerFacts.

Lemma collapse_ws_go_blank : forall s b,
  Forall (fun c => is_space c = true -> c = " "%char) (collapse_ws_go b s).
Proof.
  induction s as [|c r IH]; intros b; [constructor|]. simpl.
  destruct (is_space c) eqn:S.
  - destruct b; auto.
  - constructor; auto. congruence.
Qed.

Lemma blank_special_blank s :
  Forall (fun c => is_space c = true -> c = " "%char) s ->
  Forall (fun c => is_space c = true -> c = " "%char) (blank_special s).
Proof.
  induction 1 as [|c r Hc _ IH]; simpl; constructor; auto.
  destruct (keep_char c); auto.
Qed.

Lemma clean_text_blank s :
  Forall (fun c => is_space c = true -> c = " "%char) (_clean_text s).
Proof.
  destruct s as [|c r]; [constructor|].
  unfold _clean_text. cbn [is_empty].
  apply blank_special_blank, strip_Forall, collapse_ws_go_blank.
Qed.

Lemma Forall_and {A} (P Q : A -> Prop) l :
  Forall P l -> Forall Q l -> Forall (fun x => P x /\ Q x) l.
Proof. induction 1; intros F; inversion F; subst; constructor; auto. Qed.

Lemma clean_text_alphabet s : Forall clean_char (_clean_text s).
Proof.
  eapply Forall_impl;
    [|apply Forall_and; [apply clean_text_good | apply clean_text_blank]].
  intros c [[L K] B]. split; auto.
  unfold keep_char in K. apply orb_true_iff in K. destruct K as [K|K].
  - apply orb_true_iff in K. destruct K as [K|K]; auto.
  - right. left. now apply Ascii.eqb_eq in K.
Qed.

Lemma lower_is_empty s t : lower s = lower t -> is_empty s = is_empty t.
Proof. destruct s, t; simpl; intros H; congruence. Qed.

Lemma clean_text_case s t : lower s = lower t -> _clean_text s = _clean_text t.
Proof.
  intros E. unfold _clean_text. rewrite (lower_is_empty _ _ E), E. reflexivity.
Qed.

Lemma normalize_company_name_case s t :
  lower s = lower t ->
  _normalize_company_name s = _normalize_company_name t.
Proof.
  intros E. unfold _normalize_company_name.
  rewrite (lower_is_empty _ _ E), E. reflexivity.
Qed.

Lemma normalize_text_words s :
  split (_normalize_text s) = filter keep_word (split s).
Proof.
  rewrite normalize_text_eq. apply split_join.
  apply Forall_filter.
  eapply Forall_impl; [|apply (split_words (fun _ => True))].
  - now intros w [H _].
  - apply Forall_forall. auto.
Qed.

End AlphabetFacts.

(** ** Bounds on the summary *)

Module BoundFacts.
Import DifflibFacts FrameFacts SummaryFacts.

Lemma rate_bounds u t :
  u <= t ->
  (0 <= (if 0 <? t then (Q_of_nat u / Q_of_nat t)%Q else 0%Q) <= 1)%Q.
Proof.
  intros L. destruct (Nat.ltb_spec 0 t) as [P|_]; [|split; discriminate].
  assert (Pt : (0 < Q_of_nat t)%Q).
  { unfold Q_of_nat. change 0%Q with (inject_Z 0). rewrite <- Zlt_Qlt. lia. }
  split.
  - apply Qle_shift_div_l; auto. rewrite Qmult_0_l. apply Q_of_nat_nonneg.
  - apply Qle_shift_div_r; auto. rewrite Qmult_1_l.
    unfold Q_of_nat. rewrite <- Zle_Qle. lia.
Qed.

(** The ids that the matches name are ids of rows, so they are no more
    than the rows. *)
Lemma affected_le_rows df duplicates :
  Forall (ids_known df) duplicates ->
  length (dedup (flat_map (fun dup => [job1_id dup; job2_id dup]) duplicates))
  <= length (rows df).
Proof.
  intros K. rewrite <- (length_map job_id (rows df)).
  apply NoDup_incl_length; [apply dedup_NoDup|].
  intros x I. apply (proj1 (dedup_In x _)) in I. apply in_flat_map in I.
  destruct I as (dup & Id & I).
  apply (proj1 (Forall_forall _ _) K) in Id. destruct Id as [K1 K2].
  destruct I as [<-|[<-|[]]]; assumption.
Qed.

End BoundFacts.

(** ** Reasons, blank rows and the frame of one row *)

Module EdgeFacts.
Import ConsolidateFacts ScorerFacts SelfMatchFacts FrameFacts.

Lemma Qltb_self s : Qltb 0.9 (ratio s s) = true.
Proof. now rewrite (Qltb_compat 0.9 (ratio s s) 1 (ratio_self s)). Qed.

Lemma similarity_reasons_identical job1 job2 t :
  title_clean job1 = Some t -> title_clean job2 = Some t ->
  company_normalized job1 = company_normalized job2 ->
  location_clean job1 = location_clean job2 ->
  _get_similarity_reasons job1 job2 = identical_reasons job2.
Proof.
  intros T1 T2 C L. unfold _get_similarity_reasons, identical_reasons.
  rewrite T1, T2, C, L. cbn [field_ratio]. rewrite Qltb_self.
  destruct (company_normalized job2) as [c|], (location_clean job2) as [l|];
    cbn [field_ratio]; rewrite ?Qltb_self; reflexivity.
Qed.

Lemma add_field_blank w x y acc :
  (blank_cell x /\ filled_cell y) \/ (filled_cell x /\ blank_cell y) ->
  (fst acc == 0)%Q -> (fst (add_field w x y acc) == 0)%Q.
Proof.
  intros B Z. unfold add_field.
  destruct x as [s1|]; [|exact Z]. destruct y as [s2|]; [|exact Z].
  simpl. rewrite Z, Qplus_0_l.
  assert (R : (ratio s1 s2 == 0)%Q).
  { destruct B as [[[B|B] F]|[F [B|B]]]; try discriminate.
    - inversion B; subst. apply ratio_empty_l. now apply F.
    - inversion B; subst. apply ratio_empty_r. now apply F. }
  rewrite R. apply Qmult_0_l.
Qed.

Lemma weighted_zero acc : (fst acc == 0)%Q -> (weighted acc == 0)%Q.
Proof.
  intros Z. unfold weighted. destruct (Qltb 0 (snd acc)); [|reflexivity].
  unfold Qdiv. rewrite Z. apply Qmult_0_l.
Qed.

Lemma fuzzy_similarity_blank config job1 job2 :
  (blank_texts job1 /\ filled_texts job2)
  \/ (filled_texts job1 /\ blank_texts job2) ->
  (_calculate_fuzzy_similarity config job1 job2 == 0)%Q.
Proof.
  intros B. unfold _calculate_fuzzy_similarity. apply weighted_zero.
  repeat apply add_field_blank; try reflexivity;
    destruct B as [[(B1 & B2 & B3 & B4) (F1 & F2 & F3 & F4)]
                  |[(F1 & F2 & F3 & F4) (B1 & B2 & B3 & B4)]]; auto.
Qed.

Lemma cross_source_similarity_blank job1 job2 :
  (blank_texts job1 /\ filled_texts job2)
  \/ (filled_texts job1 /\ blank_texts job2) ->
  (_calculate_cross_source_similarity job1 job2 == 0)%Q.
Proof.
  intros B. unfold _calculate_cross_source_similarity. apply weighted_zero.
  repeat apply add_field_blank; try reflexivity;
    destruct B as [[(B1 & B2 & B3 & B4) (F1 & F2 & F3 & F4)]
                  |[(F1 & F2 & F3 & F4) (B1 & B2 & B3 & B4)]]; auto.
Qed.

(** On a frame of one row no strategy finds a pair. *)
Lemma single_row_strategies tfidf_cosine config df r :
  rows df = [r] -> strategy_results tfidf_cosine config df = no_matches.
Proof.
  intros R. unfold strategy_results, no_matches. f_equal.
  - unfold _find_exact_duplicates, group_keys. rewrite R. simpl.
    now rewrite String.eqb_refl.
  - unfold _find_fuzzy_duplicates. now rewrite R.
  - unfold _find_semantic_duplicates. rewrite R.
    destruct (negb (enable_advanced_matching config)); [reflexivity|].
    destruct (negb (existsb _ _)); [reflexivity|].
    now destruct (tfidf_cosine _).
  - unfold _find_cross_source_duplicates, unique_sources. rewrite R.
    now destruct (negb (source_column df)).
Qed.

Lemma consolidate_length results out :
  _consolidate_duplicates results = Ok out ->
  length out <= length (all_matches results).
Proof.
  intros K.
  destruct (consolidate_result results) as (all & sp & E & [ND _ _ BE]).
  simpl in ND, BE.
  assert (out = sort_by_confidence all) by congruence. subst out.
  rewrite (Permutation_length (sort_by_confidence_perm all)).
  apply NoDup_incl_length.
  - unfold keys in ND. now apply NoDup_map_inv in ND.
  - intros e I. destruct (BE e I) as (l1 & l2 & A & _).
    rewrite A. apply in_app_iff. right. now left.
Qed.

End EdgeFacts.

(** ** Running the resolver on its own output *)

Module RerunFacts.
Import RemovalFacts.

Lemma keep_jobs_idem removed jobs_data :
  keep_jobs removed (keep_jobs removed jobs_data) = keep_jobs removed jobs_data.
Proof.
  unfold keep_jobs at 1. apply filter_all. intros job I.
  apply keep_jobs_In in I. destruct I as [_ N].
  destruct (existsb _ removed) eqn:E; auto.
  apply existsb_exists in E. destruct E as (x & I & E).
  apply String.eqb_eq in E. subst. contradiction.
Qed.

(** When [keep_best_source] has returned, the records of every confident
    match were found. *)
Lemma best_source_known config jobs_data duplicates cleaned :
  remove_duplicates config jobs_data duplicates "keep_best_source" = Ok cleaned ->
  forall dup, In dup duplicates -> confident config dup = true ->
              records_known jobs_data dup.
Proof.
  intros E dup I C.
  destruct (in_dec string_dec (job1_id dup) (job_ids jobs_data)) as [K1|N1];
    destruct (in_dec string_dec (job2_id dup) (job_ids jobs_data)) as [K2|N2];
    [now split | | | ]; exfalso;
    rewrite remove_duplicates_eq, removal_loop_best_source_raises in E;
    try discriminate; exists dup; repeat split; auto; intros [? ?];
    contradiction.
Qed.

Lemma removed_id_gone removed jobs_data i :
  In i removed -> ~ In i (job_ids (keep_jobs removed jobs_data)).
Proof.
  intros R I. unfold job_ids in I. apply in_map_iff in I.
  destruct I as (job & <- & I). apply keep_jobs_In in I. tauto.
Qed.

End RerunFacts.

(** * The claims *)

Import ConsolidateFacts ScorerFacts.


(** C2: every match the exact strategy produces is of type [exact], with
    confidence 1.0 and similarity score 1.0, whatever the frame. *)
Theorem exact_matches_are_certain (df : DataFrame) (m : DuplicateMatch) :
  In m (_find_exact_duplicates df) ->
  match_type m = "exact"%string
  /\ confidence m = 1.0%Q /\ similarity_score m = 1.0%Q
  /\ (confidence m == 1)%Q /\ (similarity_score m == 1)%Q.
Proof.
  unfold _find_exact_duplicates. intros I.
  apply in_flat_map in I. destruct I as (fp & _ & I).
  destruct (1 <? _); [|contradiction].
  apply in_map_iff in I. destruct I as (ij & <- & _). simpl.
  repeat split; reflexivity.
Qed.

Lemma exact_matches_are_certain_witness :
  let m := {| job1_id := "1"; job2_id := "2"; similarity_score := 1.0;
              match_type := "exact";
              reasons := ["identical_fingerprint"%string];
              confidence := 1.0 |} in
  In m (_find_exact_duplicates sample_frame)
  /\ match_type m = "exact"%string
  /\ confidence m = 1.0%Q /\ similarity_score m = 1.0%Q
  /\ (confidence m == 1)%Q /\ (similarity_score m == 1)%Q.
Proof.
  intros m.
  assert (I : In m (_find_exact_duplicates sample_frame)) by (left; reflexivity).
  split; [exact I|].
  exact (exact_matches_are_certain sample_frame m I).
Defined.

(** C3: every match of the fuzzy, the semantic or the cross-source
    strategy carries the confidence of its strategy -- [min(score, 0.95)],
    [score * 0.8], [score * 0.9] -- which is strictly below 1.0 and at
    most the similarity score.  The cosine similarities that
    scikit-learn returns are taken to lie in [0, 1]. *)
Theorem non_exact_confidence_capped
    (tfidf_cosine : list str -> option (list (list Q)))
    (config : Config) (df : DataFrame) (m : DuplicateMatch) :
  cosine_range tfidf_cosine ->
  In m (_find_fuzzy_duplicates config df
        ++ _find_semantic_duplicates tfidf_cosine config df
        ++ _find_cross_source_duplicates config df) ->
  In (match_type m) ["fuzzy"; "semantic"; "cross_source"]%string
  /\ confidence m = strategy_confidence m
  /\ (confidence m < 1)%Q
  /\ (confidence m <= similarity_score m)%Q.
Proof.
  intros C I. rewrite !in_app_iff in I. destruct I as [I|[I|I]].
  - unfold _find_fuzzy_duplicates in I. apply in_flat_map in I.
    destruct I as ([job1 job2] & _ & I).
    destruct (Qle_bool _ _); [|contradiction].
    destruct I as [<-|[]]. simpl. repeat split.
    + now left.
    + apply Qle_lt_trans with 0.95%Q; [apply py_min_le_r | reflexivity].
    + apply py_min_le_l.
  - unfold _find_semantic_duplicates in I.
    destruct (negb (enable_advanced_matching config)); [contradiction|].
    destruct (negb (existsb _ _)); [contradiction|].
    destruct (tfidf_cosine _) as [sims|] eqn:E; [|contradiction].
    apply in_flat_map in I. destruct I as ([[i job1] [j job2]] & _ & I).
    destruct (Qle_bool _ _); [|contradiction].
    destruct I as [<-|[]]. simpl.
    destruct (discount_lt_1 (entry sims i j) 0.8 (C _ _ i j E))
      as [H1 H2]; try reflexivity; try discriminate.
    repeat split; auto; simpl; auto.
  - unfold _find_cross_source_duplicates in I.
    destruct (negb (source_column df)); [contradiction|].
    apply in_flat_map in I. destruct I as ([source1 source2] & _ & I).
    apply in_flat_map in I. destruct I as (job1 & _ & I).
    apply in_flat_map in I. destruct I as (job2 & _ & I).
    destruct (Qle_bool _ _); [|contradiction].
    destruct I as [<-|[]]. simpl.
    destruct (discount_lt_1 (_calculate_cross_source_similarity job1 job2) 0.9
                (cross_source_similarity_bounds job1 job2))
      as [H1 H2]; try reflexivity; try discriminate.
    repeat split; auto; simpl; auto.
Qed.

Lemma sample_cosine_range : cosine_range sample_cosine.
Proof.
  intros texts m i j E. inversion E; subst. unfold entry.
  destruct i as [|[|i]]; destruct j as [|[|j]]; simpl;
    try (destruct i); try (destruct j); split; discriminate.
Defined.

Lemma non_exact_confidence_capped_witness :
  let m := {| job1_id := "1"; job2_id := "2"; similarity_score := 0.75;
              match_type := "semantic";
              reasons := ["semantic_similarity"%string];
              confidence := (0.75 * 0.8)%Q |} in
  cosine_range sample_cosine
  /\ In m (_find_fuzzy_duplicates _default_config sample_pair
           ++ _find_semantic_duplicates sample_cosine _default_config sample_pair
           ++ _find_cross_source_duplicates _default_config sample_pair)
  /\ In (match_type m) ["fuzzy"; "semantic"; "cross_source"]%string
  /\ confidence m = strategy_confidence m
  /\ (confidence m < 1)%Q
  /\ (confidence m <= similarity_score m)%Q.
Proof.
  intros m.
  assert (I : In m (_find_fuzzy_duplicates _default_config sample_pair
           ++ _find_semantic_duplicates sample_cosine _default_config sample_pair
           ++ _find_cross_source_duplicates _default_config sample_pair)).
  { apply in_or_app. right. apply in_or_app. left. left. reflexivity. }
  split; [exact sample_cosine_range|]. split; [exact I|].
  exact (non_exact_confidence_capped sample_cosine _default_config sample_pair m
           sample_cosine_range I).
Defined.

(** C4 does not hold of the code: the weight 0.05 that the configuration
    gives to the salary is never used.  The fuzzy score does not depend
    on the salaries at all; two records alike in title, company,
    location and description, with the salaries ["10"] and ["20"], score
    1, where the weighted combination over the five fields is 39/40. *)
Theorem fuzzy_similarity_ignores_salary :
  (forall config job1 job2 s1 s2,
      _calculate_fuzzy_similarity config (with_salary job1 s1)
        (with_salary job2 s2)
      = _calculate_fuzzy_similarity config job1 job2)
  /\ (_calculate_fuzzy_similarity _default_config (salaried "1" "10")
        (salaried "2" "20") == 1)%Q
  /\ (specified_similarity _default_config (salaried "1" "10")
        (salaried "2" "20") == 39 # 40)%Q.
Proof.
  split; [reflexivity|]. split; vm_compute; reflexivity.
Qed.

(** C5 does not hold of the code: on an empty list the frame has no
    column, and [_preprocess_data], which guards its loop over the text
    fields with [if field in df.columns], reads [df['title_clean']]
    without a guard: [detect_duplicates] raises [KeyError]. *)
Theorem detect_duplicates_empty_raises
    (md5 : str -> string) (tfidf_cosine : list str -> option (list (list Q)))
    (config : Config) :
  detect_duplicates md5 tfidf_cosine config [] = Raise (KeyError "title_clean").
Proof. reflexivity. Qed.

(** C6 does not hold of the code.  [_clean_text] collapses and strips the
    whitespace before it turns the special characters into blanks, so its
    result can end in a blank or hold two in a row, which a second pass
    removes: ["a."] is cleaned to ["a "], and ["a "] to ["a"].  The
    company name fares no better: [_normalize_company_name], applied to
    the cleaned name as the preprocessing does, leaves the two blanks
    around a suffix it has removed, and the cleaner of a second pass
    collapses them: ["Tech Corp Solutions"] gives ["tech  solutions"],
    and that gives ["tech solutions"]. *)
Theorem cleaning_not_idempotent :
  _clean_text (txt "a.") = txt "a "
  /\ _clean_text (txt "a ") = txt "a"
  /\ _clean_text (_clean_text (txt "a.")) <> _clean_text (txt "a.")
  /\ _normalize_company_name (_clean_text (txt "Tech Corp Solutions"))
     = txt "tech  solutions"
  /\ _normalize_company_name (_clean_text (txt "tech  solutions"))
     = txt "tech solutions".
Proof.
  split; [reflexivity|]. split; [reflexivity|].
  split; [vm_compute; discriminate|]. split; reflexivity.
Qed.

(** C7, as stated, fails: [SequenceMatcher.ratio] depends on the order of
    its arguments (0.25 for ["tide"], ["diet"] and 0.5 for ["diet"],
    ["tide"]), and so do both scorers. *)
Lemma scorers_not_symmetric :
  (ratio (txt "tide") (txt "diet") == 0.25)%Q
  /\ (ratio (txt "diet") (txt "tide") == 0.5)%Q
  /\ ~ (_calculate_fuzzy_similarity _default_config tide diet
        == _calculate_fuzzy_similarity _default_config diet tide)%Q
  /\ ~ (_calculate_cross_source_similarity tide diet
        == _calculate_cross_source_similarity diet tide)%Q.
Proof.
  split; [vm_compute; reflexivity|]. split; [vm_compute; reflexivity|].
  split; vm_compute; discriminate.
Qed.

(** C7, amended: the score of two records is the same in both orders
    whenever the library ratio is, on each field the scorer compares:
    title and company for the cross-source scorer, and location and
    description besides for the fuzzy scorer, with any weights. *)
Theorem scorers_symmetric_when_ratio_is (config : Config) (job1 job2 : Row) :
  ratio_sym (title_clean job1) (title_clean job2) ->
  ratio_sym (company_normalized job1) (company_normalized job2) ->
  (_calculate_cross_source_similarity job1 job2
   == _calculate_cross_source_similarity job2 job1)%Q
  /\ (ratio_sym (location_clean job1) (location_clean job2) ->
      ratio_sym (description_clean job1) (description_clean job2) ->
      (_calculate_fuzzy_similarity config job1 job2
       == _calculate_fuzzy_similarity config job2 job1)%Q).
Proof.
  intros T C. split.
  - unfold _calculate_cross_source_similarity. apply weighted_compat.
    repeat (apply add_field_sym; [assumption|]). split; reflexivity.
  - intros L D. unfold _calculate_fuzzy_similarity. apply weighted_compat.
    repeat (apply add_field_sym; [assumption|]). split; reflexivity.
Qed.

Lemma scorers_symmetric_when_ratio_is_witness :
  (ratio_sym (title_clean engineer) (title_clean developer)
   /\ ratio_sym (company_normalized engineer) (company_normalized developer)
   /\ ratio_sym (location_clean engineer) (location_clean developer)
   /\ ratio_sym (description_clean engineer) (description_clean developer)
   /\ (_calculate_fuzzy_similarity _default_config engineer developer
       == _calculate_fuzzy_similarity _default_config developer engineer)%Q
   /\ (_calculate_cross_source_similarity engineer developer
       == _calculate_cross_source_similarity developer engineer)%Q)
  /\ (ratio_sym (title_clean engineer_tide) (title_clean developer_diet)
      /\ ratio_sym (company_normalized engineer_tide)
           (company_normalized developer_diet)
      /\ ~ ratio_sym (location_clean engineer_tide)
             (location_clean developer_diet)
      /\ (_calculate_cross_source_similarity engineer_tide developer_diet
          == _calculate_cross_source_similarity developer_diet engineer_tide)%Q).
Proof.
  assert (T : ratio_sym (title_clean engineer) (title_clean developer))
    by (vm_compute; reflexivity).
  assert (C : ratio_sym (company_normalized engineer)
                (company_normalized developer))
    by (vm_compute; reflexivity).
  assert (L : ratio_sym (location_clean engineer) (location_clean developer))
    by (vm_compute; reflexivity).
  assert (D : ratio_sym (description_clean engineer)
                (description_clean developer))
    by (vm_compute; exact I).
  assert (N : ~ ratio_sym (location_clean engineer_tide)
                  (location_clean developer_diet))
    by (vm_compute; discriminate).
  split.
  - repeat (split; [assumption|]).
    destruct (scorers_symmetric_when_ratio_is _default_config engineer
                developer T C) as [X F].
    split; [exact (F L D) | exact X].
  - split; [exact T|]. split; [exact C|]. split; [exact N|].
    exact (proj1 (scorers_symmetric_when_ratio_is _default_config
                    engineer_tide developer_diet T C)).
Defined.

(** C8, as stated, fails: a policy name that the resolver does not know
    is not reported; the call returns the records, none discarded, where
    [keep_first] discards the second. *)
Lemma unknown_policy_returns_silently :
  remove_duplicates _default_config sample_jobs sample_duplicates "keep_newest"
  = Ok sample_jobs
  /\ remove_duplicates _default_config sample_jobs sample_duplicates "keep_first"
     = Ok (firstn 1 sample_jobs).
Proof. split; reflexivity. Qed.

(** C8, amended: with a policy name other than [keep_first],
    [keep_best_source] and [keep_most_complete] the resolver raises
    nothing and discards nothing; it returns the records it was given,
    in their order. *)
Theorem unknown_policy_keeps_every_record
    (config : Config) (jobs_data : list Job)
    (duplicates : list DuplicateMatch) (strategy : string) :
  strategy <> "keep_first"%string ->
  strategy <> "keep_best_source"%string ->
  strategy <> "keep_most_complete"%string ->
  remove_duplicates config jobs_data duplicates strategy = Ok jobs_data.
Proof.
  intros N1 N2 _. unfold remove_duplicates.
  rewrite ResolverFacts.removal_loop_unknown by assumption. simpl. f_equal.
  induction jobs_data as [|job rest IH]; simpl; congruence.
Qed.

Lemma unknown_policy_keeps_every_record_witness :
  "keep_newest"%string <> "keep_first"%string
  /\ "keep_newest"%string <> "keep_best_source"%string
  /\ "keep_newest"%string <> "keep_most_complete"%string
  /\ remove_duplicates _default_config sample_jobs sample_duplicates
       "keep_newest" = Ok sample_jobs.
Proof.
  assert (N1 : "keep_newest"%string <> "keep_first"%string) by discriminate.
  assert (N2 : "keep_newest"%string <> "keep_best_source"%string)
    by discriminate.
  assert (N3 : "keep_newest"%string <> "keep_most_complete"%string)
    by discriminate.
  repeat (split; [assumption|]).
  exact (unknown_policy_keeps_every_record _default_config sample_jobs
           sample_duplicates "keep_newest" N1 N2 N3).
Defined.





(** * Further properties of the code *)

Import PairFacts FrameFacts PairingFacts RemovalFacts.

(** X1: [detect_duplicates] raises [KeyError] whenever no record has a
    title, or none has a company: [_preprocess_data] reads the columns
    [title_clean] and [company_clean] without the guard it has for the
    other text fields, the title first. *)
Theorem detect_duplicates_missing_column
    (md5 : str -> string) (tfidf_cosine : list str -> option (list (list Q)))
    (config : Config) (jobs_data : list Job) :
  has_column raw_title jobs_data && has_column raw_company jobs_data = false ->
  detect_duplicates md5 tfidf_cosine config jobs_data
  = Raise (KeyError (if has_column raw_title jobs_data
                     then "company_clean" else "title_clean")).
Proof.
  intros H. unfold detect_duplicates, _preprocess_data.
  destruct (has_column raw_title jobs_data); [|reflexivity].
  destruct (has_column raw_company jobs_data); [discriminate | reflexivity].
Qed.

Lemma detect_duplicates_missing_column_witness :
  has_column raw_title titles_only && has_column raw_company titles_only = false
  /\ detect_duplicates sample_md5 sample_cosine _default_config titles_only
     = Raise (KeyError "company_clean").
Proof.
  split; [reflexivity|].
  exact (detect_duplicates_missing_column sample_md5 sample_cosine
           _default_config titles_only eq_refl).
Defined.

(** X2: where some record has a title and some record has a company,
    [detect_duplicates] returns; its summary counts the records given and
    the consolidated pairs, and every consolidated pair names two records
    of the input. *)
Theorem detect_duplicates_returns
    (md5 : str -> string) (tfidf_cosine : list str -> option (list (list Q)))
    (config : Config) (jobs_data : list Job) :
  has_column raw_title jobs_data = true ->
  has_column raw_company jobs_data = true ->
  exists a,
    detect_duplicates md5 tfidf_cosine config jobs_data = Ok a
    /\ total_jobs (summary a) = length jobs_data
    /\ duplicate_pairs (summary a) = length (consolidated_duplicates a)
    /\ forall m, In m (consolidated_duplicates a) -> records_known jobs_data m.
Proof.
  intros T C.
  destruct (detect_duplicates_ok md5 tfidf_cosine config jobs_data T C)
    as (df & a & P & D & M & K & N1 & N2).
  destruct (preprocess_data_ok md5 jobs_data T C) as (df' & P' & I & _).
  assert (df' = df) by congruence. subst df'.
  exists a. repeat split; auto;
    apply (consolidate_subset _ _ _ K) in H; rewrite M in H;
    apply strategy_ids_known in H; destruct H as [H1 H2];
    unfold job_ids; rewrite <- I; assumption.
Qed.

Lemma detect_duplicates_returns_witness :
  exists a,
    detect_duplicates sample_md5 sample_cosine _default_config sample_jobs = Ok a
    /\ total_jobs (summary a) = length sample_jobs
    /\ duplicate_pairs (summary a) = length (consolidated_duplicates a)
    /\ forall m, In m (consolidated_duplicates a) -> records_known sample_jobs m.
Proof.
  exact (detect_duplicates_returns sample_md5 sample_cosine _default_config
           sample_jobs eq_refl eq_refl).
Defined.

(** X3: the exact strategy is sound and complete: it reports a match for
    two rows exactly when they stand at positions [i < j] of the frame
    and carry the same fingerprint, and the match names the earlier row
    first. *)
Theorem exact_duplicates_characterised (df : DataFrame) (m : DuplicateMatch) :
  In m (_find_exact_duplicates df) <->
  exists job1 job2,
    in_order df job1 job2
    /\ fingerprint job1 = fingerprint job2
    /\ m = exact_match_of job1 job2.
Proof.
  rewrite exact_duplicates_spec. split;
    intros (job1 & job2 & I & F & E); exists job1, job2;
    repeat split; auto; now apply in_order_pairs.
Qed.

(** X4: the cross-source strategy only ever pairs two rows whose sources
    are two different names; rows without a source, and rows of one
    source, are never paired by it. *)
Theorem cross_source_pairs_differ_in_source
    (config : Config) (df : DataFrame) (m : DuplicateMatch) :
  In m (_find_cross_source_duplicates config df) ->
  exists job1 job2 name1 name2,
    In job1 (rows df) /\ In job2 (rows df)
    /\ job1_id m = job_id job1 /\ job2_id m = job_id job2
    /\ source job1 = Val name1 /\ source job2 = Val name2
    /\ name1 <> name2.
Proof.
  intros I. apply cross_source_spec in I.
  destruct I as (job1 & job2 & n1 & n2 & I1 & I2 & S1 & S2 & N & _ & _ & ->).
  exists job1, job2, n1, n2. repeat split; auto.
Qed.

Lemma cross_source_pairs_differ_in_source_witness :
  exists m,
    In m (_find_cross_source_duplicates _default_config sample_pair)
    /\ exists job1 job2 name1 name2,
         In job1 (rows sample_pair) /\ In job2 (rows sample_pair)
         /\ job1_id m = job_id job1 /\ job2_id m = job_id job2
         /\ source job1 = Val name1 /\ source job2 = Val name2
         /\ name1 <> name2.
Proof.
  assert (N : exists m l,
             _find_cross_source_duplicates _default_config sample_pair = m :: l).
  { vm_compute. eauto. }
  destruct N as (m & l & E).
  assert (I : In m (_find_cross_source_duplicates _default_config sample_pair))
    by (rewrite E; now left).
  exists m. split; [exact I|].
  exact (cross_source_pairs_differ_in_source _default_config sample_pair m I).
Defined.

(** X5: with [keep_first] the resolver never fails; it drops exactly the
    records whose id is the second id of a match at or above the
    confidence bar, and keeps the others in their order. *)
Theorem keep_first_removes_second_ids
    (config : Config) (jobs_data : list Job) (duplicates : list DuplicateMatch) :
  remove_duplicates config jobs_data duplicates "keep_first"
  = Ok (filter
          (fun job =>
             negb (existsb (fun dup => confident config dup
                                       && String.eqb (raw_id job) (job2_id dup))
                           duplicates))
          jobs_data).
Proof.
  rewrite remove_duplicates_eq, removal_loop_keep_first. simpl. f_equal.
  unfold keep_jobs. apply filter_ext. intros job.
  now rewrite keep_first_removed.
Qed.

(** X6: with [keep_best_source], when both records of every confident
    match are in the list, the resolver returns; it drops exactly the
    records whose id is, for some confident match, the id of the record of
    lower source priority (the second on a tie), and keeps the others in
    their order. *)
Theorem keep_best_source_removes_lower_priority
    (config : Config) (jobs_data : list Job) (duplicates : list DuplicateMatch) :
  (forall dup, In dup duplicates -> confident config dup = true ->
               records_known jobs_data dup) ->
  exists removed,
    remove_duplicates config jobs_data duplicates "keep_best_source"
    = Ok (keep_jobs removed jobs_data)
    /\ forall i,
         In i removed <->
         exists dup job1 job2,
           In dup duplicates /\ confident config dup = true
           /\ find_job jobs_data (job1_id dup) = Ok job1
           /\ find_job jobs_data (job2_id dup) = Ok job2
           /\ i = lower_priority job1 job2 dup.
Proof.
  intros K.
  destruct (removal_loop_best_source config jobs_data duplicates [] K)
    as (removed & E & S).
  exists removed. rewrite remove_duplicates_eq, E. split; [reflexivity|].
  intros i. rewrite S. split; [intros [[]|H]; exact H | auto].
Qed.

Lemma keep_best_source_removes_lower_priority_witness :
  exists removed,
    remove_duplicates _default_config sample_jobs sample_duplicates
      "keep_best_source"
    = Ok (keep_jobs removed sample_jobs)
    /\ forall i,
         In i removed <->
         exists dup job1 job2,
           In dup sample_duplicates /\ confident _default_config dup = true
           /\ find_job sample_jobs (job1_id dup) = Ok job1
           /\ find_job sample_jobs (job2_id dup) = Ok job2
           /\ i = lower_priority job1 job2 dup.
Proof.
  apply (keep_best_source_removes_lower_priority _default_config sample_jobs
           sample_duplicates).
  intros dup [<-|[]] _. split; [left | right; left]; reflexivity.
Defined.

(** X7: with [keep_best_source] the resolver raises [StopIteration] as
    soon as a match at or above the confidence bar names an id that no
    record of the list carries. *)
Theorem keep_best_source_unknown_id_raises
    (config : Config) (jobs_data : list Job) (duplicates : list DuplicateMatch)
    (dup : DuplicateMatch) :
  In dup duplicates -> confident config dup = true ->
  ~ records_known jobs_data dup ->
  remove_duplicates config jobs_data duplicates "keep_best_source"
  = Raise StopIteration.
Proof.
  intros I C N. rewrite remove_duplicates_eq.
  rewrite removal_loop_best_source_raises; [reflexivity | eauto].
Qed.

Lemma keep_best_source_unknown_id_raises_witness :
  In stale_match stale_duplicates
  /\ confident _default_config stale_match = true
  /\ ~ records_known sample_jobs stale_match
  /\ remove_duplicates _default_config sample_jobs stale_duplicates
       "keep_best_source"
     = Raise StopIteration.
Proof.
  assert (I : In stale_match stale_duplicates) by (left; reflexivity).
  assert (C : confident _default_config stale_match = true) by reflexivity.
  assert (N : ~ records_known sample_jobs stale_match)
    by (intros [_ [H|[H|[]]]]; discriminate).
  repeat (split; [assumption|]).
  exact (keep_best_source_unknown_id_raises _default_config sample_jobs
           stale_duplicates stale_match I C N).
Defined.

(** X8: matches that are all below the confidence bar remove nothing,
    whatever the policy: the records come back unchanged. *)
Theorem low_confidence_matches_remove_nothing
    (config : Config) (jobs_data : list Job) (duplicates : list DuplicateMatch)
    (strategy : string) :
  (forall dup, In dup duplicates ->
               (confidence dup < min_confidence config)%Q) ->
  remove_duplicates config jobs_data duplicates strategy = Ok jobs_data.
Proof.
  intros L. rewrite remove_duplicates_eq, removal_loop_low.
  - simpl. now rewrite keep_jobs_nil.
  - intros dup I. apply confident_false. auto.
Qed.

Lemma low_confidence_matches_remove_nothing_witness :
  remove_duplicates _default_config sample_jobs weak_duplicates "keep_first"
  = Ok sample_jobs.
Proof.
  apply (low_confidence_matches_remove_nothing _default_config sample_jobs
           weak_duplicates "keep_first").
  intros dup [<-|[]]. reflexivity.
Defined.

(** X9: the policy [keep_most_complete], which the docstring of
    [remove_duplicates] lists, has no branch in the loop: it removes
    nothing and the records come back unchanged. *)
Theorem keep_most_complete_removes_nothing
    (config : Config) (jobs_data : list Job) (duplicates : list DuplicateMatch) :
  remove_duplicates config jobs_data duplicates "keep_most_complete"
  = Ok jobs_data.
Proof.
  rewrite remove_duplicates_eq.
  rewrite ResolverFacts.removal_loop_unknown by discriminate.
  simpl. now rewrite keep_jobs_nil.
Qed.

Import WorkflowFacts.

(** X10: the workflow step [_handle_duplicates] returns for every policy
    name, as soon as some record has a title and some record has a
    company: the ids that detection reports are ids of records, so the
    lookups of [keep_best_source] succeed.  The cleaned list is the input
    without the records of the removed ids, in the input's order, and
    every removed id belongs to a consolidated match at or above the
    confidence bar. *)
Theorem handle_duplicates_returns
    (md5 : str -> string) (tfidf_cosine : list str -> option (list (list Q)))
    (strategy : string) (jobs_data : list Job) :
  has_column raw_title jobs_data = true ->
  has_column raw_company jobs_data = true ->
  exists a removed,
    detect_duplicates md5 tfidf_cosine _default_config jobs_data = Ok a
    /\ _handle_duplicates md5 tfidf_cosine strategy jobs_data
       = Ok (keep_jobs removed jobs_data, a)
    /\ forall i, In i removed ->
         exists dup, In dup (consolidated_duplicates a)
                     /\ confident _default_config dup = true
                     /\ (i = job1_id dup \/ i = job2_id dup).
Proof.
  intros T C.
  destruct (handle_duplicates_ok md5 tfidf_cosine strategy jobs_data T C)
    as (df & a & removed & _ & D & _ & _ & _ & _ & H & S).
  exists a, removed. auto.
Qed.

Lemma handle_duplicates_returns_witness :
  exists a removed,
    detect_duplicates sample_md5 sample_cosine _default_config sample_jobs = Ok a
    /\ _handle_duplicates sample_md5 sample_cosine "keep_best_source" sample_jobs
       = Ok (keep_jobs removed sample_jobs, a)
    /\ forall i, In i removed ->
         exists dup, In dup (consolidated_duplicates a)
                     /\ confident _default_config dup = true
                     /\ (i = job1_id dup \/ i = job2_id dup).
Proof.
  exact (handle_duplicates_returns sample_md5 sample_cosine "keep_best_source"
           sample_jobs eq_refl eq_refl).
Defined.

(** X11: two records with the same title, company and location never both
    survive the workflow step under [keep_first] or [keep_best_source]:
    their rows share the fingerprint, the exact match of confidence 1.0
    outlives consolidation, and either policy removes one of its two
    ids.  The cosine similarities of scikit-learn are taken to lie in
    [0, 1]. *)
Theorem identical_records_never_both_survive
    (md5 : str -> string) (tfidf_cosine : list str -> option (list (list Q)))
    (strategy : string) (jobs_data : list Job) (i j : nat) (job1 job2 : Job) :
  cosine_range tfidf_cosine ->
  strategy = "keep_first"%string \/ strategy = "keep_best_source"%string ->
  i < j ->
  nth_error jobs_data i = Some job1 -> nth_error jobs_data j = Some job2 ->
  raw_title job1 = raw_title job2 ->
  raw_company job1 = raw_company job2 ->
  raw_location job1 = raw_location job2 ->
  has_column raw_title jobs_data = true ->
  has_column raw_company jobs_data = true ->
  exists cleaned a,
    _handle_duplicates md5 tfidf_cosine strategy jobs_data = Ok (cleaned, a)
    /\ ~ (In job1 cleaned /\ In job2 cleaned).
Proof.
  intros C S L N1 N2 Et Ec El T Co.
  destruct (handle_duplicates_ok md5 tfidf_cosine strategy jobs_data T Co)
    as (df & a & removed & P & D & K & I & Known & R & H & _).
  exists (keep_jobs removed jobs_data), a. split; [exact H|].
  destruct (preprocess_rows md5 jobs_data df P i job1 N1)
    as (row1 & R1 & Id1 & T1 & C1 & L1 & _ & TN1 & CN1 & _ & F1).
  destruct (preprocess_rows md5 jobs_data df P j job2 N2)
    as (row2 & R2 & Id2 & T2 & C2 & L2 & _ & TN2 & CN2 & _ & F2).
  assert (F : fingerprint row1 = fingerprint row2).
  { rewrite F1, F2, TN1, TN2, CN1, CN2, T1, T2, C1, C2, L1, L2, Et, Ec.
    unfold clean_column. now rewrite El. }
  assert (X : In (exact_match_of row1 row2) (_find_exact_duplicates df)).
  { apply exact_duplicates_spec. exists row1, row2. repeat split; auto.
    apply in_order_pairs. exists i, j. auto. }
  destruct (exact_survives tfidf_cosine _default_config df _ _ C K X)
    as (e & Ie & Se & Xe).
  assert (Ce : confident _default_config e = true).
  { apply exact_duplicates_spec in Xe.
    destruct Xe as (r1 & r2 & _ & _ & ->). reflexivity. }
  destruct (removal_hits _default_config jobs_data strategy
              (consolidated_duplicates a) e S
              (fun dup Hd _ => Known dup Hd) Ie Ce) as (removed' & R' & Hit).
  assert (removed' = removed) by congruence. subst removed'.
  intros [In1 In2]. apply keep_jobs_In in In1, In2.
  destruct In1 as [_ Out1], In2 as [_ Out2].
  rewrite <- Id1 in Out1. rewrite <- Id2 in Out2.
  destruct Se as [[E1 E2]|[E1 E2]]; simpl in E1, E2;
    rewrite E1 in Out1; rewrite E2 in Out2; tauto.
Qed.

Lemma identical_records_never_both_survive_witness :
  exists cleaned a,
    _handle_duplicates sample_md5 sample_cosine "keep_best_source" sample_jobs
    = Ok (cleaned, a)
    /\ ~ (In (nth 0 sample_jobs (hd_job sample_jobs)) cleaned
          /\ In (nth 1 sample_jobs (hd_job sample_jobs)) cleaned).
Proof.
  apply (identical_records_never_both_survive sample_md5 sample_cosine
           "keep_best_source" sample_jobs 0 1);
    try reflexivity.
  - exact sample_cosine_range.
  - right. reflexivity.
  - repeat constructor.
Defined.

(** X12: where the ids of the records are distinct, [keep_first] never
    removes the first record: no strategy names the first row as the
    second member of a pair, the cross-source strategy included, whose
    second source is never the source of the first row. *)
Theorem keep_first_keeps_first_record
    (md5 : str -> string) (tfidf_cosine : list str -> option (list (list Q)))
    (first : Job) (rest : list Job) :
  NoDup (job_ids (first :: rest)) ->
  has_column raw_title (first :: rest) = true ->
  has_column raw_company (first :: rest) = true ->
  exists cleaned a,
    _handle_duplicates md5 tfidf_cosine "keep_first" (first :: rest)
    = Ok (first :: cleaned, a).
Proof.
  intros ND T C.
  destruct (handle_duplicates_ok md5 tfidf_cosine "keep_first" _ T C)
    as (df & a & removed & P & D & K & I & Known & R & H & _).
  exists (keep_jobs removed rest), a. rewrite H. do 2 f_equal.
  rewrite removal_loop_keep_first in R. inversion R as [Rm]. clear R.
  unfold keep_jobs. cbn [filter].
  match goal with |- (if negb ?b then _ else _) = _ => destruct b eqn:E end;
    [|reflexivity].
  exfalso. apply existsb_exists in E. destruct E as (x & Ix & Ex).
  apply String.eqb_eq in Ex. subst x.
  rewrite app_nil_r in Ix. apply in_rev in Ix. apply in_map_iff in Ix.
  destruct Ix as (dup & E2 & Idup). apply filter_In in Idup.
  destruct Idup as [Idup _].
  apply (consolidate_subset _ _ _ K) in Idup. apply strategy_later in Idup.
  destruct Idup as (r1 & r2 & _ & I2 & _ & J2 & _).
  assert (Tl : In (job_id r2) (map raw_id rest)).
  { change (map raw_id rest) with (tl (job_ids (first :: rest))).
    rewrite <- I. unfold row_ids.
    destruct (rows df) as [|r0 rs]; [contradiction|]. simpl in *.
    now apply in_map. }
  unfold job_ids in ND. simpl in ND. apply NoDup_cons_iff in ND.
  destruct ND as [NI _]. apply NI. rewrite <- E2, J2. exact Tl.
Qed.

Lemma keep_first_keeps_first_record_witness :
  exists cleaned a,
    _handle_duplicates sample_md5 sample_cosine "keep_first" sample_jobs
    = Ok (hd_job sample_jobs :: cleaned, a).
Proof.
  apply (keep_first_keeps_first_record sample_md5 sample_cosine
           (hd_job sample_jobs) (tl sample_jobs)); try reflexivity.
  repeat constructor; simpl; intuition discriminate.
Defined.

(** X13: where the ids of the records are distinct, no consolidated match
    pairs a record with itself. *)
Theorem no_record_paired_with_itself
    (md5 : str -> string) (tfidf_cosine : list str -> option (list (list Q)))
    (config : Config) (jobs_data : list Job) :
  NoDup (job_ids jobs_data) ->
  has_column raw_title jobs_data = true ->
  has_column raw_company jobs_data = true ->
  exists a,
    detect_duplicates md5 tfidf_cosine config jobs_data = Ok a
    /\ forall m, In m (consolidated_duplicates a) -> job1_id m <> job2_id m.
Proof.
  intros ND T C.
  destruct (detect_duplicates_ok md5 tfidf_cosine config jobs_data T C)
    as (df & a & P & D & M & K & _ & _).
  destruct (preprocess_data_ok md5 jobs_data T C) as (df' & P' & I & _).
  assert (df' = df) by congruence. subst df'.
  exists a. split; [exact D|]. intros m Im.
  apply (consolidate_subset _ _ _ K) in Im. rewrite M in Im.
  apply strategy_later in Im.
  destruct Im as (r1 & r2 & _ & _ & -> & -> & N).
  apply N. rewrite I. exact ND.
Qed.

Lemma no_record_paired_with_itself_witness :
  exists a,
    detect_duplicates sample_md5 sample_cosine _default_config sample_jobs = Ok a
    /\ forall m, In m (consolidated_duplicates a) -> job1_id m <> job2_id m.
Proof.
  apply (no_record_paired_with_itself sample_md5 sample_cosine _default_config
           sample_jobs); try reflexivity.
  repeat constructor; simpl; intuition discriminate.
Defined.

(** X14: an exact match is never displaced in consolidation: for every
    pair that the exact strategy reports, the consolidated list holds an
    entry of type [exact] with confidence 1.0, every other strategy
    staying strictly below 1.0.  The cosine similarities of scikit-learn
    are taken to lie in [0, 1]. *)
Theorem exact_pairs_survive_consolidation
    (md5 : str -> string) (tfidf_cosine : list str -> option (list (list Q)))
    (config : Config) (jobs_data : list Job) :
  cosine_range tfidf_cosine ->
  has_column raw_title jobs_data = true ->
  has_column raw_company jobs_data = true ->
  exists a,
    detect_duplicates md5 tfidf_cosine config jobs_data = Ok a
    /\ forall d, In d (exact_duplicates (per_method a)) ->
         exists e,
           In e (consolidated_duplicates a) /\ same_pair d e
           /\ match_type e = "exact"%string /\ confidence e = 1.0%Q.
Proof.
  intros R T C.
  destruct (detect_duplicates_ok md5 tfidf_cosine config jobs_data T C)
    as (df & a & P & D & M & K & _ & _).
  exists a. split; [exact D|]. intros d Id. rewrite M in Id, K. simpl in Id.
  destruct (exact_survives tfidf_cosine config df _ _ R K Id)
    as (e & Ie & Se & Xe).
  exists e. repeat split; auto;
    apply exact_duplicates_spec in Xe;
    destruct Xe as (r1 & r2 & _ & _ & ->); reflexivity.
Qed.

Lemma exact_pairs_survive_consolidation_witness :
  exists a,
    detect_duplicates sample_md5 sample_cosine _default_config sample_jobs = Ok a
    /\ forall d, In d (exact_duplicates (per_method a)) ->
         exists e,
           In e (consolidated_duplicates a) /\ same_pair d e
           /\ match_type e = "exact"%string /\ confidence e = 1.0%Q.
Proof.
  exact (exact_pairs_survive_consolidation sample_md5 sample_cosine
           _default_config sample_jobs sample_cosine_range eq_refl eq_refl).
Defined.

Import IdenticalFacts SummaryFacts BoundFacts AlphabetFacts EdgeFacts.

(** X15: two rows with the same cleaned title, normalized company,
    cleaned location and cleaned description score 1 under the fuzzy
    scorer, whatever their texts ([SequenceMatcher] gives a text the
    ratio 1 against itself, popular characters or not); standing at
    positions [i < j] they are reported by the fuzzy strategy with
    confidence 0.95 and the reasons of a full agreement, for every
    configuration with non-negative weights, a positive title weight and
    a threshold of at most 1. *)
Theorem identical_rows_are_fuzzy_duplicates
    (config : Config) (df : DataFrame) (job1 job2 : Row) (t : str) :
  weights_nonneg config -> (0 < weight_title config)%Q ->
  (fuzzy_threshold config <= 1)%Q ->
  in_order df job1 job2 ->
  title_clean job1 = Some t -> title_clean job2 = Some t ->
  company_normalized job1 = company_normalized job2 ->
  location_clean job1 = location_clean job2 ->
  description_clean job1 = description_clean job2 ->
  exists m,
    In m (_find_fuzzy_duplicates config df)
    /\ job1_id m = job_id job1 /\ job2_id m = job_id job2
    /\ match_type m = "fuzzy"%string
    /\ (similarity_score m == 1)%Q
    /\ confidence m = 0.95%Q
    /\ reasons m = identical_reasons job2.
Proof.
  intros W Wt Th O T1 T2 C L D.
  pose proof (fuzzy_similarity_identical config job1 job2 t W Wt T1 T2 C L D)
    as S.
  eexists. split.
  - unfold _find_fuzzy_duplicates. apply in_flat_map.
    exists (job1, job2). split; [now apply in_order_pairs|].
    cbv beta iota.
    assert (Q : Qle_bool (fuzzy_threshold config)
                  (_calculate_fuzzy_similarity config job1 job2) = true).
    { apply Qle_bool_iff. now rewrite S. }
    rewrite Q. left. reflexivity.
  - simpl. repeat split; auto; [now apply py_min_cap|].
    now apply (similarity_reasons_identical job1 job2 t).
Qed.

Lemma identical_rows_are_fuzzy_duplicates_witness :
  exists m,
    In m (_find_fuzzy_duplicates _default_config sample_pair)
    /\ job1_id m = "1"%string /\ job2_id m = "2"%string
    /\ match_type m = "fuzzy"%string
    /\ (similarity_score m == 1)%Q
    /\ confidence m = 0.95%Q
    /\ reasons m = ["very_similar_titles"; "same_company";
                    "same_location"]%string.
Proof.
  apply (identical_rows_are_fuzzy_duplicates _default_config sample_pair
           (sample_row "1" "developer" "techcorp" "merojob")
           (sample_row "2" "developer" "techcorp" "jobaxle")
           (txt "developer")); try reflexivity.
  - repeat split; discriminate.
  - discriminate.
  - exists 0, 1. repeat split. lia.
Defined.

(** X16: with non-negative weights the fuzzy score lies between 0 and 1;
    the cross-source score always does. *)
Theorem similarity_scores_in_unit_interval
    (config : Config) (job1 job2 : Row) :
  weights_nonneg config ->
  (0 <= _calculate_fuzzy_similarity config job1 job2 <= 1)%Q
  /\ (0 <= _calculate_cross_source_similarity job1 job2 <= 1)%Q.
Proof.
  intros W. split.
  - now apply fuzzy_similarity_bounds.
  - apply ScorerFacts.cross_source_similarity_bounds.
Qed.

Lemma similarity_scores_in_unit_interval_witness :
  (0 <= _calculate_fuzzy_similarity _default_config engineer developer <= 1)%Q
  /\ (0 <= _calculate_cross_source_similarity engineer developer <= 1)%Q.
Proof.
  apply (similarity_scores_in_unit_interval _default_config engineer developer).
  repeat split; discriminate.
Defined.

(** X17: under the default configuration every exact, fuzzy and
    cross-source match passes the test [confidence >= min_confidence] of
    the resolver, the bar being 0.6.  A semantic match, whose confidence
    is 0.8 times its score, passes it when its score is at least 0.75 and
    fails it when its score is at most 0.74: the semantic threshold being
    0.7, matches with a score from 0.7 to 0.74 are reported and fail the
    test. *)
Theorem default_confidence_bar
    (tfidf_cosine : list str -> option (list (list Q)))
    (df : DataFrame) (m : DuplicateMatch) :
  In m (all_matches (strategy_results tfidf_cosine _default_config df)) ->
  (match_type m = "semantic"%string
   /\ (medium_similarity _default_config <= similarity_score m)%Q
   /\ ((0.75 <= similarity_score m)%Q -> confident _default_config m = true)
   /\ ((similarity_score m <= 0.74)%Q -> confident _default_config m = false))
  \/ (match_type m <> "semantic"%string
      /\ confident _default_config m = true).
Proof.
  unfold all_matches, methods, strategy_results. simpl.
  rewrite !in_app_iff. intros [I|[I|[I|[I|[]]]]].
  - apply exact_duplicates_spec in I.
    destruct I as (j1 & j2 & _ & _ & ->).
    right. split; [discriminate | reflexivity].
  - unfold _find_fuzzy_duplicates in I. apply in_flat_map in I.
    destruct I as ([job1 job2] & _ & I).
    destruct (Qle_bool _ _) eqn:Q; [|contradiction].
    destruct I as [<-|[]]. right. split; [discriminate|].
    apply Qle_bool_iff in Q. unfold confident. simpl.
    apply Qle_bool_iff. apply py_min_ge; [|discriminate].
    apply Qle_trans with 0.8%Q; [discriminate | exact Q].
  - unfold _find_semantic_duplicates in I.
    destruct (negb (enable_advanced_matching _default_config));
      [contradiction|].
    destruct (negb (existsb _ _)); [contradiction|].
    destruct (tfidf_cosine _) as [sims|]; [|contradiction].
    apply in_flat_map in I. destruct I as ([[i job1] [j job2]] & _ & I).
    destruct (Qle_bool _ _) eqn:Q; [|contradiction].
    destruct I as [<-|[]]. left. split; [reflexivity|].
    split; [now apply Qle_bool_iff in Q|].
    split.
    + intros H. apply (semantic_bar (entry sims i j)). exact H.
    + intros H. unfold confident. cbn [confidence].
      change (min_confidence _default_config) with 0.6%Q.
      destruct (Qle_bool 0.6 (entry sims i j * 0.8)) eqn:E; [|reflexivity].
      apply (semantic_bar (entry sims i j)) in E. exfalso.
      apply (Qlt_irrefl 0.75). apply Qle_lt_trans with 0.74%Q; [|reflexivity].
      now apply Qle_trans with (entry sims i j).
  - apply cross_source_spec in I.
    destruct I as (job1 & job2 & n1 & n2 & _ & _ & _ & _ & _ & _ & Q & ->).
    right. split; [discriminate|].
    apply Qle_bool_iff in Q. unfold confident. simpl.
    apply Qle_bool_iff.
    apply Qle_trans with (0.9 * 0.9)%Q; [discriminate|].
    apply Qmult_le_compat_r; [exact Q | discriminate].
Qed.

Lemma default_confidence_bar_witness :
  exists m,
    In m (all_matches (strategy_results sample_cosine _default_config
                         sample_pair))
    /\ ((match_type m = "semantic"%string
         /\ (medium_similarity _default_config <= similarity_score m)%Q
         /\ ((0.75 <= similarity_score m)%Q ->
             confident _default_config m = true)
         /\ ((similarity_score m <= 0.74)%Q ->
             confident _default_config m = false))
        \/ (match_type m <> "semantic"%string
            /\ confident _default_config m = true)).
Proof.
  assert (N : exists m l,
             all_matches (strategy_results sample_cosine _default_config
                            sample_pair) = m :: l).
  { vm_compute. eauto. }
  destruct N as (m & l & E).
  assert (I : In m (all_matches (strategy_results sample_cosine _default_config
                                   sample_pair)))
    by (rewrite E; now left).
  exists m. split; [exact I|].
  exact (default_confidence_bar sample_cosine sample_pair m I).
Defined.

(** X18: the consolidated list is sorted by descending confidence, holds
    matches of the strategies only, and is no longer than the four lists
    together. *)
Theorem consolidated_sorted_by_confidence (results : Results) :
  exists out,
    _consolidate_duplicates results = Ok out
    /\ descending out
    /\ (forall e, In e out -> In e (all_matches results))
    /\ length out <= length (all_matches results).
Proof.
  destruct (consolidate_result results) as (all & sp & E & _).
  exists (sort_by_confidence all). split; [exact E|]. split; [|split].
  - apply ConsolidateFacts.sort_by_confidence_desc.
  - intros e I. exact (consolidate_subset _ _ _ E I).
  - now apply consolidate_length.
Qed.

(** X19: the two distributions of the summary count every match once:
    the three confidence buckets add up to the number of matches, and so
    do the counts per match type, each type having one entry. *)
Theorem distributions_count_every_match (duplicates : list DuplicateMatch) :
  buckets (_get_confidence_distribution duplicates) = length duplicates
  /\ counted (_get_match_type_distribution duplicates) = length duplicates
  /\ NoDup (map fst (_get_match_type_distribution duplicates)).
Proof.
  split; [apply confidence_distribution_total|].
  apply match_type_distribution_total.
Qed.

(** X20: in the summary that [detect_duplicates] returns the number of
    jobs affected is at most the number of jobs and at most twice the
    number of pairs, and the duplicate rate lies between 0 and 1. *)
Theorem summary_counts_bounded
    (md5 : str -> string) (tfidf_cosine : list str -> option (list (list Q)))
    (config : Config) (jobs_data : list Job) :
  has_column raw_title jobs_data = true ->
  has_column raw_company jobs_data = true ->
  exists a,
    detect_duplicates md5 tfidf_cosine config jobs_data = Ok a
    /\ unique_jobs_affected (summary a) <= total_jobs (summary a)
    /\ unique_jobs_affected (summary a) <= 2 * duplicate_pairs (summary a)
    /\ (0 <= duplicate_rate (summary a) <= 1)%Q.
Proof.
  intros T C.
  destruct (detect_duplicates_returns_ok md5 tfidf_cosine config jobs_data T C)
    as (a & D).
  destruct (detect_duplicates_summary _ _ _ _ _ D) as (df & P & K & G).
  destruct (generate_summary_fields _ _ _ G) as (F1 & F2 & F3 & _ & _ & F6).
  assert (Known : Forall (ids_known df) (consolidated_duplicates a)).
  { apply Forall_forall. intros m I.
    apply (consolidate_subset _ _ _ K) in I.
    now apply strategy_ids_known in I. }
  assert (L : unique_jobs_affected (summary a) <= total_jobs (summary a)).
  { rewrite F1, F3. now apply affected_le_rows. }
  exists a. split; [exact D|]. split; [exact L|]. split.
  - rewrite F2, F3.
    rewrite <- (flat_map_pair_length job1_id job2_id). apply dedup_length.
  - rewrite F6. now apply rate_bounds.
Qed.

Lemma summary_counts_bounded_witness :
  exists a,
    detect_duplicates sample_md5 sample_cosine _default_config sample_jobs = Ok a
    /\ unique_jobs_affected (summary a) <= total_jobs (summary a)
    /\ unique_jobs_affected (summary a) <= 2 * duplicate_pairs (summary a)
    /\ (0 <= duplicate_rate (summary a) <= 1)%Q.
Proof.
  exact (summary_counts_bounded sample_md5 sample_cosine _default_config
           sample_jobs eq_refl eq_refl).
Defined.

(** X21: every character of a cleaned text is the blank, the hyphen or a
    word character, and is its own lower case: no other whitespace, no
    punctuation and no capital letter is left. *)
Theorem clean_text_characters (s : str) : Forall clean_char (_clean_text s).
Proof. apply clean_text_alphabet. Qed.

(** X22: the cleaner and the company normalizer do not tell letter case
    apart: texts that agree up to case are cleaned, and normalized as
    company names, to the same text. *)
Theorem cleaning_ignores_case (s t : str) :
  lower s = lower t ->
  _clean_text s = _clean_text t
  /\ _normalize_company_name s = _normalize_company_name t.
Proof.
  intros E. split;
    [now apply clean_text_case | now apply normalize_company_name_case].
Qed.

Lemma cleaning_ignores_case_witness :
  _clean_text (txt "Senior DEVELOPER") = _clean_text (txt "senior developer")
  /\ _normalize_company_name (txt "Senior DEVELOPER")
     = _normalize_company_name (txt "senior developer").
Proof.
  exact (cleaning_ignores_case (txt "Senior DEVELOPER")
           (txt "senior developer") eq_refl).
Defined.

(** X23: the words of a normalized text are the words of the input that
    are not noise words, in their order: splitting undoes the joining, so
    no noise word is left as a word. *)
Theorem normalized_text_drops_noise_words (s : str) :
  split (_normalize_text s) = filter keep_word (split s)
  /\ forall w, In w (split (_normalize_text s)) -> ~ In w noise_words.
Proof.
  pose proof (normalize_text_words s) as E. split; [exact E|].
  intros w I N. rewrite E in I. apply filter_In in I. destruct I as [_ K].
  unfold keep_word, mem_str in K. apply negb_true_iff in K.
  apply (PairingFacts.existsb_false _ _ _ K) in N.
  unfold str_eqb in N. destruct (list_eq_dec ascii_dec w w); congruence.
Qed.

(** X24: a row whose compared texts are all empty scores 0 against a row
    whose compared texts are all non-empty, in either order and under
    both scorers; with a positive threshold the fuzzy strategy does not
    report the pair. *)
Theorem blank_row_scores_zero (config : Config) (job1 job2 : Row) :
  blank_texts job1 -> filled_texts job2 ->
  (_calculate_fuzzy_similarity config job1 job2 == 0)%Q
  /\ (_calculate_fuzzy_similarity config job2 job1 == 0)%Q
  /\ (_calculate_cross_source_similarity job1 job2 == 0)%Q
  /\ (_calculate_cross_source_similarity job2 job1 == 0)%Q
  /\ ((0 < fuzzy_threshold config)%Q ->
      Qle_bool (fuzzy_threshold config)
        (_calculate_fuzzy_similarity config job1 job2) = false).
Proof.
  intros B F.
  assert (Z : (_calculate_fuzzy_similarity config job1 job2 == 0)%Q)
    by (apply fuzzy_similarity_blank; auto).
  repeat split; auto.
  - apply fuzzy_similarity_blank; auto.
  - apply cross_source_similarity_blank; auto.
  - apply cross_source_similarity_blank; auto.
  - intros P. destruct (Qle_bool _ _) eqn:E; auto.
    apply Qle_bool_iff in E. rewrite Z in E. exfalso.
    now apply (Qlt_not_le _ _ P).
Qed.

Lemma blank_row_scores_zero_witness :
  (_calculate_fuzzy_similarity _default_config (blank_row "7") engineer == 0)%Q
  /\ (_calculate_fuzzy_similarity _default_config engineer (blank_row "7")
      == 0)%Q
  /\ (_calculate_cross_source_similarity (blank_row "7") engineer == 0)%Q
  /\ (_calculate_cross_source_similarity engineer (blank_row "7") == 0)%Q
  /\ ((0 < fuzzy_threshold _default_config)%Q ->
      Qle_bool (fuzzy_threshold _default_config)
        (_calculate_fuzzy_similarity _default_config (blank_row "7") engineer)
      = false).
Proof.
  apply (blank_row_scores_zero _default_config (blank_row "7") engineer).
  - repeat split; right; reflexivity.
  - repeat split; intros s E; inversion E; discriminate.
Defined.

(** X25: a list of one record that has a title and a company is analysed
    without a pair: every strategy comes back empty, the summary counts
    one job and no pair, and the resolver returns the record under every
    policy. *)
Theorem single_record_has_no_duplicates
    (md5 : str -> string) (tfidf_cosine : list str -> option (list (list Q)))
    (config : Config) (job : Job) (strategy : string) :
  present (raw_title job) = true -> present (raw_company job) = true ->
  exists a,
    detect_duplicates md5 tfidf_cosine config [job] = Ok a
    /\ per_method a = no_matches
    /\ consolidated_duplicates a = []
    /\ total_jobs (summary a) = 1
    /\ duplicate_pairs (summary a) = 0
    /\ remove_duplicates config [job] (consolidated_duplicates a) strategy
       = Ok [job].
Proof.
  intros T C.
  assert (Ht : has_column raw_title [job] = true)
    by (unfold has_column; simpl; now rewrite T).
  assert (Hc : has_column raw_company [job] = true)
    by (unfold has_column; simpl; now rewrite C).
  destruct (detect_duplicates_ok md5 tfidf_cosine config [job] Ht Hc)
    as (df & a & P & D & M & K & N1 & N2).
  destruct (preprocess_data_ok md5 [job] Ht Hc) as (df' & P' & I & _).
  assert (df' = df) by congruence. subst df'.
  assert (R : exists r, rows df = [r]).
  { unfold row_ids in I. destruct (rows df) as [|r [|r' l]];
      try discriminate. eauto. }
  destruct R as [r R].
  rewrite (single_row_strategies tfidf_cosine config df r R) in M.
  rewrite M in K. inversion K as [K']. 
  exists a. rewrite <- K' in *. repeat split; auto.
Qed.

Lemma single_record_has_no_duplicates_witness :
  exists a,
    detect_duplicates sample_md5 sample_cosine _default_config
      [hd_job sample_jobs] = Ok a
    /\ per_method a = no_matches
    /\ consolidated_duplicates a = []
    /\ total_jobs (summary a) = 1
    /\ duplicate_pairs (summary a) = 0
    /\ remove_duplicates _default_config [hd_job sample_jobs]
         (consolidated_duplicates a) "keep_best_source"
       = Ok [hd_job sample_jobs].
Proof.
  exact (single_record_has_no_duplicates sample_md5 sample_cosine
           _default_config (hd_job sample_jobs) "keep_best_source"
           eq_refl eq_refl).
Defined.

Import RerunFacts.

(** X26: [keep_first] is idempotent: run again on its own output with the
    same matches, the resolver returns that output unchanged. *)
Theorem keep_first_is_idempotent
    (config : Config) (jobs_data : list Job) (duplicates : list DuplicateMatch) :
  exists cleaned,
    remove_duplicates config jobs_data duplicates "keep_first" = Ok cleaned
    /\ remove_duplicates config cleaned duplicates "keep_first" = Ok cleaned.
Proof.
  eexists. rewrite !remove_duplicates_eq, !removal_loop_keep_first.
  cbn [bind]. split; [reflexivity|]. now rewrite keep_jobs_idem.
Qed.

(** X27: [keep_best_source] is not: once it has removed a record, running
    it again on its own output with the same matches raises
    [StopIteration], the removed id being still named by a confident
    match. *)
Theorem keep_best_source_fails_on_its_output
    (config : Config) (jobs_data cleaned : list Job)
    (duplicates : list DuplicateMatch) :
  remove_duplicates config jobs_data duplicates "keep_best_source" = Ok cleaned ->
  cleaned <> jobs_data ->
  remove_duplicates config cleaned duplicates "keep_best_source"
  = Raise StopIteration.
Proof.
  intros E N.
  pose proof (best_source_known _ _ _ _ E) as K.
  destruct (removal_loop_best_source config jobs_data duplicates [] K)
    as (removed & R & S).
  rewrite remove_duplicates_eq, R in E. cbn [bind] in E.
  inversion E as [C]. clear E.
  destruct removed as [|i removed'];
    [now rewrite keep_jobs_nil in C; subst|].
  destruct (proj1 (S i) (or_introl eq_refl))
    as [[]|(dup & job1 & job2 & I & Cd & _ & _ & Ei)].
  rewrite remove_duplicates_eq.
  rewrite removal_loop_best_source_raises; [reflexivity|].
  exists dup. repeat split; auto. intros [K1 K2].
  assert (G : ~ In i (job_ids (keep_jobs (i :: removed') jobs_data)))
    by (apply removed_id_gone; now left).
  apply G. unfold lower_priority in Ei.
  destruct (_ <=? _); subst i; assumption.
Qed.

Lemma keep_best_source_fails_on_its_output_witness :
  remove_duplicates _default_config sample_jobs sample_duplicates
    "keep_best_source" = Ok [hd_job sample_jobs]
  /\ [hd_job sample_jobs] <> sample_jobs
  /\ remove_duplicates _default_config [hd_job sample_jobs] sample_duplicates
       "keep_best_source" = Raise StopIteration.
Proof.
  assert (E : remove_duplicates _default_config sample_jobs sample_duplicates
                "keep_best_source" = Ok [hd_job sample_jobs]) by reflexivity.
  assert (N : [hd_job sample_jobs] <> sample_jobs) by discriminate.
  split; [exact E|]. split; [exact N|].
  exact (keep_best_source_fails_on_its_output _default_config sample_jobs
           [hd_job sample_jobs] sample_duplicates E N).
Defined.

(** X28: [_normalize_text] and [_normalize_company_name] are each
    idempotent, and so is the normalization of a title or description,
    [_normalize_text] after [_clean_text], taken as one function: what
    [_clean_text] leaves behind of blanks, the splitting into words
    removes. *)
Theorem normalization_idempotent :
  (forall s, _normalize_text (_normalize_text s) = _normalize_text s)
  /\ (forall s, _normalize_company_name (_normalize_company_name s)
                = _normalize_company_name s)
  /\ (forall s, _normalize_text (_clean_text (_normalize_text (_clean_text s)))
                = _normalize_text (_clean_text s)).
Proof.
  split; [|split]; intros s.
  - apply NormalizerFacts.normalize_text_idem.
  - apply NormalizerFacts.normalize_company_name_idem.
  - rewrite NormalizerFacts.clean_text_normalized.
    apply NormalizerFacts.normalize_text_idem.
Qed.
